(** * NLU-GeoSpatialQuery: the metric extractor and metric API caller of
      [nlu_main.py], embedded in Rocq.

    Python [str] values are modelled as lists of characters whose code
    points are below 256 (the Latin-1 block of Unicode): a character is an
    [ascii], its code point is [N_of_ascii].  The character tables of
    Python ([str.lower], [str.isspace], the [\w] class of [re]) are written
    out for that block.  The patterns of the program are values of a small
    regular-expression type, run by a backtracking matcher that lists the
    successes in the order in which Python's [re] tries them. *)

From Stdlib Require Import Ascii String.
From Stdlib Require Import List ZArith QArith Lia Bool Arith PeanoNat.
From Stdlib Require Import Numbers.DecimalString.
Import ListNotations.

Set Implicit Arguments.
Close Scope Q_scope.
Local Open Scope list_scope.

(* ================================================================== *)
(** ** Python strings *)

Module Text.

Definition str := list ascii.

(** A Rocq string literal read as a Python string (ASCII literals only). *)
Definition txt (s : string) : str := list_ascii_of_string s.

Definition code (c : ascii) : N := N_of_ascii c.

Definition between (lo hi : N) (c : ascii) : bool :=
  (N.leb lo (code c) && N.leb (code c) hi)%bool.

Definition is_code (n : N) (c : ascii) : bool := N.eqb (code c) n.

(** [str.isspace] / [\s]: U+0009..U+000D, U+001C..U+0020, U+0085, U+00A0. *)
Definition isspace (c : ascii) : bool :=
  (between 9 13 c || between 28 32 c || is_code 133 c || is_code 160 c)%bool.

(** [str.isalnum]: letters, decimal digits and the numeric characters. *)
Definition isalnum (c : ascii) : bool :=
  (between 48 57 c || between 65 90 c || between 97 122 c
   || is_code 170 c || is_code 178 c || is_code 179 c || is_code 181 c
   || is_code 185 c || is_code 186 c || between 188 190 c
   || between 192 214 c || between 216 246 c || between 248 255 c)%bool.

(** The [\w] class of [re] on [str] patterns. *)
Definition isword (c : ascii) : bool := (isalnum c || is_code 95 c)%bool.

(** Characters that have a lower-case partner 32 code points above. *)
Definition isupper (c : ascii) : bool :=
  (between 65 90 c || between 192 214 c || between 216 222 c)%bool.

Definition lower_char (c : ascii) : ascii :=
  if isupper c then ascii_of_N (code c + 32) else c.

(** Lower-case characters whose upper-case partner is in the block. *)
Definition haslower (c : ascii) : bool :=
  (between 97 122 c || between 224 246 c || between 248 254 c)%bool.

Definition upper_char (c : ascii) : ascii :=
  if haslower c then ascii_of_N (code c - 32) else c.

(** [str.lower()] *)
Definition lower (s : str) : str := map lower_char s.

Fixpoint lstrip_by (p : ascii -> bool) (s : str) : str :=
  match s with
  | c :: s' => if p c then lstrip_by p s' else s
  | [] => []
  end.

Definition rstrip_by (p : ascii -> bool) (s : str) : str :=
  rev (lstrip_by p (rev s)).

Definition strip_by (p : ascii -> bool) (s : str) : str :=
  rstrip_by p (lstrip_by p s).

(** [s.strip()] *)
Definition strip (s : str) : str := strip_by isspace s.

(** [s.strip(chars)] *)
Definition strip_chars (chars : str) (s : str) : str :=
  strip_by (fun c => existsb (Ascii.eqb c) chars) s.

Definition str_eqb (a b : str) : bool :=
  if list_eq_dec ascii_dec a b then true else false.

(** Truth value of a string: [bool(s)]. *)
Definition truthy (s : str) : bool :=
  match s with [] => false | _ => true end.

End Text.
Import Text.

(* ================================================================== *)
(** ** The [re] module, for the constructs the program's patterns use *)

Module Re.

(** Members of a bracket expression; [Space] is [\s]. *)
Inductive citem :=
| One (c : ascii)
| Range (lo hi : ascii)
| Space.

Definition cset := list citem.

Inductive regex :=
| Eps
| Lit (c : ascii)                (* a literal character *)
| Cls (cs : cset)                (* [...] or \s *)
| Seq (r1 r2 : regex)
| Alt (r1 r2 : regex)            (* r1|r2, r1 first *)
| Opt (r : regex)                (* (?:r)?, greedy *)
| Rep (cs : cset) (lo : nat)     (* cs{lo,}, greedy; cs+ is Rep cs 1 *)
| Grp (r : regex)                (* (r), capturing group 1 *)
| WordB                          (* \b *)
| Eos.                           (* $ *)

Fixpoint word_of (s : str) : regex :=
  match s with
  | [] => Eps
  | c :: s' => Seq (Lit c) (word_of s')
  end.

(** A literal run of characters. *)
Definition word (s : string) : regex := word_of (txt s).

Fixpoint seqs (rs : list regex) : regex :=
  match rs with
  | [] => Eps
  | r :: rs' => Seq r (seqs rs')
  end.

(** ["|".join(...)]: alternatives, tried from left to right. *)
Fixpoint alts (rs : list regex) : regex :=
  match rs with
  | [] => Eps
  | [r] => r
  | r :: rs' => Alt r (alts rs')
  end.

Definition item_mem (it : citem) (c : ascii) : bool :=
  match it with
  | One x => Ascii.eqb x c
  | Range lo hi => between (code lo) (code hi) c
  | Space => isspace c
  end.

Definition cset_mem (cs : cset) (c : ascii) : bool :=
  existsb (fun it => item_mem it c) cs.

(** Membership under [re.IGNORECASE] when [ic] is set: the character or
    its case partner is in the set. *)
Definition cls_ok (ic : bool) (cs : cset) (c : ascii) : bool :=
  (cset_mem cs c
   || (ic && (cset_mem cs (lower_char c) || cset_mem cs (upper_char c))))%bool.

Definition lit_ok (ic : bool) (x c : ascii) : bool :=
  if ic then Ascii.eqb (lower_char x) (lower_char c) else Ascii.eqb x c.

(** A position in the subject: the character to its left, the text to its
    right, and what group 1 holds so far. *)
Record pos := Pos {
  before : option ascii;
  after : str;
  group1 : option str
}.

Definition word_at (o : option ascii) : bool :=
  match o with Some c => isword c | None => false end.

(** Greedy repetition of a character class: the longest run first, then
    each shorter one down to [lo] characters. *)
Fixpoint rep_exec (ok : ascii -> bool) (lo : nat) (prev : option ascii)
    (s : str) : list (option ascii * str) :=
  let stop := if Nat.eqb lo 0 then [(prev, s)] else [] in
  match s with
  | c :: s' =>
      if ok c then rep_exec ok (Nat.pred lo) (Some c) s' ++ stop else stop
  | [] => stop
  end.

(** The text between two positions of one subject. *)
Definition consumed (p q : pos) : str :=
  firstn (length (after p) - length (after q)) (after p).

(** All the ways [r] matches at [p], in the order Python tries them. *)
Fixpoint exec (ic : bool) (r : regex) (p : pos) : list pos :=
  match r with
  | Eps => [p]
  | Lit x =>
      match after p with
      | c :: s' => if lit_ok ic x c then [Pos (Some c) s' (group1 p)] else []
      | [] => []
      end
  | Cls cs =>
      match after p with
      | c :: s' => if cls_ok ic cs c then [Pos (Some c) s' (group1 p)] else []
      | [] => []
      end
  | Seq r1 r2 => flat_map (exec ic r2) (exec ic r1 p)
  | Alt r1 r2 => exec ic r1 p ++ exec ic r2 p
  | Opt r1 => exec ic r1 p ++ [p]
  | Rep cs lo =>
      map (fun e => Pos (fst e) (snd e) (group1 p))
          (rep_exec (cls_ok ic cs) lo (before p) (after p))
  | Grp r1 =>
      map (fun q => Pos (before q) (after q) (Some (consumed p q)))
          (exec ic r1 p)
  | WordB =>
      if xorb (word_at (before p)) (word_at (hd_error (after p)))
      then [p] else []
  | Eos =>
      match after p with
      | [] => [p]
      | [c] => if is_code 10 c then [p] else []
      | _ => []
      end
  end.

(** The pattern can match the empty string. *)
Fixpoint nullable (r : regex) : bool :=
  match r with
  | Eps | Opt _ | WordB | Eos => true
  | Lit _ | Cls _ => false
  | Seq r1 r2 => (nullable r1 && nullable r2)%bool
  | Alt r1 r2 => (nullable r1 || nullable r2)%bool
  | Rep _ lo => Nat.eqb lo 0
  | Grp r1 => nullable r1
  end.

(** The match object: where it starts, the text it spans ([group(0)]),
    [group(1)] and the text after it. *)
Record match_obj := Match {
  m_start : nat;
  m_text : str;
  m_group1 : option str;
  m_rest : str
}.

(** The match Python takes at one position, if any. *)
Definition match_at (ic : bool) (r : regex) (prev : option ascii) (s : str)
    : option pos :=
  hd_error (exec ic r (Pos prev s None)).

Fixpoint search_from (ic : bool) (r : regex) (prev : option ascii) (s : str)
    (i : nat) : option match_obj :=
  match match_at ic r prev s with
  | Some q =>
      Some (Match i (consumed (Pos prev s None) q) (group1 q) (after q))
  | None =>
      match s with
      | c :: s' => search_from ic r (Some c) s' (S i)
      | [] => None
      end
  end.

(** [re.search(r, s)] *)
Definition search (ic : bool) (r : regex) (s : str) : option match_obj :=
  search_from ic r None s 0.

(** Length of the match taken at a position. *)
Definition match_len (ic : bool) (r : regex) (prev : option ascii) (s : str)
    : option nat :=
  match match_at ic r prev s with
  | Some q => Some (length s - length (after q))
  | None => None
  end.

(** [re.sub] walks the subject from left to right; [skip] counts the
    characters still inside the match found last.  The patterns given to
    [sub] and [split] here never match the empty string; an empty match is
    passed over. *)
Fixpoint sub_go (ic : bool) (r : regex) (repl : str) (prev : option ascii)
    (s : str) (skip : nat) : str :=
  match s with
  | [] => []
  | c :: s' =>
      match skip with
      | S n => sub_go ic r repl (Some c) s' n
      | O =>
          match match_len ic r prev s with
          | Some (S n) => repl ++ sub_go ic r repl (Some c) s' n
          | _ => c :: sub_go ic r repl (Some c) s' 0
          end
      end
  end.

(** [re.sub(r, repl, s)] *)
Definition sub (ic : bool) (r : regex) (repl : str) (s : str) : str :=
  sub_go ic r repl None s 0.

Definition push (c : ascii) (ps : list str) : list str :=
  match ps with
  | p :: ps' => (c :: p) :: ps'
  | [] => [[c]]
  end.

Fixpoint split_go (ic : bool) (r : regex) (prev : option ascii) (s : str)
    (skip : nat) : list str :=
  match s with
  | [] => [[]]
  | c :: s' =>
      match skip with
      | S n => split_go ic r (Some c) s' n
      | O =>
          match match_len ic r prev s with
          | Some (S n) => [] :: split_go ic r (Some c) s' n
          | _ => push c (split_go ic r (Some c) s' 0)
          end
      end
  end.

(** [re.split(r, s)] for a pattern without groups. *)
Definition split (ic : bool) (r : regex) (s : str) : list str :=
  split_go ic r None s 0.

End Re.
Import Re.

(* ================================================================== *)
(** ** The extractor: [METRIC_KEYWORDS], [extract_metrics],
       [sanitize_location], [split_locations] *)

Module Nlu.

(** U+00B0, the degree sign that begins two of the temperature patterns. *)
Definition deg : ascii := ascii_of_N 176.

Definition METRIC_KEYWORDS : list (str * list regex) :=
  [ (txt "temperature",
      [ Seq (word "temp") (Opt (word "erature"));
        word "hotter"; word "colder"; word "degrees";
        Seq (Lit deg) (word "c"); Seq (Lit deg) (word "f");
        seqs [WordB; word "weather"; WordB] ]);
    (txt "rainfall",
      [ Seq (word "rain") (Opt (word "fall"));
        word "precipitation"; word "mm of rain"; word "rainy" ]);
    (txt "humidity", [ word "humidity"; word "humid" ]);
    (txt "wind_speed",
      [ Seq (word "wind") (Opt (word " speed"));
        word "windspeed"; word "wind gust" ]);
    (txt "pressure", [ word "pressure"; word "hpa"; word "atm" ]) ].

(** [in ([A-Z0-9a-z \-_,]+)], used with [re.IGNORECASE]. *)
Definition LOCATION_PATTERN : regex :=
  Seq (word "in ")
      (Grp (Rep [Range "A" "Z"; Range "0" "9"; Range "a" "z";
                 One " "; One "-"; One "_"; One ","] 1)).

Record ExtractionResult := Extraction {
  metrics : list str;
  location : option str;
  time : option str
}.

(** [for pat in patterns: if re.search(pat, text_low): ...; break] *)
Fixpoint any_pattern (patterns : list regex) (text_low : str) : bool :=
  match patterns with
  | [] => false
  | pat :: rest =>
      match search false pat text_low with
      | Some _ => true
      | None => any_pattern rest text_low
      end
  end.

(** The outer loop over [METRIC_KEYWORDS.items()]. *)
Definition scan_metrics (table : list (str * list regex)) (text_low : str)
    : list str :=
  fold_left
    (fun found kv =>
       if any_pattern (snd kv) text_low then found ++ [fst kv] else found)
    table [].

(** [list(dict.fromkeys(found))]: the first occurrence of each key. *)
Definition dict_fromkeys (found : list str) : list str :=
  fold_left
    (fun keys k => if existsb (str_eqb k) keys then keys else keys ++ [k])
    found [].

Definition time_words : list string :=
  [ "january"; "february"; "march"; "april"; "may"; "june"; "july";
    "august"; "september"; "october"; "november"; "december";
    "today"; "now"; "yesterday"; "last week"; "this week" ]%string.

(** The pattern bound to [months] in [extract_metrics]. *)
Definition months : regex := Grp (alts (map word time_words)).

Definition extract_metrics (text : str) : ExtractionResult :=
  let text_low := lower text in
  let found := scan_metrics METRIC_KEYWORDS text_low in
  let location :=
    match search true LOCATION_PATTERN text with
    | Some m => option_map strip (m_group1 m)
    | None => None
    end in
  let t :=
    match search false months text_low with
    | Some tm => m_group1 tm
    | None => None
    end in
  Extraction (dict_fromkeys found) location t.

Definition wb (r : regex) : regex := seqs [WordB; r; WordB].

Definition _TIME_TOKENS : list regex :=
  [ wb (word "now"); wb (word "today"); wb (word "yesterday");
    wb (word "last"); wb (word "this"); wb (word "next");
    wb (word "week"); wb (word "month");
    wb (Seq (word "jan") (Opt (word "uary")));
    wb (Seq (word "feb") (Opt (word "ruary")));
    wb (Seq (word "mar") (Opt (word "ch")));
    wb (Seq (word "apr") (Opt (word "il")));
    wb (word "may");
    wb (Seq (word "jun") (Opt (word "e")));
    wb (Seq (word "jul") (Opt (word "y")));
    wb (Seq (word "aug") (Opt (word "ust")));
    wb (Seq (word "sep") (Opt (word "tember")));
    wb (Seq (word "oct") (Opt (word "ober")));
    wb (Seq (word "nov") (Opt (word "ember")));
    wb (Seq (word "dec") (Opt (word "ember"))) ].

(** [re.compile("|".join(_TIME_TOKENS), flags=re.IGNORECASE)] *)
Definition _TIME_RE : regex := alts _TIME_TOKENS.

(** [[()]] *)
Definition PARENS : regex := Cls [One "("; One ")"].
(** [[.,;:]+$] *)
Definition TRAILING_PUNCT : regex :=
  Seq (Rep [One "."; One ","; One ";"; One ":"] 1) Eos.
(** [\s{2,}] *)
Definition SPACES2 : regex := Rep [Space] 2.

(** [loc or None] *)
Definition or_none (loc : str) : option str :=
  if truthy loc then Some loc else None.

(** The four assignments to [loc] between the guard and the [return]. *)
Definition cleanup (raw_location : str) : str :=
  let loc := raw_location in
  let loc := strip (sub false PARENS (txt " ") loc) in
  let loc := strip (sub false TRAILING_PUNCT (txt "") loc) in
  let loc := strip (sub true _TIME_RE (txt "") loc) in
  let loc := strip_chars (txt ",") (strip (sub false SPACES2 (txt " ") loc)) in
  loc.

Definition sanitize_location (raw_location : option str) : option str :=
  match raw_location with
  | None => None
  | Some raw => if negb (truthy raw) then None else or_none (cleanup raw)
  end.

(** [\s+and\s+], the first alternative of the pattern below. *)
Definition AND_SEPARATOR : regex :=
  seqs [Rep [Space] 1; word "and"; Rep [Space] 1].

(** [\s+and\s+|,|;|/|\|], used with [re.IGNORECASE]. *)
Definition SEPARATORS : regex :=
  alts [ AND_SEPARATOR; word ","; word ";"; word "/"; word "|" ].

Definition split_locations (raw_location : option str) : list str :=
  match raw_location with
  | None => []
  | Some raw =>
      if negb (truthy raw) then [] else
      let parts := split true SEPARATORS raw in
      map strip
          (filter (fun p => (truthy p && truthy (strip p))%bool) parts)
  end.

End Nlu.
Import Nlu.

(* ================================================================== *)
(** ** Provider responses and [extract_metric_from_owm] *)

Module Owm.

(** A parsed JSON payload, as [resp.json()] returns it.  A [dict] is kept
    as its items; [dict_get] reads the first item of a key. *)
#[warnings="-register-all"]
Inductive json :=
| JNull
| JBool (b : bool)
| JInt (n : Z)
| JFloat (q : Q)
| JStr (s : str)
| JList (l : list json)
| JDict (items : list (str * json)).

(** Exceptions, with the text [str(e)] gives. *)
Inductive exn :=
| AttributeError (msg : str)
| RuntimeError (msg : str)
| HTTPError (msg : str)
| OtherError (msg : str).

Definition str_of_exn (e : exn) : str :=
  match e with
  | AttributeError m | RuntimeError m | HTTPError m | OtherError m => m
  end.

Fixpoint dict_get (items : list (str * json)) (key : str) : option json :=
  match items with
  | [] => None
  | (k, v) :: rest => if str_eqb k key then Some v else dict_get rest key
  end.

Definition type_name (v : json) : str :=
  match v with
  | JNull => txt "NoneType"
  | JBool _ => txt "bool"
  | JInt _ => txt "int"
  | JFloat _ => txt "float"
  | JStr _ => txt "str"
  | JList _ => txt "list"
  | JDict _ => txt "dict"
  end.

(** [v.get(key, default)]: only a [dict] has [get]. *)
Definition py_get (v : json) (key : str) (default : json) : exn + json :=
  match v with
  | JDict items =>
      inr (match dict_get items key with Some x => x | None => default end)
  | _ =>
      inl (AttributeError
             (txt "'" ++ type_name v ++ txt "' object has no attribute 'get'"))
  end.

(** Truth value of a payload: [bool(v)]. *)
Definition json_truthy (v : json) : bool :=
  match v with
  | JNull => false
  | JBool b => b
  | JInt n => negb (Z.eqb n 0)
  | JFloat q => negb (Z.eqb (Qnum q) 0)
  | JStr s => truthy s
  | JList l => match l with [] => false | _ => true end
  | JDict items => match items with [] => false | _ => true end
  end.

(** [a or b] *)
Definition py_or (a b : json) : json := if json_truthy a then a else b.

Definition lookup2 (owm_json : json) (outer inner : string) : exn + json :=
  match py_get owm_json (txt outer) (JDict []) with
  | inl e => inl e
  | inr o => py_get o (txt inner) JNull
  end.

Definition extract_metric_from_owm (metric : str) (owm_json : json)
    : exn + json :=
  if str_eqb metric (txt "temperature") then lookup2 owm_json "main" "temp"
  else if str_eqb metric (txt "humidity") then lookup2 owm_json "main" "humidity"
  else if str_eqb metric (txt "pressure") then lookup2 owm_json "main" "pressure"
  else if str_eqb metric (txt "wind_speed") then lookup2 owm_json "wind" "speed"
  else if str_eqb metric (txt "rainfall") then
    match py_get owm_json (txt "rain") JNull with
    | inl e => inl e
    | inr (JDict rain) =>
        let get k := match dict_get rain (txt k) with
                     | Some x => x | None => JNull end in
        inr (py_or (py_or (get "1h"%string) (get "3h"%string)) (JFloat 0))
    | inr _ => inr (JFloat 0)
    end
  else inr JNull.

End Owm.
Import Owm.

(* ================================================================== *)
(** ** The provider gateway and the orchestrator [api_get_metric] *)

Module Api.

(** What [requests.get] is called with. *)
Record request := Request {
  url : str;
  q : str;
  appid : str;
  units : str
}.

Record response := Response {
  status_code : Z;
  reason : str;
  text : str;
  (** [resp.json()]: the payload, or the text of the error it raises *)
  json_body : str + json
}.

Record MetricQueryResult := Result {
  r_metric : str;
  r_location : str;
  r_value : json;
  r_units : str;
  r_provider : str
}.

Record MetricQueryError := Error {
  e_location : str;
  e_error : str
}.

Inductive detail :=
| Message (msg : str)
| Errors (errors : list MetricQueryError).

(** How a call of [api_get_metric] ends. *)
Inductive outcome :=
| HTTPException (status : Z) (d : detail)
| Returned (results : list MetricQueryResult)
           (errors : list MetricQueryError).

(** [str(n)] for an [int]. *)
Definition str_of_int (n : Z) : str :=
  txt (NilEmpty.string_of_int (Z.to_int n)).

(** [a or b] on optional strings. *)
Definition or_else (a b : option str) : option str :=
  match a with
  | Some s => if truthy s then a else b
  | None => b
  end.

Definition known_metric (metric : str) : bool :=
  existsb (fun kv => str_eqb (fst kv) metric) METRIC_KEYWORDS.

Section Gateway.

(** The process environment, read by [os.getenv]. *)
Variable getenv : str -> option str.

(** The network: what [requests.get] gives for a request, given the
    requests made before it (oldest first): the text of the exception it
    raises, or a response. *)
Variable requests_get : list request -> request -> str + response.

(** The state threaded through the calls: the requests made so far. *)
Definition netlog := list request.

Definition call_openweathermap_current (location : str) (api_key : option str)
    (log : netlog) : (exn + json) * netlog :=
  let missing :=
    (inl (RuntimeError (txt
       "OpenWeather API key is missing. Set OWM_API_KEY (or OWA) in environment.")),
     log) in
  match api_key with
  | None => missing
  | Some key =>
      if negb (truthy key) then missing
      else if negb (truthy location) then
        (inl (RuntimeError (txt "Location is empty.")), log)
      else
        let req := Request
          (txt "https://api.openweathermap.org/data/2.5/weather")
          location key (txt "metric") in
        let log' := log ++ [req] in
        match requests_get log req with
        | inl msg => (inl (OtherError msg), log')
        | inr resp =>
            if ((400 <=? status_code resp) && (status_code resp <? 600))%Z
            then
              (inl (HTTPError (str_of_int (status_code resp) ++ txt " "
                               ++ reason resp ++ txt ": " ++ text resp)),
               log')
            else
              match json_body resp with
              | inl msg => (inl (OtherError msg), log')
              | inr payload => (inr payload, log')
              end
        end
  end.

(** The body of the [try] for one location: the result it appends, or the
    error one of its two [except] clauses appends. *)
Definition attempt (metric : str) (api_key : option str) (loc : str)
    (log : netlog) : (MetricQueryResult + MetricQueryError) * netlog :=
  match call_openweathermap_current loc api_key log with
  | (inl e, log') => (inr (Error loc (str_of_exn e)), log')
  | (inr owm, log') =>
      match extract_metric_from_owm metric owm with
      | inl e => (inr (Error loc (str_of_exn e)), log')
      | inr value =>
          (inl (Result metric loc value
                  (txt "metric (see provider)") (txt "openweathermap")),
           log')
      end
  end.

(** One turn of [for loc in clean_locations]. *)
Definition query_one (metric : str) (api_key : option str)
    (acc : list MetricQueryResult * list MetricQueryError * netlog)
    (loc : str)
    : list MetricQueryResult * list MetricQueryError * netlog :=
  let '(results, errors, log) := acc in
  match attempt metric api_key loc log with
  | (inl r, log') => (results ++ [r], errors, log')
  | (inr e, log') => (results, errors ++ [e], log')
  end.

(** The loop that fills [clean_locations]. *)
Definition clean_all (raw_locations : list str) : list str :=
  fold_left
    (fun clean rl =>
       match sanitize_location (Some rl) with
       | Some cl => if truthy cl then clean ++ [cl] else clean
       | None => clean
       end)
    raw_locations [].

(** [os.getenv("OWM_API_KEY") or os.getenv("OWA") or None] *)
Definition env_api_key : option str :=
  or_else (or_else (getenv (txt "OWM_API_KEY")) (getenv (txt "OWA"))) None.

Definition api_get_metric (metric : option str) (location : option str)
    (log : netlog) : outcome * netlog :=
  let metric := lower (match metric with Some m => m | None => [] end) in
  if negb (known_metric metric) then
    (HTTPException 400
       (Message (txt "Metric '" ++ metric ++ txt "' not supported.")), log)
  else if negb (match location with Some l => truthy l | None => false end)
  then
    (HTTPException 400 (Message (txt "`location` query param is required")),
     log)
  else
    let api_key := env_api_key in
    let raw_locations := split_locations location in
    let clean_locations := clean_all raw_locations in
    match clean_locations with
    | [] =>
        (HTTPException 400
           (Message (txt "No valid location found after parsing/sanitization")),
         log)
    | _ =>
        let '(results, errors, log') :=
          fold_left (query_one metric api_key) clean_locations ([], [], log) in
        match results, errors with
        | [], _ :: _ => (HTTPException 502 (Errors errors), log')
        | _, _ => (Returned results errors, log')
        end
    end.

End Gateway.

End Api.
Import Api.

(* ================================================================== *)
(** ** Notions the statements below are written with *)

Module Spec.

(** [w] occurs in [s] at offset [i]. *)
Definition occurs_at (w s : str) (i : nat) : Prop :=
  exists pre post, s = pre ++ w ++ post /\ length pre = i.

(** The words [extract_metrics] looks for as a time. *)
Definition vocabulary : list str := map txt time_words.

(** [l1] is [l2] with some elements left out, the others in place. *)
Inductive subseq {A : Type} : list A -> list A -> Prop :=
| subseq_nil : subseq [] []
| subseq_skip x l1 l2 : subseq l1 l2 -> subseq l1 (x :: l2)
| subseq_take x l1 l2 : subseq l1 l2 -> subseq (x :: l1) (x :: l2).

(** The identifiers of the lexicon, in the order it declares them. *)
Definition lexicon_order : list str := map fst METRIC_KEYWORDS.

(** The text a location separator spans: [and] in any case between two
    non-empty runs of whitespace, or one of [,] [;] [/] [|]. *)
Inductive separator : str -> Prop :=
| sep_and ws1 w ws2 :
    ws1 <> [] -> ws2 <> [] ->
    forallb isspace ws1 = true -> forallb isspace ws2 = true ->
    lower w = txt "and" ->
    separator (ws1 ++ w ++ ws2)
| sep_char c : In c (txt ",;/|") -> separator [c].

(** [s0 ++ d1 ++ s1 ++ ... ++ dn ++ sn] *)
Fixpoint join (segs seps : list str) : str :=
  match segs, seps with
  | seg :: segs', d :: seps' => seg ++ d ++ join segs' seps'
  | seg :: _, [] => seg
  | [], _ => []
  end.

(** [raw] cut as a scan from left to right cuts it: the next cut is where
    a separator first begins, it takes the longest separator that begins
    there, and the scan goes on after it, so that no two cuts overlap.
    [segs] are the segments between the cuts, [seps] the separators. *)
Inductive divided : str -> list str -> list str -> Prop :=
| divided_end s :
    (forall pre d post, s = pre ++ d ++ post -> ~ separator d) ->
    divided s [s] []
| divided_cut seg d rest segs seps :
    separator d ->
    (forall pre d' post,
        seg ++ d ++ rest = pre ++ d' ++ post -> separator d' ->
        length seg <= length pre) ->
    (forall d' post,
        d ++ rest = d' ++ post -> separator d' -> length d' <= length d) ->
    divided rest segs seps ->
    divided (seg ++ d ++ rest) (seg :: segs) (d :: seps).

(** A piece that survives [split_locations]. *)
Definition nonblank (p : str) : bool := (truthy p && truthy (strip p))%bool.

Definition lefts {A B : Type} (l : list (A + B)) : list A :=
  flat_map (fun o => match o with inl a => [a] | inr _ => [] end) l.

Definition rights {A B : Type} (l : list (A + B)) : list B :=
  flat_map (fun o => match o with inl _ => [] | inr b => [b] end) l.

(** The location a result or an error is about. *)
Definition about (o : MetricQueryResult + MetricQueryError) : str :=
  match o with inl r => r_location r | inr e => e_location e end.

(** The sanitized candidates that survive. *)
Definition candidates (location : option str) : list str :=
  clean_all (split_locations location).

Definition metric_of (metric : option str) : str :=
  lower (match metric with Some m => m | None => [] end).

(** The three checks [api_get_metric] makes before its loop. *)
Definition preconditions (metric location : option str) : bool :=
  (known_metric (metric_of metric)
   && match location with Some l => truthy l | None => false end
   && match candidates location with [] => false | _ => true end)%bool.

(** The location parameter is missing or empty. *)
Definition missing (location : option str) : bool :=
  negb (match location with Some l => truthy l | None => false end).

(** The results and the errors an outcome carries. *)
Definition results_of (out : outcome) : list MetricQueryResult :=
  match out with Returned results _ => results | HTTPException _ _ => [] end.

Definition errors_of (out : outcome) : list MetricQueryError :=
  match out with
  | Returned _ errors => errors
  | HTTPException _ (Errors errors) => errors
  | HTTPException _ (Message _) => []
  end.

(** The answer made of the outcomes of the candidates: a 502 that carries
    the errors when there is no result and some error, else the results
    and the errors. *)
Definition answer_of (os : list (MetricQueryResult + MetricQueryError))
    : outcome :=
  match lefts os, rights os with
  | [], e :: es => HTTPException 502 (Errors (e :: es))
  | results, errors => Returned results errors
  end.

(** The value of a rain field, [None] when the key is missing. *)
Definition rain_field (rain : list (str * json)) (key : string) : json :=
  match dict_get rain (txt key) with Some x => x | None => JNull end.

Section Attempts.

Variable getenv : str -> option str.
Variable requests_get : list request -> request -> str + response.

(** Each candidate attempted in turn, whatever became of the ones before. *)
Fixpoint attempts (metric : str) (api_key : option str) (locs : list str)
    (log : netlog)
    : list (MetricQueryResult + MetricQueryError) * netlog :=
  match locs with
  | [] => ([], log)
  | loc :: rest =>
      let '(o, log1) := attempt requests_get metric api_key loc log in
      let '(os, log2) := attempts metric api_key rest log1 in
      (o :: os, log2)
  end.

(** The outcomes of one query, candidate by candidate. *)
Definition outcomes (metric location : option str) (log : netlog)
    : list (MetricQueryResult + MetricQueryError) :=
  fst (attempts (metric_of metric) (env_api_key getenv)
                (candidates location) log).

End Attempts.

(** [s] begins with the characters of [w], compared as [Lit] compares. *)
Fixpoint word_prefix (ic : bool) (w s : str) : bool :=
  match w, s with
  | [], _ => true
  | x :: w', c :: s' => (lit_ok ic x c && word_prefix ic w' s')%bool
  | _ :: _, [] => false
  end.

(** The character left of the position reached after reading [d]. *)
Definition last_before (d : str) (prev : option ascii) : option ascii :=
  fold_left (fun _ c => Some c) d prev.

(** The first word of [ws] found at the leftmost offset of [s] where one
    of them begins. *)
Fixpoint first_word (ws : list str) (s : str) : option str :=
  match find (fun w => word_prefix false w s) ws with
  | Some w => Some w
  | None =>
      match s with
      | [] => None
      | _ :: s' => first_word ws s'
      end
  end.

(** A process environment that holds a key, a provider that knows Paris
    alone, and a network that is down. *)
Definition env_with_key (name : str) : option str :=
  if str_eqb name (txt "OWM_API_KEY") then Some (txt "k3y") else None.

Definition provider_paris (_ : list request) (req : request) : str + response :=
  if str_eqb (q req) (txt "Paris") then
    inr (Response 200 (txt "OK") (txt "{...}")
           (inr (JDict [(txt "main", JDict [(txt "temp", JFloat (41 # 2))])])))
  else
    inr (Response 404 (txt "Not Found") (txt "city not found")
           (inr (JDict [(txt "cod", JStr (txt "404"))]))).

Definition network_down (_ : list request) (_ : request) : str + response :=
  inl (txt "Connection refused").

End Spec.
Import Spec.

(* ================================================================== *)
(** ** Notions for the further properties of the code *)

Module Facts.

(** The endpoint [call_openweathermap_current] calls. *)
Definition OWM_URL : str :=
  txt "https://api.openweathermap.org/data/2.5/weather".

(** The one request the gateway makes for a location. *)
Definition request_for (key loc : str) : request :=
  Request OWM_URL loc key (txt "metric").

Definition MISSING_KEY : str :=
  txt "OpenWeather API key is missing. Set OWM_API_KEY (or OWA) in environment.".

Definition is_dict (v : json) : bool :=
  match v with JDict _ => true | _ => false end.

(** The two keys a field metric is read through. *)
Definition field_path (metric : str) : option (string * string) :=
  if str_eqb metric (txt "temperature") then Some ("main", "temp")%string
  else if str_eqb metric (txt "humidity") then Some ("main", "humidity")%string
  else if str_eqb metric (txt "pressure") then Some ("main", "pressure")%string
  else if str_eqb metric (txt "wind_speed") then Some ("wind", "speed")%string
  else None.

(** [resp.raise_for_status()] raises for this status. *)
Definition error_status (status : Z) : bool :=
  ((400 <=? status) && (status <? 600))%Z.

(** The number of leading characters of [s] that satisfy [ok]. *)
Fixpoint run_length (ok : ascii -> bool) (s : str) : nat :=
  match s with
  | c :: s' => if ok c then S (run_length ok s') else 0
  | [] => 0
  end.

(** What follows the separator [\s+and\s+] takes at the start of [s]:
    all the whitespace there, "and" in any case, all the whitespace
    after it. *)
Definition and_rest (s : str) : option str :=
  let t := skipn (run_length isspace s) s in
  let u := skipn 3 t in
  if ((1 <=? run_length isspace s) && word_prefix true (txt "and") t
      && (1 <=? run_length isspace u))%bool
  then Some (skipn (run_length isspace u) u)
  else None.

(** What follows one of [,] [;] [/] [|] at the start of [s]. *)
Definition punct_rest (s : str) : option str :=
  match s with
  | c :: t => if existsb (Ascii.eqb c) (txt ",;/|") then Some t else None
  | [] => None
  end.

(** What follows the separator taken at the start of [s], if there is
    one. *)
Definition separator_rest (s : str) : option str :=
  match and_rest s with
  | Some t => Some t
  | None => punct_rest s
  end.

(** No two whitespace characters stand side by side in [s]. *)
Fixpoint single_spaced (s : str) : bool :=
  match s with
  | a :: (b :: _) as t => (negb (isspace a && isspace b) && single_spaced t)%bool
  | _ => true
  end.

(** [s] is empty or begins with a character that is not whitespace. *)
Definition starts_solid (s : str) : bool :=
  match s with
  | c :: _ => negb (isspace c)
  | [] => true
  end.

(** The characters that separate locations or are replaced by the
    sanitizer. *)
Definition PUNCTUATION : str := txt ",;/|()".

(** The cleanup up to, and without, the final [strip(",")]. *)
Definition cleanup_inner (raw_location : str) : str :=
  let loc := raw_location in
  let loc := strip (sub false PARENS (txt " ") loc) in
  let loc := strip (sub false TRAILING_PUNCT (txt "") loc) in
  let loc := strip (sub true _TIME_RE (txt "") loc) in
  strip (sub false SPACES2 (txt " ") loc).

(** The characters [LOCATION_PATTERN] captures, under [re.IGNORECASE]. *)
Definition location_char : ascii -> bool :=
  cls_ok true [Range "A" "Z"; Range "0" "9"; Range "a" "z";
               One " "; One "-"; One "_"; One ","].

(** At offset [i] of [s] stands "in " in any case, then a location
    character. *)
Definition names_place_at (s : str) (i : nat) : Prop :=
  exists pre w c rest,
    s = pre ++ w ++ c :: rest /\ length pre = i
    /\ lower w = txt "in " /\ location_char c = true.

(** [s] is empty or begins with a character [ok] rejects. *)
Definition stops (ok : ascii -> bool) (s : str) : bool :=
  match s with
  | c :: _ => negb (ok c)
  | [] => true
  end.

(** The capture of [LOCATION_PATTERN] at the start of [s], if it matches
    there. *)
Definition place_here (s : str) : option str :=
  if (word_prefix true (txt "in ") s
      && (1 <=? run_length location_char (skipn 3 s)))%bool
  then Some (firstn (run_length location_char (skipn 3 s)) (skipn 3 s))
  else None.

(** The capture at the leftmost offset where the pattern matches. *)
Fixpoint find_place (s : str) : option str :=
  match place_here s with
  | Some run => Some run
  | None =>
      match s with
      | [] => None
      | _ :: s' => find_place s'
      end
  end.

(** [w] occurs somewhere in [s]. *)
Definition contains (w : string) (s : str) : Prop :=
  exists pre post, s = pre ++ txt w ++ post.

(** [w] occurs in [s] with no word character on either side of it. *)
Definition contains_word (w : string) (s : str) : Prop :=
  exists pre post,
    s = pre ++ txt w ++ post
    /\ word_at (last_before pre None) = false
    /\ word_at (hd_error post) = false.

(** The two characters of a temperature pattern that begins with the
    degree sign. *)
Definition degrees_of (unit : ascii) : str := [deg; unit].

(** [s] holds the degree sign followed by [unit]. *)
Definition contains_degrees (unit : ascii) (s : str) : Prop :=
  exists pre post, s = pre ++ degrees_of unit ++ post.

(** The tokens of [_TIME_TOKENS] as data: a word, and the ending that
    may follow it. *)
Definition TIME_TABLE : list (string * option string) :=
  [ ("now", None); ("today", None); ("yesterday", None); ("last", None);
    ("this", None); ("next", None); ("week", None); ("month", None);
    ("jan", Some "uary"); ("feb", Some "ruary"); ("mar", Some "ch");
    ("apr", Some "il"); ("may", None); ("jun", Some "e"); ("jul", Some "y");
    ("aug", Some "ust"); ("sep", Some "tember"); ("oct", Some "ober");
    ("nov", Some "ember"); ("dec", Some "ember") ]%string.

Definition token_of (e : string * option string) : regex :=
  match e with
  | (w, None) => wb (word w)
  | (w, Some x) => wb (Seq (word w) (Opt (word x)))
  end.

(** The words a token stands for, the longer one first. *)
Definition variants (e : string * option string) : list str :=
  match e with
  | (w, None) => [txt w]
  | (w, Some x) => [txt w ++ txt x; txt w]
  end.

(** The words [_TIME_RE] removes, in lower case. *)
Definition TIME_WORDS : list str := flat_map variants TIME_TABLE.

Definition is_time_word (w : str) : bool := existsb (str_eqb w) TIME_WORDS.

(** The word characters [s] begins with. *)
Definition leading_word (s : str) : str := firstn (run_length isword s) s.

(** [_TIME_RE] matches at the start of [s], where [pw] tells whether the
    character before is a word character. *)
Definition time_start (pw : bool) (s : str) : bool :=
  (negb pw && is_time_word (lower (leading_word s)))%bool.

(** [_TIME_RE] matches nowhere in [s]. *)
Fixpoint time_free (pw : bool) (s : str) : bool :=
  (negb (time_start pw s)
   && match s with
      | [] => true
      | c :: s' => time_free (isword c) s'
      end)%bool.

End Facts.
Import Facts.

(* ================================================================== *)
(** ** Basic facts about strings and lists *)

Unset Implicit Arguments.

Lemma str_eqb_eq (a b : str) : str_eqb a b = true <-> a = b.
Proof.
  unfold str_eqb. destruct (list_eq_dec ascii_dec a b); split; congruence.
Qed.

Lemma str_eqb_refl (a : str) : str_eqb a a = true.
Proof. now apply str_eqb_eq. Qed.

Lemma str_eqb_neq (a b : str) : str_eqb a b = false <-> a <> b.
Proof.
  unfold str_eqb. destruct (list_eq_dec ascii_dec a b); split; congruence.
Qed.

Lemma or_none_not_empty (loc : str) : or_none loc <> Some [].
Proof. unfold or_none. destruct loc; simpl; discriminate. Qed.

Lemma or_none_some (loc s : str) : or_none loc = Some s -> s = loc /\ s <> [].
Proof.
  unfold or_none.
  destruct loc; simpl; intros H; inversion H; subst; split; auto; discriminate.
Qed.

Lemma subseq_filter_map {A B : Type} (f : A -> B) (p : A -> bool) (l : list A) :
  subseq (map f (filter p l)) (map f l).
Proof.
  induction l as [|x l IH]; simpl.
  - constructor.
  - destruct (p x); simpl; now constructor.
Qed.

(** Leaving entries out of a table keeps its keys distinct. *)
Lemma keys_filter_NoDup (keep : str * list regex -> bool)
    (table : list (str * list regex)) :
  NoDup (map fst table) -> NoDup (map fst (filter keep table)).
Proof.
  induction table as [|kv table IH]; simpl; intros H; [constructor|].
  inversion H as [|? ? Hnot Hrest]; subst.
  destruct (keep kv); simpl; auto.
  constructor; auto.
  intros Hin. apply Hnot.
  apply in_map_iff in Hin. destruct Hin as (y & Hy & Hin).
  apply in_map_iff. exists y. split; auto.
  apply filter_In in Hin. tauto.
Qed.

(* ================================================================== *)
(** ** The metric scan *)

Lemma scan_metrics_fold (table : list (str * list regex)) (low : str)
    (found : list str) :
  fold_left
    (fun found kv =>
       if any_pattern (snd kv) low then found ++ [fst kv] else found)
    table found
  = found ++ map fst (filter (fun kv => any_pattern (snd kv) low) table).
Proof.
  revert found. induction table as [|kv table IH]; intros found; simpl.
  - now rewrite app_nil_r.
  - rewrite IH. destruct (any_pattern (snd kv) low); simpl; auto.
    now rewrite <- app_assoc.
Qed.

Lemma scan_metrics_filter (table : list (str * list regex)) (low : str) :
  scan_metrics table low
  = map fst (filter (fun kv => any_pattern (snd kv) low) table).
Proof. unfold scan_metrics. now rewrite scan_metrics_fold. Qed.

Lemma existsb_str_eqb_In (k : str) (keys : list str) :
  existsb (str_eqb k) keys = true <-> In k keys.
Proof.
  rewrite existsb_exists. split.
  - intros (x & Hin & Heq). apply str_eqb_eq in Heq. now subst.
  - intros Hin. exists k. split; auto. apply str_eqb_refl.
Qed.

Lemma dict_fromkeys_fold (found keys : list str) :
  NoDup (keys ++ found) ->
  fold_left
    (fun keys k => if existsb (str_eqb k) keys then keys else keys ++ [k])
    found keys
  = keys ++ found.
Proof.
  revert keys. induction found as [|k found IH]; intros keys Hnd; simpl.
  - now rewrite app_nil_r.
  - destruct (existsb (str_eqb k) keys) eqn:E.
    + apply existsb_str_eqb_In in E.
      apply NoDup_remove_2 in Hnd. exfalso. apply Hnd.
      apply in_or_app. now left.
    + rewrite IH; rewrite <- app_assoc; simpl; auto.
Qed.

Lemma dict_fromkeys_NoDup (found : list str) :
  NoDup found -> dict_fromkeys found = found.
Proof. intros H. unfold dict_fromkeys. now rewrite dict_fromkeys_fold. Qed.

Lemma lexicon_order_NoDup : NoDup lexicon_order.
Proof.
  unfold lexicon_order. simpl.
  repeat (constructor;
          [simpl; intros H;
           repeat (destruct H as [H|H]; [discriminate H|]); exact H|]).
  constructor.
Qed.

Lemma metrics_filter (text : str) :
  metrics (extract_metrics text)
  = map fst (filter (fun kv => any_pattern (snd kv) (lower text))
                    METRIC_KEYWORDS).
Proof.
  unfold extract_metrics. cbv [metrics].
  rewrite scan_metrics_filter.
  apply dict_fromkeys_NoDup.
  apply keys_filter_NoDup. exact lexicon_order_NoDup.
Qed.

(** C7: for every text the metrics of the extraction hold no identifier
    twice and follow the order in which the lexicon declares them
    (temperature, rainfall, humidity, wind_speed, pressure); a metric is
    listed exactly when one of its patterns is found in the lower-cased
    text, so the order is not the order of the matches: in
    "rain and temperature" rainfall is matched first and listed second. *)
Theorem C7_metrics_nodup_lexicon_order (text : str) :
  lexicon_order
    = [txt "temperature"; txt "rainfall"; txt "humidity";
       txt "wind_speed"; txt "pressure"]
  /\ NoDup (metrics (extract_metrics text))
  /\ subseq (metrics (extract_metrics text)) lexicon_order
  /\ (forall m, In m (metrics (extract_metrics text)) <->
        exists pats, In (m, pats) METRIC_KEYWORDS
                     /\ any_pattern pats (lower text) = true)
  /\ metrics (extract_metrics (txt "rain and temperature"))
     = [txt "temperature"; txt "rainfall"].
Proof.
  split; [reflexivity|].
  rewrite metrics_filter.
  split; [apply keys_filter_NoDup, lexicon_order_NoDup|].
  split; [apply subseq_filter_map|].
  split; [|vm_compute; reflexivity].
  intros m. rewrite in_map_iff. split.
  - intros ([k pats] & Hk & Hin). simpl in Hk. subst k.
    apply filter_In in Hin. exists pats. tauto.
  - intros (pats & Hin & Hany). exists (m, pats). split; auto.
    apply filter_In. split; auto.
Qed.

(* ================================================================== *)
(** ** The sanitizer *)

(** C8: sanitizing an absent location gives absent; a location whose
    cleanup leaves nothing is reported absent, so the sanitizer never
    returns the empty string; "Paris (today)" is sanitized to "Paris". *)
Theorem C8_sanitize_absent_never_empty :
  sanitize_location None = None
  /\ (forall raw, cleanup raw = [] -> sanitize_location (Some raw) = None)
  /\ (forall raw, sanitize_location raw <> Some [])
  /\ sanitize_location (Some (txt "Paris (today)")) = Some (txt "Paris").
Proof.
  split; [reflexivity|].
  split.
  - intros raw H. unfold sanitize_location. rewrite H.
    now destruct (negb (truthy raw)).
  - split; [|vm_compute; reflexivity].
    intros [raw|]; simpl; [|discriminate].
    destruct (negb (truthy raw)); [discriminate|apply or_none_not_empty].
Qed.

Lemma C8_sanitize_witness :
  cleanup (txt "(today)") = []
  /\ sanitize_location (Some (txt "(today)")) = None.
Proof.
  split; [vm_compute; reflexivity|].
  apply (proj1 (proj2 C8_sanitize_absent_never_empty)).
  vm_compute; reflexivity.
Defined.

(* ================================================================== *)
(** ** The metric resolver *)

(** C1, as amended: on a response that is a JSON object, rainfall is the
    [1h] value of the rain object when that value is present and truthy
    (not zero, null, false or empty), else its [3h] value when that one is
    present and truthy, else [0.0]; it is [0.0] when the response has no
    rain object.  A response with rain {"1h": 2.5} gives 2.5 and one with
    rain {"3h": 1.0} gives 1.0. *)
Theorem C1_rainfall_resolution :
  (forall items rain,
      dict_get items (txt "rain") = Some (JDict rain) ->
      json_truthy (rain_field rain "1h") = true ->
      extract_metric_from_owm (txt "rainfall") (JDict items)
      = inr (rain_field rain "1h"))
  /\ (forall items rain,
      dict_get items (txt "rain") = Some (JDict rain) ->
      json_truthy (rain_field rain "1h") = false ->
      json_truthy (rain_field rain "3h") = true ->
      extract_metric_from_owm (txt "rainfall") (JDict items)
      = inr (rain_field rain "3h"))
  /\ (forall items rain,
      dict_get items (txt "rain") = Some (JDict rain) ->
      json_truthy (rain_field rain "1h") = false ->
      json_truthy (rain_field rain "3h") = false ->
      extract_metric_from_owm (txt "rainfall") (JDict items)
      = inr (JFloat 0))
  /\ (forall items,
      (forall rain, dict_get items (txt "rain") <> Some (JDict rain)) ->
      extract_metric_from_owm (txt "rainfall") (JDict items)
      = inr (JFloat 0))
  /\ extract_metric_from_owm (txt "rainfall")
       (JDict [(txt "rain", JDict [(txt "1h", JFloat (5 # 2))])])
     = inr (JFloat (5 # 2))
  /\ extract_metric_from_owm (txt "rainfall")
       (JDict [(txt "rain", JDict [(txt "3h", JFloat 1)])])
     = inr (JFloat 1).
Proof.
  assert (E : forall items,
    extract_metric_from_owm (txt "rainfall") (JDict items)
    = match dict_get items (txt "rain") with
      | Some (JDict rain) =>
          inr (py_or (py_or (rain_field rain "1h") (rain_field rain "3h"))
                     (JFloat 0))
      | _ => inr (JFloat 0)
      end).
  { intros items. unfold extract_metric_from_owm.
    change (str_eqb (txt "rainfall") (txt "temperature")) with false.
    change (str_eqb (txt "rainfall") (txt "humidity")) with false.
    change (str_eqb (txt "rainfall") (txt "pressure")) with false.
    change (str_eqb (txt "rainfall") (txt "wind_speed")) with false.
    change (str_eqb (txt "rainfall") (txt "rainfall")) with true.
    cbv iota. unfold py_get.
    destruct (dict_get items (txt "rain")) as [[]|]; reflexivity. }
  repeat split.
  - intros items rain Hr H1. rewrite E, Hr. unfold py_or. now rewrite H1, H1.
  - intros items rain Hr H1 H3. rewrite E, Hr. unfold py_or.
    now rewrite H1, H3.
  - intros items rain Hr H1 H3. rewrite E, Hr. unfold py_or.
    now rewrite H1, H3.
  - intros items Hno. rewrite E.
    destruct (dict_get items (txt "rain")) as [[]|] eqn:D; try reflexivity.
    now destruct (Hno items0).
Qed.

Lemma C1_rainfall_witness :
  extract_metric_from_owm (txt "rainfall")
    (JDict [(txt "rain", JDict [(txt "1h", JInt 0); (txt "3h", JFloat 1)])])
  = inr (JFloat 1).
Proof.
  apply (proj1 (proj2 C1_rainfall_resolution)
           [(txt "rain", JDict [(txt "1h", JInt 0); (txt "3h", JFloat 1)])]
           [(txt "1h", JInt 0); (txt "3h", JFloat 1)]);
    reflexivity.
Defined.

(** C1 as stated fails: with rain {"1h": 0, "3h": 1.0} the rain object
    has a [1h] value, 0, and the resolver returns the [3h] value 1.0. *)
Lemma C1_rainfall_counterexample :
  dict_get [(txt "1h", JInt 0); (txt "3h", JFloat 1)] (txt "1h")
    = Some (JInt 0)
  /\ extract_metric_from_owm (txt "rainfall")
       (JDict [(txt "rain", JDict [(txt "1h", JInt 0); (txt "3h", JFloat 1)])])
     <> inr (JInt 0).
Proof. split; [reflexivity|vm_compute; discriminate]. Qed.

(* ================================================================== *)
(** ** One extraction *)

(** C5, as amended: from "How much rain in Berlin next week" the metrics
    are ["rainfall"] and no time is found, "next week" not being a time
    word of the extractor. *)
Theorem C5_berlin_extraction :
  metrics (extract_metrics (txt "How much rain in Berlin next week"))
  = [txt "rainfall"]
  /\ time (extract_metrics (txt "How much rain in Berlin next week")) = None.
Proof. split; vm_compute; reflexivity. Qed.

(** C5 as stated fails: the location does not sanitize to "Berlin" and the
    time is not "next week". *)
Lemma C5_berlin_counterexample :
  sanitize_location
    (location (extract_metrics (txt "How much rain in Berlin next week")))
  <> Some (txt "Berlin")
  /\ time (extract_metrics (txt "How much rain in Berlin next week"))
     <> Some (txt "next week").
Proof. split; vm_compute; discriminate. Qed.

(* ================================================================== *)
(** ** The orchestrator *)

Section Orchestrator.

Variable getenv : str -> option str.
Variable requests_get : list request -> request -> str + response.

Lemma attempt_about (metric : str) (api_key : option str) (loc : str)
    (log : netlog) :
  about (fst (attempt requests_get metric api_key loc log)) = loc.
Proof.
  unfold attempt.
  destruct (call_openweathermap_current requests_get loc api_key log)
    as [[e|owm] log'].
  - reflexivity.
  - destruct (extract_metric_from_owm metric owm); reflexivity.
Qed.

Lemma attempts_about (metric : str) (api_key : option str) (locs : list str) :
  forall log,
  Forall2 (fun loc o => about o = loc) locs
          (fst (attempts requests_get metric api_key locs log)).
Proof.
  induction locs as [|loc rest IH]; intros log; simpl.
  - constructor.
  - pose proof (attempt_about metric api_key loc log) as Ha.
    destruct (attempt requests_get metric api_key loc log) as [o log1].
    specialize (IH log1).
    destruct (attempts requests_get metric api_key rest log1) as [os log2].
    simpl in *. now constructor.
Qed.

Lemma attempts_app (metric : str) (api_key : option str) (l1 l2 : list str) :
  forall log,
  attempts requests_get metric api_key (l1 ++ l2) log
  = (fst (attempts requests_get metric api_key l1 log)
       ++ fst (attempts requests_get metric api_key l2
                 (snd (attempts requests_get metric api_key l1 log))),
     snd (attempts requests_get metric api_key l2
            (snd (attempts requests_get metric api_key l1 log)))).
Proof.
  induction l1 as [|loc rest IH]; intros log; simpl.
  - now destruct (attempts requests_get metric api_key l2 log).
  - destruct (attempt requests_get metric api_key loc log) as [o log1].
    rewrite IH.
    destruct (attempts requests_get metric api_key rest log1) as [os log2].
    reflexivity.
Qed.

(** The loop of [api_get_metric] fills its two lists with the outcomes of
    the attempts, results on one side and errors on the other. *)
Lemma loop_attempts (metric : str) (api_key : option str) (locs : list str) :
  forall results errors log,
  fold_left (query_one requests_get metric api_key) locs (results, errors, log)
  = (results ++ lefts (fst (attempts requests_get metric api_key locs log)),
     errors ++ rights (fst (attempts requests_get metric api_key locs log)),
     snd (attempts requests_get metric api_key locs log)).
Proof.
  induction locs as [|loc rest IH]; intros results errors log; simpl.
  - now rewrite !app_nil_r.
  - destruct (attempt requests_get metric api_key loc log) as [[r|e] log1];
      rewrite IH;
      destruct (attempts requests_get metric api_key rest log1) as [os log2];
      simpl; now rewrite <- !app_assoc.
Qed.

Lemma lefts_nil_rights (os : list (MetricQueryResult + MetricQueryError)) :
  lefts os = [] -> map about os = map e_location (rights os).
Proof.
  induction os as [|[r|e] os IH]; simpl; intros H.
  - reflexivity.
  - discriminate.
  - f_equal. now apply IH.
Qed.

Lemma Forall2_about_map (locs : list str)
    (os : list (MetricQueryResult + MetricQueryError)) :
  Forall2 (fun loc o => about o = loc) locs os -> map about os = locs.
Proof. induction 1; simpl; congruence. Qed.

(** What [api_get_metric] gives once its three checks have passed. *)
Lemma api_get_metric_passed (metric location : option str) (log : netlog) :
  preconditions metric location = true ->
  fst (api_get_metric getenv requests_get metric location log)
  = match lefts (outcomes getenv requests_get metric location log),
          rights (outcomes getenv requests_get metric location log) with
    | [], e :: es => HTTPException 502 (Errors (e :: es))
    | results, errors => Returned results errors
    end.
Proof.
  unfold preconditions, outcomes, candidates, metric_of, api_get_metric.
  intros H. apply andb_prop in H. destruct H as [H Hc].
  apply andb_prop in H. destruct H as [Hm Hl].
  rewrite Hm, Hl. cbv [negb].
  destruct (clean_all (split_locations location)) as [|c cs] eqn:Ec;
    [discriminate|].
  rewrite loop_attempts. cbv [app].
  set (os := fst (attempts _ _ _ (c :: cs) log)).
  destruct (lefts os); destruct (rights os); reflexivity.
Qed.

(** What [api_get_metric] gives when one of its three checks fails. *)
Lemma api_get_metric_rejected (metric location : option str) (log : netlog) :
  known_metric (metric_of metric) = false
  \/ missing location = true
  \/ candidates location = [] ->
  exists msg,
    api_get_metric getenv requests_get metric location log
    = (HTTPException 400 (Message msg), log).
Proof.
  unfold missing, candidates, metric_of, api_get_metric.
  intros H.
  destruct (known_metric _) eqn:Em; cbv [negb]; [|eauto].
  destruct (match location with Some l => truthy l | None => false end)
    eqn:El; cbv [negb]; [|eauto].
  destruct H as [H|[H|H]]; try discriminate.
  rewrite H. eauto.
Qed.

End Orchestrator.

(** C2: when a query passes the three checks of the orchestrator, every
    surviving candidate has exactly one outcome, a result or an error
    about that candidate, in the order of the candidates; the results and
    the errors of the answer are these outcomes; and the candidate after
    any others is attempted whatever became of them. *)
Theorem C2_one_outcome_per_candidate
    (getenv : str -> option str)
    (requests_get : list request -> request -> str + response)
    (metric location : option str) (log : netlog) :
  preconditions metric location = true ->
  Forall2 (fun loc o => about o = loc)
          (candidates location)
          (outcomes getenv requests_get metric location log)
  /\ results_of (fst (api_get_metric getenv requests_get metric location log))
     = lefts (outcomes getenv requests_get metric location log)
  /\ errors_of (fst (api_get_metric getenv requests_get metric location log))
     = rights (outcomes getenv requests_get metric location log)
  /\ (forall done loc rest,
        candidates location = done ++ loc :: rest ->
        nth_error (outcomes getenv requests_get metric location log)
                  (length done)
        = Some (fst (attempt requests_get (metric_of metric)
                       (env_api_key getenv) loc
                       (snd (attempts requests_get (metric_of metric)
                               (env_api_key getenv) done log))))).
Proof.
  intros H.
  split; [apply attempts_about|].
  rewrite (api_get_metric_passed getenv requests_get metric location log H).
  split; [|split].
  - destruct (lefts _); destruct (rights _); reflexivity.
  - destruct (lefts _); destruct (rights _); reflexivity.
  - intros done loc rest E. unfold outcomes. rewrite E, attempts_app.
    cbv [fst]. 
    pose proof (attempts_about requests_get (metric_of metric)
                  (env_api_key getenv) done log) as Hlen.
    apply Forall2_length in Hlen.
    destruct (attempts requests_get (metric_of metric) (env_api_key getenv)
                done log) as [os1 log1]. simpl in Hlen |- *.
    destruct (attempt requests_get (metric_of metric) (env_api_key getenv)
                loc log1) as [o log2].
    destruct (attempts requests_get (metric_of metric) (env_api_key getenv)
                rest log2) as [os2 log3]. simpl.
    rewrite Hlen, nth_error_app2, Nat.sub_diag by lia. reflexivity.
Qed.

Lemma C2_one_outcome_witness :
  Forall2 (fun loc o => about o = loc)
          (candidates (Some (txt "Paris and Nowhereville123")))
          (outcomes env_with_key provider_paris (Some (txt "temperature"))
                    (Some (txt "Paris and Nowhereville123")) []).
Proof.
  apply (C2_one_outcome_per_candidate env_with_key provider_paris
           (Some (txt "temperature"))
           (Some (txt "Paris and Nowhereville123")) []).
  vm_compute; reflexivity.
Defined.

(** C3: when a query passes the three checks and, all candidates
    attempted, there is no result and there are errors, the orchestrator
    raises the 502 failure that carries all the errors, one for each
    candidate in order; otherwise it returns the results and the errors
    together. *)
Theorem C3_aggregate_failure
    (getenv : str -> option str)
    (requests_get : list request -> request -> str + response)
    (metric location : option str) (log : netlog) :
  preconditions metric location = true ->
  (lefts (outcomes getenv requests_get metric location log) = [] /\
   rights (outcomes getenv requests_get metric location log) <> [] ->
     fst (api_get_metric getenv requests_get metric location log)
     = HTTPException 502
         (Errors (rights (outcomes getenv requests_get metric location log)))
     /\ map e_location
            (rights (outcomes getenv requests_get metric location log))
        = candidates location)
  /\ (~ (lefts (outcomes getenv requests_get metric location log) = [] /\
         rights (outcomes getenv requests_get metric location log) <> []) ->
     fst (api_get_metric getenv requests_get metric location log)
     = Returned (lefts (outcomes getenv requests_get metric location log))
                (rights (outcomes getenv requests_get metric location log))).
Proof.
  intros H.
  rewrite (api_get_metric_passed getenv requests_get metric location log H).
  pose proof (attempts_about requests_get (metric_of metric)
                (env_api_key getenv) (candidates location) log) as Hab.
  fold (outcomes getenv requests_get metric location log) in Hab.
  apply Forall2_about_map in Hab.
  split.
  - intros [Hl Hr]. rewrite <- Hab, (lefts_nil_rights _ Hl), Hl.
    destruct (rights _); [now destruct Hr|]. split; reflexivity.
  - intros Hn.
    destruct (lefts _) as [|r rs]; [|reflexivity].
    destruct (rights _) as [|e es]; [reflexivity|].
    destruct Hn. split; [reflexivity|discriminate].
Qed.

Lemma C3_aggregate_failure_witness :
  fst (api_get_metric env_with_key network_down (Some (txt "temperature"))
         (Some (txt "Paris and Tokyo")) [])
  = HTTPException 502
      (Errors [Error (txt "Paris") (txt "Connection refused");
               Error (txt "Tokyo") (txt "Connection refused")]).
Proof.
  apply (proj1 (C3_aggregate_failure env_with_key network_down
                  (Some (txt "temperature")) (Some (txt "Paris and Tokyo")) []
                  ltac:(vm_compute; reflexivity))).
  split; [vm_compute; reflexivity|vm_compute; discriminate].
Defined.

(** C4, as amended: a query whose lower-cased metric identifier is not one
    of the five, or whose location is missing or empty, or whose location
    leaves no sanitized candidate, is rejected with a 400 and no request
    is sent to the provider. *)
Theorem C4_rejected_before_any_request
    (getenv : str -> option str)
    (requests_get : list request -> request -> str + response)
    (metric location : option str) (log : netlog) :
  known_metric (metric_of metric) = false
  \/ missing location = true
  \/ candidates location = [] ->
  exists msg,
    api_get_metric getenv requests_get metric location log
    = (HTTPException 400 (Message msg), log).
Proof. apply api_get_metric_rejected. Qed.

Lemma C4_rejected_witness :
  exists msg,
    api_get_metric env_with_key provider_paris (Some (txt "moisture"))
                   (Some (txt "Paris")) []
    = (HTTPException 400 (Message msg), []).
Proof.
  apply (C4_rejected_before_any_request env_with_key provider_paris
           (Some (txt "moisture")) (Some (txt "Paris")) []).
  left. vm_compute; reflexivity.
Defined.

(** C4 as stated fails: "TEMPERATURE" is not one of the five identifiers,
    yet the query is not rejected and a request is sent to the provider. *)
Lemma C4_rejected_counterexample :
  ~ In (txt "TEMPERATURE") lexicon_order
  /\ api_get_metric env_with_key provider_paris (Some (txt "TEMPERATURE"))
                    (Some (txt "Paris")) []
     = (Returned [Result (txt "temperature") (txt "Paris") (JFloat (41 # 2))
                    (txt "metric (see provider)") (txt "openweathermap")]
                 [],
        [Request (txt "https://api.openweathermap.org/data/2.5/weather")
                 (txt "Paris") (txt "k3y") (txt "metric")]).
Proof.
  split.
  - simpl. intros H. repeat (destruct H as [H|H]; [discriminate H|]). exact H.
  - vm_compute. reflexivity.
Qed.

Lemma lower_char_idem (c : ascii) : lower_char (lower_char c) = lower_char c.
Proof. destruct c as [[] [] [] [] [] [] [] []]; vm_compute; reflexivity. Qed.

Lemma lower_idem (s : str) : lower (lower s) = lower s.
Proof.
  unfold lower. rewrite map_map. apply map_ext. apply lower_char_idem.
Qed.

(** C10: the metric parameter is lower-cased before it is looked up, so a
    query with [m] does what the query with [m] lower-cased does: it is
    refused as not supported exactly when [m] lower-cased is not in the
    lexicon; otherwise, its location being given and leaving a candidate,
    it is answered from one attempt per candidate, each made for [m]
    lower-cased.  "TEMPERATURE" is accepted and treated as "temperature":
    asked about Paris, it returns the temperature of Paris under the
    metric "temperature". *)
Theorem C10_metric_case_insensitive
    (getenv : str -> option str)
    (requests_get : list request -> request -> str + response)
    (m : str) (location : option str) (log : netlog) :
  api_get_metric getenv requests_get (Some m) location log
  = api_get_metric getenv requests_get (Some (lower m)) location log
  /\ (known_metric (lower m) = false ->
      api_get_metric getenv requests_get (Some m) location log
      = (HTTPException 400
           (Message (txt "Metric '" ++ lower m ++ txt "' not supported.")),
         log))
  /\ (known_metric (lower m) = true ->
      missing location = false -> candidates location <> [] ->
      fst (api_get_metric getenv requests_get (Some m) location log)
      = answer_of (fst (attempts requests_get (lower m) (env_api_key getenv)
                          (candidates location) log)))
  /\ known_metric (metric_of (Some (txt "TEMPERATURE"))) = true
  /\ metric_of (Some (txt "TEMPERATURE")) = txt "temperature"
  /\ api_get_metric getenv requests_get (Some (txt "TEMPERATURE")) location log
     = api_get_metric getenv requests_get (Some (txt "temperature")) location
         log
  /\ api_get_metric env_with_key provider_paris (Some (txt "TEMPERATURE"))
                    (Some (txt "Paris")) []
     = (Returned [Result (txt "temperature") (txt "Paris") (JFloat (41 # 2))
                    (txt "metric (see provider)") (txt "openweathermap")]
                 [],
        [Request (txt "https://api.openweathermap.org/data/2.5/weather")
                 (txt "Paris") (txt "k3y") (txt "metric")]).
Proof.
  split; [|split; [|split; [|split; [reflexivity|split; [reflexivity|split;
    [reflexivity|vm_compute; reflexivity]]]]]].
  - unfold api_get_metric. now rewrite lower_idem.
  - intros K. unfold api_get_metric. rewrite K. reflexivity.
  - intros K L Cs.
    assert (P : preconditions (Some m) location = true).
    { unfold preconditions, metric_of. unfold missing in L.
      apply negb_false_iff in L. rewrite K, L.
      destruct (candidates location); [now destruct Cs|reflexivity]. }
    rewrite (api_get_metric_passed getenv requests_get _ _ log P).
    reflexivity.
Qed.

Lemma C10_metric_case_witness :
  fst (api_get_metric env_with_key network_down (Some (txt "Humidity"))
         (Some (txt "Oslo; Rome")) [])
  = answer_of (fst (attempts network_down (lower (txt "Humidity"))
                      (env_api_key env_with_key)
                      (candidates (Some (txt "Oslo; Rome"))) [])).
Proof.
  apply (proj1 (proj2 (proj2
           (C10_metric_case_insensitive env_with_key network_down
              (txt "Humidity") (Some (txt "Oslo; Rome")) [])))).
  - vm_compute; reflexivity.
  - vm_compute; reflexivity.
  - vm_compute; discriminate.
Defined.

(* ================================================================== *)
(** ** The matcher *)

Lemma pos_eta (p : pos) : Pos (before p) (after p) (group1 p) = p.
Proof. now destruct p. Qed.

Lemma rep_exec_sound (ok : ascii -> bool) (s : str) :
  forall lo prev o s',
  In (o, s') (rep_exec ok lo prev s) ->
  exists d, s = d ++ s' /\ forallb ok d = true /\ lo <= length d.
Proof.
  induction s as [|c s IH]; intros lo prev o s' H; cbn [rep_exec] in H.
  - destruct (Nat.eqb_spec lo 0) as [->|]; [|contradiction].
    destruct H as [H|[]]. inversion H; subst. exists []. auto.
  - assert (Hstop : In (o, s') (if lo =? 0 then [(prev, c :: s)] else []) ->
              exists d, c :: s = d ++ s' /\ forallb ok d = true
                        /\ lo <= length d).
    { destruct (Nat.eqb_spec lo 0) as [->|]; [|contradiction].
      intros [E|[]]. inversion E; subst. exists []. auto. }
    destruct (ok c) eqn:Oc; [|auto].
    apply in_app_or in H. destruct H as [H|H]; [|auto].
    destruct (IH _ _ _ _ H) as (d & -> & Hd & Hl).
    exists (c :: d). simpl. rewrite Oc, Hd. repeat split; auto. lia.
Qed.

(** A match never moves backwards, and a pattern that is not nullable
    always moves forward: the patterns given to [sub] and [split] never
    take an empty match. *)
Lemma exec_length (ic : bool) (r : regex) :
  forall p q, In q (exec ic r p) ->
  length (after q) <= length (after p)
  /\ (nullable r = false -> length (after q) < length (after p)).
Proof.
  induction r as [|x|cs|r1 IH1 r2 IH2|r1 IH1 r2 IH2|r1 IH1|cs lo|r1 IH1| |];
    intros p q H; cbn [exec nullable] in *.
  - destruct H as [<-|[]]. split; [lia|discriminate].
  - destruct (after p) as [|c s'] eqn:E; [contradiction|].
    destruct (lit_ok ic x c); [|contradiction].
    destruct H as [<-|[]]. cbn [after length]. split; intros; lia.
  - destruct (after p) as [|c s'] eqn:E; [contradiction|].
    destruct (cls_ok ic cs c); [|contradiction].
    destruct H as [<-|[]]. cbn [after length]. split; intros; lia.
  - apply in_flat_map in H. destruct H as (p1 & H1 & H2).
    destruct (IH1 _ _ H1) as [L1 S1]. destruct (IH2 _ _ H2) as [L2 S2].
    split; [lia|]. intros N. apply andb_false_iff in N.
    destruct N as [N|N]; [specialize (S1 N)|specialize (S2 N)]; lia.
  - apply in_app_or in H. intros.
    destruct H as [H|H]; [destruct (IH1 _ _ H) as [L S]
                         |destruct (IH2 _ _ H) as [L S]];
      (split; [exact L|]); intros N; apply orb_false_iff in N;
      destruct N as [N1 N2]; auto.
  - apply in_app_or in H. destruct H as [H|[<-|[]]].
    + destruct (IH1 _ _ H) as [L _]. split; [exact L|discriminate].
    + split; [lia|discriminate].
  - apply in_map_iff in H. destruct H as ([o s'] & <- & H).
    cbn [after fst snd].
    destruct (rep_exec_sound _ _ _ _ _ _ H) as (d & -> & _ & Hl).
    rewrite length_app. split; [lia|].
    intros N. apply Nat.eqb_neq in N. lia.
  - apply in_map_iff in H. destruct H as (q' & <- & H).
    cbn [after]. now apply IH1.
  - destruct (xorb _ _); [|contradiction].
    destruct H as [<-|[]]. split; [lia|discriminate].
  - assert (Hq : q = p).
    { destruct (after p) as [|c [|c' s']]; try contradiction;
        [|destruct (is_code 10 c); [|contradiction]];
        destruct H as [<-|[]]; reflexivity. }
    subst q. split; [lia|discriminate].
Qed.

Lemma match_len_positive (ic : bool) (r : regex) (prev : option ascii)
    (s : str) :
  nullable r = false -> match_len ic r prev s <> Some 0.
Proof.
  intros N. unfold match_len, match_at.
  destruct (exec ic r (Pos prev s None)) as [|q l] eqn:E; cbn [hd_error];
    [discriminate|].
  destruct (exec_length ic r (Pos prev s None) q) as [_ S];
    [rewrite E; now left|].
  specialize (S N). cbn [after] in S. intros H. inversion H. lia.
Qed.

Lemma patterns_not_nullable :
  nullable PARENS = false /\ nullable TRAILING_PUNCT = false
  /\ nullable _TIME_RE = false /\ nullable SPACES2 = false
  /\ nullable SEPARATORS = false.
Proof. repeat split; reflexivity. Qed.

Lemma exec_word (ic : bool) (w : str) :
  forall p,
  exec ic (word_of w) p
  = if word_prefix ic w (after p)
    then [Pos (last_before (firstn (length w) (after p)) (before p))
              (skipn (length w) (after p)) (group1 p)]
    else [].
Proof.
  induction w as [|x w IH]; intros p.
  - simpl. now rewrite pos_eta.
  - cbn [word_of exec word_prefix]. destruct (after p) as [|c s'] eqn:E.
    + reflexivity.
    + destruct (lit_ok ic x c); cbn [flat_map andb].
      * rewrite IH, app_nil_r. reflexivity.
      * reflexivity.
Qed.

Lemma exec_alts (ic : bool) (rs : list regex) (p : pos) :
  rs <> [] ->
  exec ic (alts rs) p = flat_map (fun r => exec ic r p) rs.
Proof.
  induction rs as [|r rs IH]; intros H; [congruence|].
  destruct rs as [|r' rs].
  - simpl. now rewrite app_nil_r.
  - change (alts (r :: r' :: rs)) with (Alt r (alts (r' :: rs))).
    cbn [exec flat_map]. rewrite IH by discriminate. reflexivity.
Qed.

Lemma word_prefix_false_iff (w s : str) :
  word_prefix false w s = true <-> exists post, s = w ++ post.
Proof.
  revert s. induction w as [|x w IH]; intros s; simpl.
  - split; eauto.
  - destruct s as [|c s]; [split; [discriminate|intros [? ?]; discriminate]|].
    rewrite andb_true_iff, IH. unfold lit_ok. rewrite Ascii.eqb_eq.
    split.
    + intros [-> [post ->]]. eauto.
    + intros [post H]. inversion H. eauto.
Qed.

Lemma word_prefix_firstn (w s : str) :
  word_prefix false w s = true -> firstn (length w) s = w.
Proof.
  intros H. apply word_prefix_false_iff in H. destruct H as [post ->].
  now rewrite firstn_app, Nat.sub_diag, firstn_all, app_nil_r.
Qed.

Lemma hd_error_map_filter {A B : Type} (f : A -> B) (p : A -> bool)
    (l : list A) :
  hd_error (map f (filter p l)) = option_map f (find p l).
Proof.
  induction l as [|x l IH]; simpl; auto.
  destruct (p x); simpl; auto.
Qed.

Lemma flat_map_words (ic : bool) (ws : list str) (p : pos) :
  flat_map (fun r => exec ic r p) (map word_of ws)
  = map (fun w => Pos (last_before (firstn (length w) (after p)) (before p))
                      (skipn (length w) (after p)) (group1 p))
        (filter (fun w => word_prefix ic w (after p)) ws).
Proof.
  induction ws as [|w ws IH]; simpl; auto.
  rewrite exec_word, IH.
  destruct (word_prefix ic w (after p)); reflexivity.
Qed.

Lemma consumed_word (prev o : option ascii) (w s : str) (g : option str) :
  word_prefix false w s = true ->
  consumed (Pos prev s None) (Pos o (skipn (length w) s) g) = w.
Proof.
  intros Hp. unfold consumed. cbn [after].
  pose proof (word_prefix_firstn _ _ Hp) as Hf.
  apply word_prefix_false_iff in Hp. destruct Hp as [post ->].
  rewrite skipn_app, Nat.sub_diag, skipn_all. cbn [skipn app].
  rewrite length_app.
  replace (length w + length post - length post) with (length w) by lia.
  exact Hf.
Qed.

(** The match the pattern [months] takes at one position: the first word
    of its list that begins there. *)
Lemma months_match_at (prev : option ascii) (s : str) :
  match_at false months prev s
  = option_map
      (fun w =>
         Pos (last_before (firstn (length w) s) prev) (skipn (length w) s)
             (Some (consumed (Pos prev s None)
                      (Pos (last_before (firstn (length w) s) prev)
                           (skipn (length w) s) None))))
      (find (fun w => word_prefix false w s) vocabulary).
Proof.
  unfold match_at, months. cbn [exec].
  assert (Hw : map word time_words = map word_of vocabulary).
  { unfold vocabulary, word. now rewrite map_map. }
  rewrite Hw, exec_alts by (vm_compute; discriminate).
  rewrite flat_map_words, map_map. cbn [before after group1].
  rewrite hd_error_map_filter. reflexivity.
Qed.

Lemma months_group (prev : option ascii) (s : str) :
  option_map group1 (match_at false months prev s)
  = option_map Some (find (fun w => word_prefix false w s) vocabulary).
Proof.
  rewrite months_match_at.
  destruct (find (fun w => word_prefix false w s) vocabulary) as [w|] eqn:F;
    cbn [option_map group1]; [|reflexivity].
  apply find_some in F. destruct F as [_ Fp].
  now rewrite (consumed_word prev _ w s None Fp).
Qed.

Lemma months_search (s : str) :
  forall prev i,
  match search_from false months prev s i with
  | Some tm => m_group1 tm
  | None => None
  end = first_word vocabulary s.
Proof.
  induction s as [|c s IH]; intros prev i; cbn [search_from first_word].
  - pose proof (months_group prev []) as H0.
    destruct (match_at false months prev []) as [q|];
      destruct (find _ vocabulary) as [w|]; cbn in H0 |- *; congruence.
  - pose proof (months_group prev (c :: s)) as H1.
    destruct (match_at false months prev (c :: s)) as [q|];
      destruct (find _ vocabulary) as [w|]; cbn in H1 |- *; try congruence.
    apply IH.
Qed.

Lemma time_first_word (text : str) :
  time (extract_metrics text) = first_word vocabulary (lower text).
Proof.
  unfold extract_metrics. cbn [time]. unfold search. apply months_search.
Qed.

(* ================================================================== *)
(** ** Time detection *)

Lemma occurs_at_0 (w s : str) :
  occurs_at w s 0 <-> word_prefix false w s = true.
Proof.
  rewrite word_prefix_false_iff. unfold occurs_at. split.
  - intros (pre & post & -> & Hl).
    destruct pre; [|simpl in Hl; discriminate Hl].
    exists post. reflexivity.
  - intros (post & ->). exists [], post. split; reflexivity.
Qed.

Lemma occurs_at_S (w s : str) (c : ascii) (j : nat) :
  occurs_at w (c :: s) (S j) <-> occurs_at w s j.
Proof.
  unfold occurs_at. split.
  - intros (pre & post & E & Hl).
    destruct pre as [|x pre]; [simpl in Hl; discriminate Hl|].
    simpl in E, Hl. inversion E; subst. exists pre, post. split; auto.
  - intros (pre & post & -> & Hl). exists (c :: pre), post.
    split; simpl; auto.
Qed.

Lemma occurs_at_nil_S (w : str) (j : nat) : ~ occurs_at w [] (S j).
Proof.
  intros (pre & post & E & Hl). destruct pre; simpl in *; discriminate.
Qed.

Lemma first_word_none (ws : list str) (s : str) :
  first_word ws s = None <->
  forall w i, In w ws -> ~ occurs_at w s i.
Proof.
  induction s as [|c s IH]; cbn [first_word].
  - destruct (find (fun w => word_prefix false w []) ws) as [w|] eqn:F.
    + split; [discriminate|]. intros H. apply find_some in F.
      destruct F as [Fin Fp]. apply occurs_at_0 in Fp.
      now destruct (H w 0 Fin).
    + split; auto. intros _ w i Hin Ho. destruct i.
      * apply occurs_at_0 in Ho.
        pose proof (find_none _ _ F w Hin) as Hn. simpl in Hn. congruence.
      * now apply occurs_at_nil_S in Ho.
  - destruct (find (fun w => word_prefix false w (c :: s)) ws) as [w|] eqn:F.
    + split; [discriminate|]. intros H. apply find_some in F.
      destruct F as [Fin Fp]. apply occurs_at_0 in Fp.
      now destruct (H w 0 Fin).
    + rewrite IH. split.
      * intros H w i Hin Ho. destruct i.
        -- apply occurs_at_0 in Ho.
           pose proof (find_none _ _ F w Hin) as Hn. simpl in Hn. congruence.
        -- apply occurs_at_S in Ho. now apply (H w i).
      * intros H w i Hin Ho. apply (H w (S i) Hin). now apply occurs_at_S.
Qed.

Lemma first_word_some (ws : list str) (s : str) (w : str) :
  first_word ws s = Some w ->
  In w ws /\
  exists i, occurs_at w s i /\
            forall w' j, In w' ws -> occurs_at w' s j -> i <= j.
Proof.
  induction s as [|c s IH]; cbn [first_word].
  - destruct (find (fun w => word_prefix false w []) ws) as [w0|] eqn:F;
      [|discriminate].
    intros E. inversion E; subst w0. apply find_some in F.
    destruct F as [Fin Fp]. split; auto. exists 0. split.
    + now apply occurs_at_0.
    + intros. lia.
  - destruct (find (fun w => word_prefix false w (c :: s)) ws) as [w0|] eqn:F.
    + intros E. inversion E; subst w0. apply find_some in F.
      destruct F as [Fin Fp]. split; auto. exists 0. split.
      * now apply occurs_at_0.
      * intros. lia.
    + intros E. destruct (IH E) as (Hin & i & Ho & Hmin).
      split; auto. exists (S i). split.
      * now apply occurs_at_S.
      * intros w' j Hin' Ho'. destruct j.
        -- apply occurs_at_0 in Ho'.
           pose proof (find_none _ _ F w' Hin') as Hn. simpl in Hn.
           congruence.
        -- apply occurs_at_S in Ho'. specialize (Hmin w' j Hin' Ho'). lia.
Qed.

Lemma word_prefix_both (w w' s : str) :
  word_prefix false w s = true -> word_prefix false w' s = true ->
  word_prefix false w w' = true \/ word_prefix false w' w = true.
Proof.
  revert w' s. induction w as [|x w IH]; intros w' s; [now left|].
  destruct w' as [|x' w']; [now right|].
  destruct s as [|c s]; [discriminate|].
  cbn [word_prefix]. rewrite !andb_true_iff. unfold lit_ok.
  rewrite !Ascii.eqb_eq.
  intros [-> H1] [-> H2]. destruct (IH w' s H1 H2); [left|right]; auto.
Qed.

(** No time word begins another one. *)
Lemma vocabulary_prefix_free (w w' : str) :
  In w vocabulary -> In w' vocabulary ->
  word_prefix false w w' = true -> w = w'.
Proof.
  assert (H : forallb (fun w => forallb (fun w' =>
               implb (word_prefix false w w') (str_eqb w w')) vocabulary)
               vocabulary = true) by (vm_compute; reflexivity).
  intros Hw Hw' Hp.
  rewrite forallb_forall in H. specialize (H w Hw).
  rewrite forallb_forall in H. specialize (H w' Hw').
  rewrite Hp in H. now apply str_eqb_eq.
Qed.

Lemma occurs_at_same_offset (w w' s : str) (i : nat) :
  In w vocabulary -> In w' vocabulary ->
  occurs_at w s i -> occurs_at w' s i -> w = w'.
Proof.
  intros Hw Hw'. revert s. induction i as [|i IH]; intros s H1 H2.
  - apply occurs_at_0 in H1. apply occurs_at_0 in H2.
    destruct (word_prefix_both _ _ _ H1 H2) as [H|H].
    + now apply vocabulary_prefix_free.
    + symmetry. now apply vocabulary_prefix_free.
  - destruct s as [|c s]; [now apply occurs_at_nil_S in H1|].
    apply occurs_at_S in H1. apply occurs_at_S in H2. eauto.
Qed.

(** C6, as amended: the time is looked for in the lower-cased text among
    the twelve month names written in full (abbreviations are not
    looked for) and today, now, yesterday, "last week", "this week"; the
    time is the word that occurs at the leftmost offset where one of them
    occurs, and it is absent exactly when none occurs. *)
Theorem C6_time_detection (text : str) :
  vocabulary
    = map txt [ "january"; "february"; "march"; "april"; "may"; "june";
                "july"; "august"; "september"; "october"; "november";
                "december"; "today"; "now"; "yesterday"; "last week";
                "this week" ]%string
  /\ (time (extract_metrics text) = None <->
      forall w i, In w vocabulary -> ~ occurs_at w (lower text) i)
  /\ (forall w,
        time (extract_metrics text) = Some w <->
        In w vocabulary /\
        exists i, occurs_at w (lower text) i /\
                  forall w' j, In w' vocabulary ->
                               occurs_at w' (lower text) j -> i <= j).
Proof.
  split; [reflexivity|].
  rewrite time_first_word.
  split; [apply first_word_none|].
  intros w. split; [apply first_word_some|].
  intros (Hin & i & Ho & Hmin).
  destruct (first_word vocabulary (lower text)) as [w0|] eqn:E.
  - destruct (first_word_some _ _ _ E) as (Hin0 & i0 & Ho0 & Hmin0).
    pose proof (Hmin w0 i0 Hin0 Ho0) as L1.
    pose proof (Hmin0 w i Hin Ho) as L2.
    assert (i = i0) by lia. subst i0.
    f_equal. now apply (occurs_at_same_offset w0 w (lower text) i).
  - exfalso. apply (proj1 (first_word_none _ _) E w i Hin Ho).
Qed.

(** C6 as stated fails: "jan", the standard abbreviation of a month name,
    occurs in the lower-cased text and no time is detected. *)
Lemma C6_time_detection_counterexample :
  occurs_at (txt "jan") (lower (txt "Rain in Oslo in Jan")) 16
  /\ time (extract_metrics (txt "Rain in Oslo in Jan")) = None.
Proof.
  split; [|vm_compute; reflexivity].
  exists (txt "rain in oslo in "), []. split; reflexivity.
Qed.

(* ================================================================== *)
(** ** Trimming *)

Lemma lstrip_by_decomp (p : ascii -> bool) (s : str) :
  exists d, s = d ++ lstrip_by p s /\ forallb p d = true.
Proof.
  induction s as [|c s (d & E & Hd)]; simpl.
  - exists []. split; reflexivity.
  - destruct (p c) eqn:Pc.
    + exists (c :: d). simpl. rewrite Pc, Hd.
      split; [f_equal; exact E|reflexivity].
    + exists []. split; reflexivity.
Qed.

Lemma lstrip_by_head (p : ascii -> bool) (s : str) :
  match lstrip_by p s with
  | c :: _ => p c = false
  | [] => True
  end.
Proof.
  induction s as [|c s IH]; simpl; auto.
  destruct (p c) eqn:Pc; auto.
Qed.

Lemma lstrip_by_fixed (p : ascii -> bool) (s : str) :
  match s with c :: _ => p c = false | [] => True end ->
  lstrip_by p s = s.
Proof. destruct s as [|c s]; simpl; auto. now intros ->. Qed.

Lemma rstrip_by_decomp (p : ascii -> bool) (s : str) :
  exists d, s = rstrip_by p s ++ d /\ forallb p d = true.
Proof.
  unfold rstrip_by.
  destruct (lstrip_by_decomp p (rev s)) as (d & E & Hd).
  exists (rev d). split.
  - apply (f_equal (@rev ascii)) in E.
    rewrite rev_involutive, rev_app_distr in E. exact E.
  - rewrite forallb_forall in *. intros x Hx. apply Hd. now apply in_rev.
Qed.

Lemma rstrip_by_fixed (p : ascii -> bool) (s : str) :
  match rev s with c :: _ => p c = false | [] => True end ->
  rstrip_by p s = s.
Proof.
  intros H. unfold rstrip_by. rewrite lstrip_by_fixed by exact H.
  apply rev_involutive.
Qed.

(** A trimmed string is left as it is by trimming. *)
Lemma strip_by_idem (p : ascii -> bool) (s : str) :
  strip_by p (strip_by p s) = strip_by p s.
Proof.
  unfold strip_by.
  set (t := lstrip_by p s).
  assert (Ht : match t with c :: _ => p c = false | [] => True end)
    by apply lstrip_by_head.
  set (u := rstrip_by p t).
  assert (Hu : match rev u with c :: _ => p c = false | [] => True end).
  { unfold u, rstrip_by. rewrite rev_involutive. apply lstrip_by_head. }
  assert (Hh : match u with c :: _ => p c = false | [] => True end).
  { destruct (rstrip_by_decomp p t) as (d & E & _). fold u in E.
    destruct u as [|c u']; auto. rewrite E in Ht. exact Ht. }
  rewrite (lstrip_by_fixed p u Hh). now apply rstrip_by_fixed.
Qed.

Lemma strip_idem (s : str) : strip (strip s) = strip s.
Proof. apply strip_by_idem. Qed.

(* ================================================================== *)
(** ** Repetition and literal runs under [re.IGNORECASE] *)

Lemma rep_exec_complete (ok : ascii -> bool) (d t : str) :
  forall lo prev,
  forallb ok d = true -> lo <= length d ->
  exists o, In (o, t) (rep_exec ok lo prev (d ++ t)).
Proof.
  induction d as [|c d IH]; intros lo prev Hd Hl.
  - simpl in Hl. assert (lo = 0) by lia. subst lo. exists prev.
    cbn [app]. destruct t as [|c t]; cbn [rep_exec Nat.eqb].
    + now left.
    + destruct (ok c); [apply in_or_app; right|]; now left.
  - simpl in Hd. apply andb_prop in Hd. destruct Hd as [Oc Hd].
    assert (Hl' : Nat.pred lo <= length d) by (simpl in Hl; lia).
    destruct (IH (Nat.pred lo) (Some c) Hd Hl') as (o & Hin).
    exists o. cbn [app rep_exec]. rewrite Oc. apply in_or_app. now left.
Qed.

Lemma exec_rep_sound (ic : bool) (cs : cset) (lo : nat) (p q : pos) :
  In q (exec ic (Rep cs lo) p) ->
  exists d, after p = d ++ after q
            /\ forallb (cls_ok ic cs) d = true /\ lo <= length d.
Proof.
  cbn [exec]. rewrite in_map_iff. intros ([o s'] & <- & Hin).
  cbn [after fst snd]. eapply rep_exec_sound; eauto.
Qed.

Lemma exec_rep_complete (ic : bool) (cs : cset) (lo : nat) (p : pos)
    (d t : str) :
  after p = d ++ t -> forallb (cls_ok ic cs) d = true -> lo <= length d ->
  exists q, In q (exec ic (Rep cs lo) p) /\ after q = t.
Proof.
  intros E Hd Hl. cbn [exec]. rewrite E.
  destruct (@rep_exec_complete (cls_ok ic cs) d t lo (before p) Hd Hl)
    as (o & Hin).
  exists (Pos o t (group1 p)). split; auto.
  apply in_map_iff. exists (o, t). split; auto.
Qed.

Lemma word_prefix_true_iff (w s : str) :
  word_prefix true w s = true <->
  exists d post, s = d ++ post /\ lower d = lower w.
Proof.
  revert s. induction w as [|x w IH]; intros s; cbn [word_prefix].
  - split; auto. intros _. exists [], s. split; reflexivity.
  - destruct s as [|c s].
    + split; [discriminate|]. intros (d & post & E & Hl).
      destruct d; [discriminate Hl|discriminate E].
    + rewrite andb_true_iff, IH. unfold lit_ok. rewrite Ascii.eqb_eq. split.
      * intros [Hx (d & post & -> & Hl)]. exists (c :: d), post.
        split; auto. simpl. congruence.
      * intros (d & post & E & Hl). destruct d as [|c' d]; [discriminate Hl|].
        simpl in E, Hl. inversion E; inversion Hl; subst.
        split; auto. exists d, post. split; auto.
Qed.

Lemma exec_word_sound (w : str) (p q : pos) :
  In q (exec true (word_of w) p) ->
  exists d, after p = d ++ after q /\ lower d = lower w.
Proof.
  rewrite exec_word. destruct (word_prefix true w (after p)) eqn:E;
    [|contradiction].
  intros [<-|[]]. cbn [after].
  apply word_prefix_true_iff in E. destruct E as (d & post & E & Hl).
  exists d. split; auto. rewrite E at 1. f_equal.
  assert (length d = length w).
  { apply (f_equal (@length ascii)) in Hl. unfold lower in Hl.
    now rewrite !length_map in Hl. }
  rewrite E, <- H, skipn_app, Nat.sub_diag, skipn_all. reflexivity.
Qed.

Lemma exec_word_complete (w d t : str) (p : pos) :
  after p = d ++ t -> lower d = lower w ->
  exists q, In q (exec true (word_of w) p) /\ after q = t.
Proof.
  intros E Hl. rewrite exec_word.
  assert (Hp : word_prefix true w (after p) = true).
  { apply word_prefix_true_iff. eauto. }
  rewrite Hp. eexists. split; [now left|]. cbn [after].
  assert (length d = length w).
  { apply (f_equal (@length ascii)) in Hl. unfold lower in Hl.
    now rewrite !length_map in Hl. }
  rewrite E, <- H, skipn_app, Nat.sub_diag, skipn_all. reflexivity.
Qed.

Lemma cls_ok_space (c : ascii) : cls_ok true [Space] c = isspace c.
Proof. destruct c as [[] [] [] [] [] [] [] []]; vm_compute; reflexivity. Qed.

Lemma forallb_cls_ok_space (d : str) :
  forallb (cls_ok true [Space]) d = forallb isspace d.
Proof. induction d; simpl; auto. now rewrite cls_ok_space, IHd. Qed.

Lemma lower_char_punct (x c : ascii) :
  In x (txt ",;/|") -> lower_char c = lower_char x -> c = x.
Proof.
  intros H E.
  repeat (destruct H as [<-|H];
          [destruct c as [[] [] [] [] [] [] [] []];
           vm_compute in E; first [reflexivity|discriminate E]|]).
  destruct H.
Qed.

(* ================================================================== *)
(** ** Splitting a subject where a pattern matches *)

Section Splitting.

Variable ic : bool.
Variable r : regex.
(** The texts the pattern spans. *)
Variable Sep : str -> Prop.

Hypothesis r_sound : forall prev s q,
  In q (exec ic r (Pos prev s None)) -> exists d, s = d ++ after q /\ Sep d.
Hypothesis r_complete : forall prev d t,
  Sep d -> exec ic r (Pos prev (d ++ t) None) <> [].
Hypothesis r_progress : ~ Sep [].

Lemma match_len_cases (prev : option ascii) (s : str) :
  (exists n d rest, match_len ic r prev s = Some (S n)
                    /\ s = d ++ rest /\ length d = S n /\ Sep d)
  \/ ((forall n, match_len ic r prev s <> Some (S n))
      /\ forall d rest, s = d ++ rest -> ~ Sep d).
Proof.
  unfold match_len, match_at.
  destruct (exec ic r (Pos prev s None)) as [|q l] eqn:E; cbn [hd_error].
  - right. split; [discriminate|].
    intros d rest -> Hd. now apply (r_complete prev d rest Hd).
  - left. destruct (r_sound prev s q) as (d & Es & Hd);
      [rewrite E; now left|].
    destruct d as [|c d]; [now destruct r_progress|].
    exists (length d), (c :: d), (after q). repeat split; auto.
    rewrite Es at 1. rewrite length_app. f_equal. cbn [length]. lia.
Qed.

Lemma split_go_shape (s : str) :
  forall prev skip, skip <= length s ->
  exists seps,
    length (split_go ic r prev s skip) = S (length seps)
    /\ skipn skip s = join (split_go ic r prev s skip) seps
    /\ Forall Sep seps.
Proof.
  induction s as [|c s IH]; intros prev skip Hs.
  - simpl in Hs. assert (skip = 0) by lia. subst. exists []. simpl. auto.
  - destruct skip as [|n]; cbn [split_go skipn].
    + destruct (match_len_cases prev (c :: s))
        as [(n & d & rest & -> & E & Hl & Hd)|[Hno _]].
      * assert (Hn : n <= length s).
        { apply (f_equal (@length ascii)) in E. rewrite length_app in E.
          simpl in E. lia. }
        destruct (IH (Some c) n Hn) as (seps & L & J & F).
        exists (d :: seps). split; [simpl; lia|]. split; [|now constructor].
        cbn [join app]. rewrite <- J.
        assert (Hd' : d = firstn (S n) (c :: s)).
        { rewrite E, <- Hl, firstn_app, Nat.sub_diag, firstn_all.
          cbn [firstn]. now rewrite app_nil_r. }
        rewrite Hd'. change (skipn n s) with (skipn (S n) (c :: s)).
        symmetry. apply firstn_skipn.
      * destruct (IH (Some c) 0 (Nat.le_0_l _)) as (seps & L & J & F).
        assert (Hpush : split_go ic r prev (c :: s) 0
                        = push c (split_go ic r (Some c) s 0)).
        { cbn [split_go].
          destruct (match_len ic r prev (c :: s)) as [[|n]|] eqn:M; auto.
          now destruct (Hno n). }
        cbn [split_go] in Hpush. rewrite Hpush.
        destruct (split_go ic r (Some c) s 0) as [|seg segs] eqn:G;
          [discriminate L|].
        exists seps. cbn [push]. split; [exact L|]. split; [|exact F].
        cbn [skipn] in J.
        destruct seps; cbn [join] in J |- *; rewrite J; reflexivity.
    + apply IH. simpl in Hs. lia.
Qed.

Lemma join_head (seg : str) (segs seps : list str) :
  exists tail, join (seg :: segs) seps = seg ++ tail.
Proof.
  destruct seps as [|d seps]; cbn [join].
  - exists []. now rewrite app_nil_r.
  - eauto.
Qed.

Lemma split_go_clean (s : str) :
  forall prev skip, skip <= length s ->
  forall seg pre d post,
    In seg (split_go ic r prev s skip) -> seg = pre ++ d ++ post -> ~ Sep d.
Proof.
  induction s as [|c s IH]; intros prev skip Hs seg pre d post Hin E Hd.
  - cbn [split_go] in Hin. destruct Hin as [<-|[]].
    destruct pre; [|discriminate E]. destruct d; [|discriminate E].
    now apply r_progress.
  - destruct skip as [|n]; cbn [split_go] in Hin.
    + destruct (match_len_cases prev (c :: s))
        as [(n & d0 & rest & M & E0 & Hl & Hd0)|[Hno Hfree]].
      * rewrite M in Hin. destruct Hin as [<-|Hin].
        -- destruct pre; [|discriminate E]. destruct d; [|discriminate E].
           now apply r_progress.
        -- assert (Hn : n <= length s).
           { apply (f_equal (@length ascii)) in E0. rewrite length_app in E0.
             simpl in E0. lia. }
           exact (IH (Some c) n Hn seg pre d post Hin E Hd).
      * assert (Hpush : In seg (push c (split_go ic r (Some c) s 0))).
        { destruct (match_len ic r prev (c :: s)) as [[|n]|] eqn:M; auto.
          now destruct (Hno n). }
        destruct (split_go_shape s (Some c) 0 (Nat.le_0_l _))
          as (seps & L & J & _).
        destruct (split_go ic r (Some c) s 0) as [|seg0 segs] eqn:G;
          [discriminate L|].
        cbn [push] in Hpush. destruct Hpush as [<-|Hin'].
        -- destruct pre as [|x pre].
           ++ cbn [app] in E.
              destruct (join_head seg0 segs seps) as (tail & Jh).
              cbn [skipn] in J. rewrite Jh in J.
              apply (Hfree d (post ++ tail)); auto.
              rewrite J, app_comm_cons, E, <- app_assoc. reflexivity.
           ++ cbn [app] in E. inversion E; subst x.
              apply (IH (Some c) 0 (Nat.le_0_l _) seg0 pre d post); auto.
              rewrite G. now left.
        -- apply (IH (Some c) 0 (Nat.le_0_l _) seg pre d post); auto.
           rewrite G. now right.
    + apply (IH (Some c) n ltac:(simpl in Hs; lia) seg pre d post); auto.
Qed.

End Splitting.

(* ================================================================== *)
(** ** The location separators *)

Lemma separator_not_empty : ~ separator [].
Proof.
  intros H. inversion H as [ws1 w ws2 H1 H2 H3 H4 H5 E|].
  destruct ws1; [congruence|discriminate E].
Qed.

Lemma lower_one (x : ascii) (d : str) :
  In x (txt ",;/|") -> lower d = lower [x] -> d = [x].
Proof.
  intros Hx E. destruct d as [|c [|c' d]]; try discriminate E.
  simpl in E. inversion E as [Hc]. f_equal. now apply lower_char_punct.
Qed.

Lemma exec_seq_in (ic : bool) (r1 r2 : regex) (p q : pos) :
  In q (exec ic (Seq r1 r2) p) <->
  exists p1, In p1 (exec ic r1 p) /\ In q (exec ic r2 p1).
Proof. cbn [exec]. apply in_flat_map. Qed.

Lemma and_separator_sound (p q : pos) :
  In q (exec true AND_SEPARATOR p) ->
  exists d, after p = d ++ after q /\ separator d.
Proof.
  unfold AND_SEPARATOR. cbn [seqs]. intros H.
  apply exec_seq_in in H. destruct H as (p1 & H1 & H).
  apply exec_seq_in in H. destruct H as (p2 & H2 & H).
  apply exec_seq_in in H. destruct H as (p3 & H3 & H).
  cbn [exec] in H. destruct H as [<-|[]].
  apply exec_rep_sound in H1. destruct H1 as (ws1 & E1 & S1 & L1).
  apply exec_word_sound in H2. destruct H2 as (w & E2 & Lw).
  apply exec_rep_sound in H3. destruct H3 as (ws2 & E3 & S2 & L2).
  exists (ws1 ++ w ++ ws2). split.
  - rewrite E1, E2, E3, <- !app_assoc. reflexivity.
  - rewrite forallb_cls_ok_space in S1, S2.
    constructor; auto.
    + destruct ws1; [simpl in L1; lia|discriminate].
    + destruct ws2; [simpl in L2; lia|discriminate].
Qed.

Lemma and_separator_complete (p : pos) (ws1 w ws2 t : str) :
  after p = (ws1 ++ w ++ ws2) ++ t ->
  ws1 <> [] -> ws2 <> [] ->
  forallb isspace ws1 = true -> forallb isspace ws2 = true ->
  lower w = txt "and" ->
  exists q, In q (exec true AND_SEPARATOR p).
Proof.
  intros E N1 N2 S1 S2 Lw. rewrite <- !app_assoc in E.
  rewrite <- forallb_cls_ok_space in S1, S2.
  assert (L1 : 1 <= length ws1) by (destruct ws1; [congruence|simpl; lia]).
  assert (L2 : 1 <= length ws2) by (destruct ws2; [congruence|simpl; lia]).
  destruct (exec_rep_complete true [Space] 1 p ws1 _ E S1 L1)
    as (p1 & H1 & E1).
  destruct (exec_word_complete (txt "and") w _ p1 E1 Lw) as (p2 & H2 & E2).
  destruct (exec_rep_complete true [Space] 1 p2 ws2 _ E2 S2 L2)
    as (p3 & H3 & E3).
  exists p3. unfold AND_SEPARATOR. cbn [seqs].
  apply exec_seq_in. exists p1. split; auto.
  apply exec_seq_in. exists p2. split; auto.
  apply exec_seq_in. exists p3. split; auto. now left.
Qed.

Lemma separators_exec (p : pos) :
  exec true SEPARATORS p
  = exec true AND_SEPARATOR p ++ exec true (word ",") p
    ++ exec true (word ";") p ++ exec true (word "/") p
    ++ exec true (word "|") p.
Proof.
  unfold SEPARATORS. rewrite exec_alts by discriminate.
  cbn [flat_map]. now rewrite app_nil_r.
Qed.

Lemma punct_sound (x : ascii) (p q : pos) :
  In x (txt ",;/|") ->
  In q (exec true (word_of [x]) p) ->
  exists d, after p = d ++ after q /\ separator d.
Proof.
  intros Hx H. apply exec_word_sound in H. destruct H as (d & E & L).
  apply (lower_one x d Hx) in L. subst d.
  exists [x]. split; auto. now apply sep_char.
Qed.

Lemma separators_sound (prev : option ascii) (s : str) (q : pos) :
  In q (exec true SEPARATORS (Pos prev s None)) ->
  exists d, s = d ++ after q /\ separator d.
Proof.
  rewrite separators_exec. intros H.
  change s with (after (Pos prev s None)).
  apply in_app_or in H. destruct H as [H|H];
    [now apply and_separator_sound|].
  apply in_app_or in H. destruct H as [H|H];
    [apply (punct_sound ","%char); auto; simpl; tauto|].
  apply in_app_or in H. destruct H as [H|H];
    [apply (punct_sound ";"%char); auto; simpl; tauto|].
  apply in_app_or in H. destruct H as [H|H];
    [apply (punct_sound "/"%char); auto; simpl; tauto|].
  apply (punct_sound "|"%char); auto; simpl; tauto.
Qed.

Lemma punct_complete (x : ascii) (p : pos) (t : str) :
  after p = [x] ++ t -> exec true (word_of [x]) p <> [].
Proof.
  intros E.
  destruct (exec_word_complete [x] [x] t p E eq_refl) as (q & H & _).
  intros N. rewrite N in H. exact H.
Qed.

Lemma separators_complete (prev : option ascii) (d t : str) :
  separator d -> exec true SEPARATORS (Pos prev (d ++ t) None) <> [].
Proof.
  intros Hd. rewrite separators_exec.
  set (p := Pos prev (d ++ t) None).
  assert (Ep : after p = d ++ t) by reflexivity.
  clearbody p.
  destruct Hd as [ws1 w ws2 N1 N2 S1 S2 Lw|c Hc].
  - destruct (and_separator_complete p ws1 w ws2 t Ep N1 N2 S1 S2 Lw)
      as (q & Hq).
    intros N. apply app_eq_nil in N. destruct N as [N _].
    rewrite N in Hq. exact Hq.
  - intros N.
    apply app_eq_nil in N. destruct N as [_ N].
    apply app_eq_nil in N. destruct N as [N1 N].
    apply app_eq_nil in N. destruct N as [N2 N].
    apply app_eq_nil in N. destruct N as [N3 N4].
    simpl in Hc.
    destruct Hc as [<-|[<-|[<-|[<-|[]]]]];
      [ apply (punct_complete _ p t Ep N1)
      | apply (punct_complete _ p t Ep N2)
      | apply (punct_complete _ p t Ep N3)
      | apply (punct_complete _ p t Ep N4) ].
Qed.

Lemma split_locations_some (raw : str) :
  split_locations (Some raw)
  = map strip (filter nonblank (split true SEPARATORS raw)).
Proof.
  unfold split_locations. destruct raw as [|c raw]; reflexivity.
Qed.

Lemma C6_time_detection_witness :
  In (txt "today") vocabulary
  /\ exists i,
       occurs_at (txt "today")
                 (lower (txt "Rain in Paris TODAY or yesterday")) i
       /\ forall w' j,
            In w' vocabulary ->
            occurs_at w' (lower (txt "Rain in Paris TODAY or yesterday")) j ->
            i <= j.
Proof.
  apply (proj1 (proj2 (proj2
           (C6_time_detection (txt "Rain in Paris TODAY or yesterday")))
           (txt "today"))).
  vm_compute; reflexivity.
Defined.

(* ================================================================== *)
(** ** Further properties: the metric resolver *)

Lemma py_get_dict (items : list (str * json)) (key : str) (default : json) :
  py_get (JDict items) key default
  = inr (match dict_get items key with Some x => x | None => default end).
Proof. reflexivity. Qed.

Lemma py_get_not_dict (v : json) (key : str) (default : json) :
  is_dict v = false ->
  py_get v key default
  = inl (AttributeError
           (txt "'" ++ type_name v ++ txt "' object has no attribute 'get'")).
Proof. destruct v; simpl; intros H; try reflexivity; discriminate H. Qed.

Lemma field_path_resolver (metric : str) (outer inner : string)
    (owm_json : json) :
  field_path metric = Some (outer, inner) ->
  extract_metric_from_owm metric owm_json = lookup2 owm_json outer inner.
Proof.
  unfold field_path, extract_metric_from_owm.
  destruct (str_eqb metric (txt "temperature")); [now intros [= <- <-]|].
  destruct (str_eqb metric (txt "humidity")); [now intros [= <- <-]|].
  destruct (str_eqb metric (txt "pressure")); [now intros [= <- <-]|].
  destruct (str_eqb metric (txt "wind_speed")); [now intros [= <- <-]|].
  discriminate.
Qed.

(** X1: temperature, humidity, pressure and wind_speed are read through
    two keys of an object response.  A missing outer key or a missing
    inner key gives null; an outer value that is not an object (null
    included) raises [AttributeError]. *)
Theorem X1_field_metric_lookup (metric : str) (outer inner : string)
    (items : list (str * json)) :
  field_path metric = Some (outer, inner) ->
  (dict_get items (txt outer) = None ->
     extract_metric_from_owm metric (JDict items) = inr JNull)
  /\ (forall o, dict_get items (txt outer) = Some (JDict o) ->
        extract_metric_from_owm metric (JDict items)
        = inr (match dict_get o (txt inner) with
               | Some x => x
               | None => JNull
               end))
  /\ (forall v, dict_get items (txt outer) = Some v -> is_dict v = false ->
        exists msg,
          extract_metric_from_owm metric (JDict items)
          = inl (AttributeError msg)).
Proof.
  intros Hp. rewrite (field_path_resolver _ _ _ _ Hp).
  unfold lookup2. rewrite py_get_dict.
  split; [|split].
  - intros ->. reflexivity.
  - intros o ->. reflexivity.
  - intros v -> Hv. rewrite (py_get_not_dict _ _ _ Hv). eauto.
Qed.

Lemma X1_field_metric_witness :
  extract_metric_from_owm (txt "wind_speed")
    (JDict [(txt "main", JDict [(txt "temp", JInt 3)])])
  = inr JNull.
Proof.
  apply (proj1 (X1_field_metric_lookup (txt "wind_speed") "wind" "speed"
                  [(txt "main", JDict [(txt "temp", JInt 3)])] eq_refl)).
  reflexivity.
Defined.

Lemma known_metric_cases (metric : str) :
  known_metric metric = true ->
  field_path metric <> None \/ metric = txt "rainfall".
Proof.
  unfold known_metric, field_path. cbn [existsb METRIC_KEYWORDS fst].
  rewrite !orb_true_iff, !str_eqb_eq.
  intros [H|[H|[H|[H|[H|H]]]]]; subst; try discriminate;
    first [now right | left; vm_compute; discriminate].
Qed.

Lemma unknown_metric_cases (metric : str) :
  known_metric metric = false ->
  field_path metric = None /\ str_eqb metric (txt "rainfall") = false.
Proof.
  unfold known_metric, field_path. cbn [existsb METRIC_KEYWORDS fst].
  rewrite !orb_false_iff. intros (H1 & H2 & H3 & H4 & H5 & _).
  rewrite str_eqb_neq in H1, H2, H3, H4, H5.
  assert (E : forall a b : str, a <> b -> str_eqb b a = false).
  { intros a b N. apply str_eqb_neq. congruence. }
  rewrite (E _ _ H1), (E _ _ H3), (E _ _ H5), (E _ _ H4), (E _ _ H2).
  split; reflexivity.
Qed.

(** X2: the resolver knows exactly the metrics of the lexicon.  For an
    identifier outside [METRIC_KEYWORDS] it returns null whatever the
    payload; for one inside, a payload that is not an object raises
    [AttributeError]. *)
Theorem X2_resolver_agrees_with_lexicon (metric : str) (owm_json : json) :
  (known_metric metric = false ->
     extract_metric_from_owm metric owm_json = inr JNull)
  /\ (known_metric metric = true -> is_dict owm_json = false ->
        exists msg,
          extract_metric_from_owm metric owm_json = inl (AttributeError msg)).
Proof.
  split.
  - intros H. destruct (unknown_metric_cases _ H) as [Hf Hr].
    unfold field_path in Hf. unfold extract_metric_from_owm.
    destruct (str_eqb metric (txt "temperature")); [discriminate|].
    destruct (str_eqb metric (txt "humidity")); [discriminate|].
    destruct (str_eqb metric (txt "pressure")); [discriminate|].
    destruct (str_eqb metric (txt "wind_speed")); [discriminate|].
    now rewrite Hr.
  - intros H Hd. destruct (known_metric_cases _ H) as [Hf| ->].
    + destruct (field_path metric) as [[outer inner]|] eqn:E; [|congruence].
      rewrite (field_path_resolver _ _ _ _ E). unfold lookup2.
      rewrite (py_get_not_dict _ _ _ Hd). eauto.
    + unfold extract_metric_from_owm.
      change (str_eqb (txt "rainfall") (txt "temperature")) with false.
      change (str_eqb (txt "rainfall") (txt "humidity")) with false.
      change (str_eqb (txt "rainfall") (txt "pressure")) with false.
      change (str_eqb (txt "rainfall") (txt "wind_speed")) with false.
      change (str_eqb (txt "rainfall") (txt "rainfall")) with true.
      cbv iota. rewrite (py_get_not_dict _ _ _ Hd). eauto.
Qed.

Lemma X2_resolver_witness :
  extract_metric_from_owm (txt "moisture") (JList []) = inr JNull
  /\ exists msg,
       extract_metric_from_owm (txt "humidity") (JList [])
       = inl (AttributeError msg).
Proof.
  split.
  - apply (proj1 (X2_resolver_agrees_with_lexicon (txt "moisture")
                    (JList []))).
    reflexivity.
  - apply (proj2 (X2_resolver_agrees_with_lexicon (txt "humidity")
                    (JList []))); reflexivity.
Defined.

(** X3: on an object response rainfall never raises and is never null.
    When the response holds an object under "rain", the value is the "1h"
    field of that object if it is truthy, else its "3h" field if that is
    truthy, else the float 0.0; when "rain" is missing or is no object,
    the value is the float 0.0. *)
Theorem X3_rainfall_never_null (items : list (str * json)) :
  exists v,
    extract_metric_from_owm (txt "rainfall") (JDict items) = inr v
    /\ (json_truthy v = true \/ v = JFloat 0)
    /\ v <> JNull
    /\ ((exists rain,
           dict_get items (txt "rain") = Some (JDict rain)
           /\ ((json_truthy (rain_field rain "1h") = true
                /\ v = rain_field rain "1h")
               \/ (json_truthy (rain_field rain "1h") = false
                   /\ json_truthy (rain_field rain "3h") = true
                   /\ v = rain_field rain "3h")
               \/ (json_truthy (rain_field rain "1h") = false
                   /\ json_truthy (rain_field rain "3h") = false
                   /\ v = JFloat 0)))
        \/ ((forall rain, dict_get items (txt "rain") <> Some (JDict rain))
            /\ v = JFloat 0)).
Proof.
  unfold extract_metric_from_owm.
  change (str_eqb (txt "rainfall") (txt "temperature")) with false.
  change (str_eqb (txt "rainfall") (txt "humidity")) with false.
  change (str_eqb (txt "rainfall") (txt "pressure")) with false.
  change (str_eqb (txt "rainfall") (txt "wind_speed")) with false.
  change (str_eqb (txt "rainfall") (txt "rainfall")) with true.
  cbv iota. rewrite py_get_dict.
  assert (Z0 : JFloat 0 <> JNull) by discriminate.
  destruct (dict_get items (txt "rain")) as [[| | | | | |rain]|];
    try (eexists; split; [reflexivity|split; [now right|split; [exact Z0|]]];
         right; split; [intros rain; discriminate|reflexivity]).
  eexists. split; [reflexivity|].
  unfold py_or. fold (rain_field rain "1h"). fold (rain_field rain "3h").
  destruct (json_truthy (rain_field rain "1h")) eqn:T1.
  - rewrite T1. split; [now left|]. split.
    + intros E. rewrite E in T1. discriminate.
    + left. exists rain. split; [reflexivity|]. left. split; auto.
  - destruct (json_truthy (rain_field rain "3h")) eqn:T3.
    + rewrite T3. split; [now left|]. split.
      * intros E. rewrite E in T3. discriminate.
      * left. exists rain. split; [reflexivity|]. right. left.
        repeat split; auto.
    + split; [now right|]. split; [exact Z0|].
      left. exists rain. split; [reflexivity|]. right. right.
      repeat split; auto.
Qed.

(* ================================================================== *)
(** ** Further properties: the provider gateway *)

Section GatewayFacts.

Variable requests_get : list request -> request -> str + response.

(** X4: without a credential (none, or an empty one) the gateway raises
    the missing-key error, and with one but an empty location it raises
    "Location is empty."; in neither case is a request made. *)
Theorem X4_gateway_guards (location : str) (api_key : option str)
    (log : netlog) :
  (api_key = None \/ api_key = Some [] ->
     call_openweathermap_current requests_get location api_key log
     = (inl (RuntimeError MISSING_KEY), log))
  /\ (forall key, api_key = Some key -> key <> [] -> location = [] ->
        call_openweathermap_current requests_get location api_key log
        = (inl (RuntimeError (txt "Location is empty.")), log)).
Proof.
  split.
  - intros [-> | ->]; reflexivity.
  - intros key -> Hk ->. unfold call_openweathermap_current.
    destruct key; [congruence|reflexivity].
Qed.

Lemma gateway_log (location key : str) (log : netlog) :
  key <> [] -> location <> [] ->
  snd (call_openweathermap_current requests_get location (Some key) log)
  = log ++ [request_for key location].
Proof.
  intros Hk Hl. unfold call_openweathermap_current.
  destruct key as [|k key]; [congruence|].
  destruct location as [|c location]; [congruence|].
  cbn [truthy negb].
  fold OWM_URL. fold (request_for (k :: key) (c :: location)).
  destruct (requests_get log _) as [msg|resp]; [reflexivity|].
  destruct (_ && _)%bool; [reflexivity|].
  destruct (json_body resp); reflexivity.
Qed.

Lemma gateway_value (location key : str) (log : netlog) :
  key <> [] -> location <> [] ->
  fst (call_openweathermap_current requests_get location (Some key) log)
  = match requests_get log (request_for key location) with
    | inl msg => inl (OtherError msg)
    | inr resp =>
        if error_status (status_code resp) then
          inl (HTTPError (str_of_int (status_code resp) ++ txt " "
                          ++ reason resp ++ txt ": " ++ text resp))
        else
          match json_body resp with
          | inl msg => inl (OtherError msg)
          | inr payload => inr payload
          end
    end.
Proof.
  intros Hk Hl. unfold call_openweathermap_current.
  destruct key as [|k key]; [congruence|].
  destruct location as [|c location]; [congruence|].
  cbn [truthy negb].
  fold OWM_URL. fold (request_for (k :: key) (c :: location)).
  destruct (requests_get log _) as [msg|resp]; [reflexivity|].
  unfold error_status.
  destruct (_ && _)%bool; [reflexivity|].
  destruct (json_body resp); reflexivity.
Qed.

(** X5: with a credential and a location the gateway makes exactly one
    request, whatever it gets back: for that location, with that
    credential, in metric units, at the current-weather endpoint. *)
Theorem X5_gateway_one_request (location key : str) (log : netlog) :
  key <> [] -> location <> [] ->
  snd (call_openweathermap_current requests_get location (Some key) log)
  = log ++ [Request (txt "https://api.openweathermap.org/data/2.5/weather")
                    location key (txt "metric")].
Proof. apply gateway_log. Qed.

(** X6: the gateway returns a payload exactly when the request gets a
    response whose status is outside 400..599 and whose body decodes; a
    status inside 400..599 is an [HTTPError] even when the body decodes,
    and its text begins with the status code. *)
Theorem X6_gateway_success (location key : str) (log : netlog) :
  key <> [] -> location <> [] ->
  (forall payload,
     fst (call_openweathermap_current requests_get location (Some key) log)
       = inr payload
     <-> exists resp,
           requests_get log (request_for key location) = inr resp
           /\ error_status (status_code resp) = false
           /\ json_body resp = inr payload)
  /\ (forall resp,
        requests_get log (request_for key location) = inr resp ->
        error_status (status_code resp) = true ->
        exists rest,
          fst (call_openweathermap_current requests_get location (Some key)
                 log)
          = inl (HTTPError (str_of_int (status_code resp) ++ rest))).
Proof.
  intros Hk Hl. rewrite (gateway_value _ _ log Hk Hl). split.
  - intros payload. split.
    + destruct (requests_get log _) as [msg|resp]; [discriminate|].
      destruct (error_status (status_code resp)) eqn:E; [discriminate|].
      destruct (json_body resp) as [msg|p] eqn:J; [discriminate|].
      intros [= <-]. exists resp. auto.
    + intros (resp & -> & -> & ->). reflexivity.
  - intros resp -> ->. eauto.
Qed.

End GatewayFacts.

Lemma X4_gateway_guards_witness :
  call_openweathermap_current provider_paris (txt "Paris") (Some []) []
  = (inl (RuntimeError MISSING_KEY), []).
Proof.
  apply (proj1 (X4_gateway_guards provider_paris (txt "Paris") (Some []) [])).
  right. reflexivity.
Defined.

Lemma X5_gateway_one_request_witness :
  snd (call_openweathermap_current network_down (txt "Paris")
         (Some (txt "k3y")) [])
  = [Request (txt "https://api.openweathermap.org/data/2.5/weather")
             (txt "Paris") (txt "k3y") (txt "metric")].
Proof.
  apply (X5_gateway_one_request network_down (txt "Paris") (txt "k3y") []);
    discriminate.
Defined.

Lemma X6_gateway_success_witness :
  exists rest,
    fst (call_openweathermap_current provider_paris (txt "Atlantis")
           (Some (txt "k3y")) [])
    = inl (HTTPError (str_of_int 404 ++ rest)).
Proof.
  apply (proj2 (X6_gateway_success provider_paris (txt "Atlantis")
                  (txt "k3y") []
                  ltac:(discriminate) ltac:(discriminate))
           (Response 404 (txt "Not Found") (txt "city not found")
              (inr (JDict [(txt "cod", JStr (txt "404"))]))));
    reflexivity.
Defined.

(* ================================================================== *)
(** ** Further properties: the orchestrator *)

Lemma sanitize_location_not_empty (raw : option str) :
  sanitize_location raw <> Some [].
Proof.
  destruct raw as [raw|]; simpl; [|discriminate].
  destruct (negb (truthy raw)); [discriminate|apply or_none_not_empty].
Qed.

Lemma clean_all_fold (raw_locations clean : list str) :
  fold_left
    (fun clean rl =>
       match sanitize_location (Some rl) with
       | Some cl => if truthy cl then clean ++ [cl] else clean
       | None => clean
       end)
    raw_locations clean
  = clean
    ++ flat_map (fun rl => match sanitize_location (Some rl) with
                           | Some cl => [cl]
                           | None => []
                           end) raw_locations.
Proof.
  revert clean. induction raw_locations as [|rl rest IH]; intros clean;
    cbn [fold_left flat_map].
  - now rewrite app_nil_r.
  - rewrite IH. destruct (sanitize_location (Some rl)) as [cl|] eqn:E.
    + destruct cl as [|c cl];
        [now destruct (sanitize_location_not_empty (Some rl))|].
      cbn [truthy]. now rewrite <- app_assoc.
    + reflexivity.
Qed.

(** The surviving candidates are the sanitized pieces, in order. *)
Lemma candidates_flat_map (location : option str) :
  candidates location
  = flat_map (fun rl => match sanitize_location (Some rl) with
                        | Some cl => [cl]
                        | None => []
                        end) (split_locations location).
Proof. unfold candidates, clean_all. now rewrite clean_all_fold. Qed.

Lemma candidates_not_empty (location : option str) :
  Forall (fun c => c <> []) (candidates location).
Proof.
  rewrite candidates_flat_map. apply Forall_forall. intros c Hin.
  apply in_flat_map in Hin. destruct Hin as (rl & _ & Hin).
  destruct (sanitize_location (Some rl)) as [cl|] eqn:E; [|contradiction].
  destruct Hin as [<-|[]]. intros ->.
  now destruct (sanitize_location_not_empty (Some rl)).
Qed.

Lemma env_api_key_cases (getenv : str -> option str) :
  match env_api_key getenv with
  | Some key =>
      key <> []
      /\ (getenv (txt "OWM_API_KEY") = Some key
          \/ ((getenv (txt "OWM_API_KEY") = None
               \/ getenv (txt "OWM_API_KEY") = Some [])
              /\ getenv (txt "OWA") = Some key))
  | None =>
      (getenv (txt "OWM_API_KEY") = None
       \/ getenv (txt "OWM_API_KEY") = Some [])
      /\ (getenv (txt "OWA") = None \/ getenv (txt "OWA") = Some [])
  end.
Proof.
  unfold env_api_key, or_else.
  destruct (getenv (txt "OWM_API_KEY")) as [[|c k]|];
    destruct (getenv (txt "OWA")) as [[|c' k']|]; cbn [truthy];
    repeat split; auto; discriminate.
Qed.

Section OrchestratorFacts.

Variable getenv : str -> option str.
Variable requests_get : list request -> request -> str + response.

Lemma attempt_log (metric : str) (api_key : option str) (loc : str)
    (log : netlog) :
  snd (attempt requests_get metric api_key loc log)
  = snd (call_openweathermap_current requests_get loc api_key log).
Proof.
  unfold attempt.
  destruct (call_openweathermap_current requests_get loc api_key log)
    as [[e|owm] log']; [reflexivity|].
  destruct (extract_metric_from_owm metric owm); reflexivity.
Qed.

Lemma attempts_log (metric key : str) (locs : list str) :
  key <> [] -> Forall (fun c => c <> []) locs ->
  forall log,
  snd (attempts requests_get metric (Some key) locs log)
  = log ++ map (request_for key) locs.
Proof.
  intros Hk. induction 1 as [|loc rest Hl _ IH]; intros log; cbn [attempts map].
  - now rewrite app_nil_r.
  - pose proof (attempt_log metric (Some key) loc log) as Ha.
    rewrite (gateway_log requests_get loc key log Hk Hl) in Ha.
    destruct (attempt requests_get metric (Some key) loc log) as [o log1].
    cbn [snd] in Ha. subst log1.
    specialize (IH (log ++ [request_for key loc])).
    destruct (attempts requests_get metric (Some key) rest _) as [os log2].
    cbn [snd] in IH |- *. rewrite IH, <- app_assoc. reflexivity.
Qed.

Lemma attempts_no_key (metric : str) (locs : list str) (log : netlog) :
  attempts requests_get metric None locs log
  = (map (fun loc => inr (Error loc MISSING_KEY)) locs, log).
Proof.
  induction locs as [|loc rest IH]; cbn [attempts map]; [reflexivity|].
  unfold attempt. cbn [call_openweathermap_current]. rewrite IH. reflexivity.
Qed.

Lemma api_get_metric_passed_log (metric location : option str)
    (log : netlog) :
  preconditions metric location = true ->
  snd (api_get_metric getenv requests_get metric location log)
  = snd (attempts requests_get (metric_of metric) (env_api_key getenv)
           (candidates location) log).
Proof.
  unfold preconditions, candidates, metric_of, api_get_metric.
  intros H. apply andb_prop in H. destruct H as [H Hc].
  apply andb_prop in H. destruct H as [Hm Hl].
  rewrite Hm, Hl. cbv [negb].
  destruct (clean_all (split_locations location)) as [|c cs] eqn:Ec;
    [discriminate|].
  rewrite loop_attempts. cbv [app].
  set (os := fst (attempts _ _ _ (c :: cs) log)).
  destruct (lefts os); destruct (rights os); reflexivity.
Qed.

(** X7: when a query passes the three checks and a credential is
    configured, the orchestrator sends exactly one request for each
    surviving candidate, in the order of the candidates and none else:
    no retry, and none skipped after a failure. *)
Theorem X7_one_request_per_candidate (metric location : option str)
    (log : netlog) (key : str) :
  preconditions metric location = true ->
  env_api_key getenv = Some key ->
  snd (api_get_metric getenv requests_get metric location log)
  = log ++ map (request_for key) (candidates location).
Proof.
  intros H Hk. rewrite (api_get_metric_passed_log _ _ _ H), Hk.
  pose proof (env_api_key_cases getenv) as Hc. rewrite Hk in Hc.
  apply attempts_log; [tauto|apply candidates_not_empty].
Qed.

Lemma lefts_map_inr {A B C : Type} (f : C -> B) (l : list C) :
  @lefts A B (map (fun x => inr (f x)) l) = [].
Proof. induction l; simpl; auto. Qed.

Lemma rights_map_inr {A B C : Type} (f : C -> B) (l : list C) :
  @rights A B (map (fun x => inr (f x)) l) = map f l.
Proof. induction l; simpl; congruence. Qed.

(** X8: when a query passes the three checks and no credential is
    configured, no request is sent and the orchestrator raises the 502
    failure whose errors give, for every candidate in order, the
    missing-key message. *)
Theorem X8_missing_credential (metric location : option str) (log : netlog) :
  preconditions metric location = true ->
  env_api_key getenv = None ->
  api_get_metric getenv requests_get metric location log
  = (HTTPException 502
       (Errors (map (fun loc => Error loc MISSING_KEY) (candidates location))),
     log).
Proof.
  intros H Hk.
  pose proof (api_get_metric_passed getenv requests_get _ _ log H) as Hv.
  pose proof (api_get_metric_passed_log _ _ log H) as Hs.
  unfold outcomes in Hv. rewrite Hk in Hv, Hs.
  rewrite attempts_no_key in Hv, Hs. cbn [fst snd] in Hv, Hs.
  rewrite lefts_map_inr, rights_map_inr in Hv.
  destruct (api_get_metric getenv requests_get metric location log)
    as [out log']. cbn [fst snd] in Hv, Hs. subst log'. f_equal.
  rewrite Hv.
  unfold preconditions in H. apply andb_prop in H. destruct H as [_ Hc].
  destruct (candidates location); [discriminate|reflexivity].
Qed.

End OrchestratorFacts.

Lemma X7_one_request_witness :
  snd (api_get_metric env_with_key provider_paris (Some (txt "Humidity"))
         (Some (txt "Paris (now), Atlantis")) [])
  = map (request_for (txt "k3y")) [txt "Paris"; txt "Atlantis"].
Proof.
  apply (X7_one_request_per_candidate env_with_key provider_paris
           (Some (txt "Humidity")) (Some (txt "Paris (now), Atlantis")) []
           (txt "k3y")); vm_compute; reflexivity.
Defined.

Lemma X8_missing_credential_witness :
  api_get_metric (fun _ => None) provider_paris (Some (txt "pressure"))
    (Some (txt "Paris / Oslo")) []
  = (HTTPException 502
       (Errors [Error (txt "Paris") MISSING_KEY;
                Error (txt "Oslo") MISSING_KEY]),
     []).
Proof.
  apply (X8_missing_credential (fun _ => None) provider_paris
           (Some (txt "pressure")) (Some (txt "Paris / Oslo")) []);
    vm_compute; reflexivity.
Defined.

(** X9: the credential is the value of OWM_API_KEY when that is set and
    not empty, else the value of OWA when that is set and not empty, else
    none; it is never the empty string. *)
Theorem X9_credential_fallback (getenv : str -> option str) :
  (forall key, env_api_key getenv = Some key <->
     key <> []
     /\ (getenv (txt "OWM_API_KEY") = Some key
         \/ ((getenv (txt "OWM_API_KEY") = None
              \/ getenv (txt "OWM_API_KEY") = Some [])
             /\ getenv (txt "OWA") = Some key)))
  /\ (env_api_key getenv = None <->
      (getenv (txt "OWM_API_KEY") = None
       \/ getenv (txt "OWM_API_KEY") = Some [])
      /\ (getenv (txt "OWA") = None \/ getenv (txt "OWA") = Some [])).
Proof.
  pose proof (env_api_key_cases getenv) as H.
  split.
  - intros key. split.
    + intros E. rewrite E in H. exact H.
    + intros (Hk & Hc). unfold env_api_key, or_else.
      destruct Hc as [-> | [[-> | ->] ->]];
        destruct key; try congruence; cbn [truthy]; reflexivity.
  - split.
    + intros E. rewrite E in H. exact H.
    + unfold env_api_key, or_else.
      intros ([-> | ->] & [-> | ->]); reflexivity.
Qed.

Lemma subseq_nil_l {A : Type} (l : list A) : subseq [] l.
Proof. induction l; now constructor. Qed.

Lemma outcomes_subseq (locs : list str)
    (os : list (MetricQueryResult + MetricQueryError)) :
  Forall2 (fun loc o => about o = loc) locs os ->
  subseq (map r_location (lefts os)) locs
  /\ subseq (map e_location (rights os)) locs.
Proof.
  induction 1 as [|loc o locs os Ho _ [IH1 IH2]]; cbn [lefts rights flat_map map].
  - split; constructor.
  - destruct o as [r|e]; cbn [about] in Ho; subst loc; cbn [app map];
      split; now constructor.
Qed.

Lemma preconditions_false (metric location : option str) :
  preconditions metric location = false ->
  known_metric (metric_of metric) = false
  \/ missing location = true
  \/ candidates location = [].
Proof.
  unfold preconditions, missing.
  destruct (known_metric (metric_of metric)); [|now left].
  destruct (match location with Some l => truthy l | None => false end);
    [|right; now left].
  destruct (candidates location); [right; now right|discriminate].
Qed.

Section AnswerFacts.

Variable getenv : str -> option str.
Variable requests_get : list request -> request -> str + response.

Lemma attempt_result (metric : str) (api_key : option str) (loc : str)
    (log : netlog) (r : MetricQueryResult) :
  fst (attempt requests_get metric api_key loc log) = inl r ->
  r_metric r = metric
  /\ r_units r = txt "metric (see provider)"
  /\ r_provider r = txt "openweathermap".
Proof.
  unfold attempt.
  destruct (call_openweathermap_current requests_get loc api_key log)
    as [[e|owm] log']; [discriminate|].
  destruct (extract_metric_from_owm metric owm); [discriminate|].
  intros [= <-]. auto.
Qed.

Lemma attempts_results (metric : str) (api_key : option str)
    (locs : list str) :
  forall log r,
  In r (lefts (fst (attempts requests_get metric api_key locs log))) ->
  r_metric r = metric
  /\ r_units r = txt "metric (see provider)"
  /\ r_provider r = txt "openweathermap".
Proof.
  induction locs as [|loc rest IH]; intros log r; cbn [attempts].
  - intros [].
  - pose proof (attempt_result metric api_key loc log) as Ha.
    destruct (attempt requests_get metric api_key loc log) as [o log1].
    specialize (IH log1 r).
    destruct (attempts requests_get metric api_key rest log1) as [os log2].
    cbn [fst lefts flat_map] in IH |- *. intros Hin.
    apply in_app_or in Hin. destruct Hin as [Hin|Hin]; [|auto].
    destruct o as [r0|e]; [|contradiction].
    destruct Hin as [<-|[]]. now apply Ha.
Qed.

(** X10: an answer of the orchestrator has one of three shapes: a 400
    with a message and no request sent, when one of the three checks
    fails; a 502 with at least one error, the errors naming every
    candidate in order; or the two lists, with at least one result.  The
    200 answer never has an empty result list. *)
Theorem X10_answer_shapes (metric location : option str) (log : netlog) :
  (preconditions metric location = false
   /\ exists msg,
        api_get_metric getenv requests_get metric location log
        = (HTTPException 400 (Message msg), log))
  \/ (preconditions metric location = true
      /\ exists errors,
           fst (api_get_metric getenv requests_get metric location log)
           = HTTPException 502 (Errors errors)
           /\ errors <> []
           /\ map e_location errors = candidates location)
  \/ (preconditions metric location = true
      /\ exists results errors,
           fst (api_get_metric getenv requests_get metric location log)
           = Returned results errors
           /\ results <> []).
Proof.
  destruct (preconditions metric location) eqn:P.
  - right.
    rewrite (api_get_metric_passed getenv requests_get _ _ log P).
    pose proof (attempts_about requests_get (metric_of metric)
                  (env_api_key getenv) (candidates location) log) as Hab.
    fold (outcomes getenv requests_get metric location log) in Hab.
    apply Forall2_about_map in Hab.
    destruct (lefts (outcomes getenv requests_get metric location log))
      as [|r rs] eqn:L.
    + rewrite (lefts_nil_rights _ L) in Hab.
      destruct (rights (outcomes getenv requests_get metric location log))
        as [|e es] eqn:R.
      * unfold preconditions in P. rewrite <- Hab in P.
        rewrite !andb_true_iff in P. destruct P as [_ P]. discriminate P.
      * left. split; [reflexivity|]. exists (e :: es).
        repeat split; auto. discriminate.
    + right. split; [reflexivity|]. exists (r :: rs), (rights
        (outcomes getenv requests_get metric location log)).
      split; [reflexivity|discriminate].
  - left. split; [reflexivity|].
    apply api_get_metric_rejected. now apply preconditions_false.
Qed.

(** X11: every result of an answer carries the lower-cased metric of the
    query, which is one of the lexicon, and the fixed units and provider
    labels; the locations of the results, and those of the errors, follow
    the order of the candidates. *)
Theorem X11_results_content (metric location : option str) (log : netlog) :
  Forall (fun r => r_metric r = metric_of metric
                   /\ known_metric (r_metric r) = true
                   /\ r_units r = txt "metric (see provider)"
                   /\ r_provider r = txt "openweathermap")
         (results_of
            (fst (api_get_metric getenv requests_get metric location log)))
  /\ subseq (map r_location
               (results_of
                  (fst (api_get_metric getenv requests_get metric location
                          log))))
            (candidates location)
  /\ subseq (map e_location
               (errors_of
                  (fst (api_get_metric getenv requests_get metric location
                          log))))
            (candidates location).
Proof.
  destruct (preconditions metric location) eqn:P.
  - rewrite (api_get_metric_passed getenv requests_get _ _ log P).
    pose proof (attempts_about requests_get (metric_of metric)
                  (env_api_key getenv) (candidates location) log) as Hab.
    destruct (outcomes_subseq _ _ Hab) as [S1 S2].
    pose proof (attempts_results (metric_of metric) (env_api_key getenv)
                  (candidates location) log) as Hr.
    fold (outcomes getenv requests_get metric location log) in S1, S2, Hr.
    assert (Hk : known_metric (metric_of metric) = true).
    { unfold preconditions in P. rewrite !andb_true_iff in P. tauto. }
    assert (F : Forall (fun r => r_metric r = metric_of metric
                   /\ known_metric (r_metric r) = true
                   /\ r_units r = txt "metric (see provider)"
                   /\ r_provider r = txt "openweathermap")
                  (lefts (outcomes getenv requests_get metric location log))).
    { apply Forall_forall. intros r Hin.
      destruct (Hr r Hin) as (E1 & E2 & E3). rewrite E1. auto. }
    destruct (lefts (outcomes getenv requests_get metric location log))
      as [|r rs];
      destruct (rights (outcomes getenv requests_get metric location log))
        as [|e es]; cbn [results_of errors_of]; auto.
  - destruct (api_get_metric_rejected getenv requests_get metric location log
                (preconditions_false _ _ P)) as (msg & ->).
    cbn [fst results_of errors_of map].
    split; [constructor|]. split; apply subseq_nil_l.
Qed.

End AnswerFacts.

(* ================================================================== *)
(** ** Further properties: substitution and the sanitizer *)

Lemma sub_go_Forall (P : ascii -> Prop) (ic : bool) (r : regex) (repl : str)
    (s : str) :
  Forall P repl -> Forall P s ->
  forall prev skip, Forall P (sub_go ic r repl prev s skip).
Proof.
  intros Hr Hs. induction Hs as [|c s Hc Hs IH]; intros prev skip;
    cbn [sub_go]; [constructor|].
  destruct skip as [|n]; [|apply IH].
  destruct (match_len ic r prev (c :: s)) as [[|n]|].
  - constructor; auto.
  - apply Forall_app. split; auto.
  - constructor; auto.
Qed.

Lemma sub_go_length (ic : bool) (r : regex) (repl : str) (s : str) :
  length repl <= 1 ->
  forall prev skip, length (sub_go ic r repl prev s skip) <= length s.
Proof.
  intros Hr. induction s as [|c s IH]; intros prev skip; cbn [sub_go length];
    [lia|].
  destruct skip as [|n]; [|specialize (IH (Some c) n); lia].
  destruct (match_len ic r prev (c :: s)) as [[|n]|].
  - specialize (IH (Some c) 0). cbn [length]. lia.
  - rewrite length_app. specialize (IH (Some c) n). lia.
  - specialize (IH (Some c) 0). cbn [length]. lia.
Qed.

Lemma lstrip_by_Forall (P : ascii -> Prop) (p : ascii -> bool) (s : str) :
  Forall P s -> Forall P (lstrip_by p s).
Proof.
  induction 1 as [|c s Hc Hs IH]; cbn [lstrip_by]; [constructor|].
  destruct (p c); [exact IH|now constructor].
Qed.

Lemma strip_by_Forall (P : ascii -> Prop) (p : ascii -> bool) (s : str) :
  Forall P s -> Forall P (strip_by p s).
Proof.
  intros H. unfold strip_by, rstrip_by.
  apply Forall_rev, lstrip_by_Forall, Forall_rev, lstrip_by_Forall, H.
Qed.

Lemma lstrip_by_length (p : ascii -> bool) (s : str) :
  length (lstrip_by p s) <= length s.
Proof.
  induction s as [|c s IH]; cbn [lstrip_by length]; [lia|].
  destruct (p c); cbn [length]; lia.
Qed.

Lemma strip_by_length (p : ascii -> bool) (s : str) :
  length (strip_by p s) <= length s.
Proof.
  unfold strip_by, rstrip_by. rewrite length_rev.
  pose proof (lstrip_by_length p (rev (lstrip_by p s))) as H1.
  rewrite length_rev in H1.
  pose proof (lstrip_by_length p s). lia.
Qed.

(** Both ends of a trimmed string are kept characters. *)
Lemma strip_by_ends (p : ascii -> bool) (s : str) :
  match strip_by p s with c :: _ => p c = false | [] => True end
  /\ match rev (strip_by p s) with c :: _ => p c = false | [] => True end.
Proof.
  unfold strip_by.
  set (t := lstrip_by p s).
  assert (Ht : match t with c :: _ => p c = false | [] => True end)
    by apply lstrip_by_head.
  set (u := rstrip_by p t).
  assert (Hu : match rev u with c :: _ => p c = false | [] => True end).
  { unfold u, rstrip_by. rewrite rev_involutive. apply lstrip_by_head. }
  split; [|exact Hu].
  destruct (rstrip_by_decomp p t) as (d & E & _). fold u in E.
  destruct u as [|c u']; auto. rewrite E in Ht. exact Ht.
Qed.

Lemma strip_by_clean (p : ascii -> bool) (s : str) :
  Forall (fun c => p c = false) s -> strip_by p s = s.
Proof.
  intros H. unfold strip_by.
  assert (L : lstrip_by p s = s).
  { apply lstrip_by_fixed. destruct H; auto. }
  rewrite L. apply rstrip_by_fixed.
  apply Forall_rev in H. destruct H; auto.
Qed.

(** Every step of the cleanup keeps a property that the characters of the
    raw location and the space have. *)
Lemma cleanup_Forall (P : ascii -> Prop) (raw : str) :
  P " "%char -> Forall P raw -> Forall P (cleanup raw).
Proof.
  intros Hsp H. unfold cleanup, strip, strip_chars, sub.
  assert (S1 : Forall P (txt " ")) by (constructor; [exact Hsp|constructor]).
  assert (S0 : Forall P (txt "")) by constructor.
  repeat first [apply strip_by_Forall | apply sub_go_Forall]; auto.
Qed.

Lemma cleanup_length (raw : str) : length (cleanup raw) <= length raw.
Proof.
  unfold cleanup, strip, strip_chars, sub.
  repeat match goal with
  | |- length (strip_by ?p ?x) <= _ =>
      apply (Nat.le_trans _ _ _ (strip_by_length p x))
  | |- length (sub_go ?ic ?r ?repl ?prev ?x ?k) <= _ =>
      apply (Nat.le_trans _ _ _
               (sub_go_length ic r repl x ltac:(simpl; lia) prev k))
  end.
  lia.
Qed.

Lemma sanitize_location_cleanup (raw loc : str) :
  sanitize_location (Some raw) = Some loc -> loc = cleanup raw /\ loc <> [].
Proof.
  unfold sanitize_location. destruct (negb (truthy raw)); [discriminate|].
  apply or_none_some.
Qed.

(** X12: the sanitizer invents nothing: every character of its result is
    a character of the raw location or a space, and the result is no
    longer than the raw location. *)
Theorem X12_sanitize_invents_nothing (raw loc : str) :
  sanitize_location (Some raw) = Some loc ->
  Forall (fun c => In c raw \/ c = " "%char) loc
  /\ length loc <= length raw.
Proof.
  intros H. apply sanitize_location_cleanup in H. destruct H as [-> _].
  split; [|apply cleanup_length].
  apply cleanup_Forall; [now right|].
  apply Forall_forall. intros c Hc. now left.
Qed.

Lemma X12_sanitize_witness :
  Forall (fun c => In c (txt "(Rio) in may,") \/ c = " "%char) (txt "Rio in")
  /\ length (txt "Rio in") <= length (txt "(Rio) in may,").
Proof.
  apply (X12_sanitize_invents_nothing (txt "(Rio) in may,") (txt "Rio in")).
  vm_compute; reflexivity.
Defined.

Lemma parens_match_len (prev : option ascii) (c : ascii) (s : str) :
  match_len false PARENS prev (c :: s)
  = if cls_ok false [One "("%char; One ")"%char] c then Some 1 else None.
Proof.
  unfold match_len, match_at, PARENS. cbn [exec after].
  destruct (cls_ok false _ c); cbn [hd_error after]; [|reflexivity].
  f_equal. cbn [length]. lia.
Qed.

Lemma not_paren (c : ascii) :
  cls_ok false [One "("%char; One ")"%char] c = false ->
  c <> "("%char /\ c <> ")"%char.
Proof.
  unfold cls_ok, cset_mem. cbn [existsb item_mem andb].
  rewrite !orb_false_iff. intros [(H1 & H2 & _) _].
  apply Ascii.eqb_neq in H1, H2. split; congruence.
Qed.

Lemma sub_parens_free (s : str) :
  forall prev skip,
  Forall (fun c => c <> "("%char /\ c <> ")"%char)
         (sub_go false PARENS (txt " ") prev s skip).
Proof.
  induction s as [|c s IH]; intros prev skip; cbn [sub_go]; [constructor|].
  destruct skip as [|n]; [|apply IH].
  rewrite parens_match_len.
  destruct (cls_ok false _ c) eqn:E.
  - constructor; [split; discriminate|apply IH].
  - constructor; [now apply not_paren|apply IH].
Qed.

Lemma cleanup_parens_free (raw : str) :
  Forall (fun c => c <> "("%char /\ c <> ")"%char) (cleanup raw).
Proof.
  unfold cleanup, strip, strip_chars, sub.
  assert (S1 : Forall (fun c => c <> "("%char /\ c <> ")"%char) (txt " "))
    by (constructor; [split; discriminate|constructor]).
  assert (S0 : Forall (fun c => c <> "("%char /\ c <> ")"%char) (txt ""))
    by constructor.
  apply strip_by_Forall, strip_by_Forall, sub_go_Forall; auto.
  apply strip_by_Forall, sub_go_Forall; auto.
  apply strip_by_Forall, sub_go_Forall; auto.
  apply strip_by_Forall, sub_parens_free.
Qed.

Lemma cleanup_comma_ends (raw : str) :
  hd_error (cleanup raw) <> Some ","%char
  /\ hd_error (rev (cleanup raw)) <> Some ","%char.
Proof.
  unfold cleanup, strip_chars.
  match goal with
  | |- context [strip_by ?p ?x] =>
      destruct (strip_by_ends p x) as [H1 H2];
      destruct (strip_by p x) as [|c t]; [split; discriminate|]
  end.
  split.
  - cbn [hd_error]. intros [= ->]. discriminate H1.
  - destruct (rev (c :: t)) as [|c' t']; [discriminate|].
    cbn [hd_error]. intros [= ->]. discriminate H2.
Qed.

(** X13: a sanitized location holds no parenthesis, and neither begins
    nor ends with a comma. *)
Theorem X13_sanitize_parens_commas (raw loc : str) :
  sanitize_location (Some raw) = Some loc ->
  ~ In "("%char loc /\ ~ In ")"%char loc
  /\ hd_error loc <> Some ","%char
  /\ hd_error (rev loc) <> Some ","%char.
Proof.
  intros H. apply sanitize_location_cleanup in H. destruct H as [-> _].
  pose proof (cleanup_parens_free raw) as F. rewrite Forall_forall in F.
  split; [intros Hin; now destruct (F _ Hin)|].
  split; [intros Hin; now destruct (F _ Hin)|].
  apply cleanup_comma_ends.
Qed.

Lemma X13_sanitize_witness :
  ~ In "("%char (txt "Oslo") /\ ~ In ")"%char (txt "Oslo")
  /\ hd_error (txt "Oslo") <> Some ","%char
  /\ hd_error (rev (txt "Oslo")) <> Some ","%char.
Proof.
  apply (X13_sanitize_parens_commas (txt "(Oslo),") (txt "Oslo")).
  vm_compute; reflexivity.
Defined.

(* ------------------------------------------------------------------ *)

Lemma run_length_le (ok : ascii -> bool) (s : str) :
  run_length ok s <= length s.
Proof.
  induction s as [|c s IH]; cbn [run_length length]; [lia|].
  destruct (ok c); lia.
Qed.

(** The greedy repetition first takes the whole run. *)
Lemma rep_exec_hd (ok : ascii -> bool) (s : str) :
  forall lo prev,
  option_map snd (hd_error (rep_exec ok lo prev s))
  = if lo <=? run_length ok s then Some (skipn (run_length ok s) s)
    else None.
Proof.
  induction s as [|c s IH]; intros lo prev; cbn [rep_exec run_length].
  - destruct lo; reflexivity.
  - destruct (ok c) eqn:Oc.
    + specialize (IH (Nat.pred lo) (Some c)).
      destruct (rep_exec ok (Nat.pred lo) (Some c) s) as [|e l] eqn:R;
        cbn [hd_error option_map app] in IH |- *.
      * destruct (Nat.leb_spec (Nat.pred lo) (run_length ok s));
          [discriminate IH|].
        destruct (Nat.leb_spec lo (S (run_length ok s))); [lia|].
        destruct lo; [lia|reflexivity].
      * destruct (Nat.leb_spec (Nat.pred lo) (run_length ok s));
          [|discriminate IH].
        destruct (Nat.leb_spec lo (S (run_length ok s))); [|lia].
        exact IH.
    + destruct lo; reflexivity.
Qed.

Lemma cls_ok_space_plain (c : ascii) : cls_ok false [Space] c = isspace c.
Proof.
  unfold cls_ok, cset_mem. cbn [existsb item_mem andb].
  now rewrite !orb_false_r.
Qed.

Lemma run_length_ext (f g : ascii -> bool) (s : str) :
  (forall c, f c = g c) -> run_length f s = run_length g s.
Proof.
  intros E. induction s as [|c s IH]; cbn [run_length]; auto.
  rewrite E, IH. reflexivity.
Qed.

Lemma spaces2_match_len (prev : option ascii) (s : str) :
  match_len false SPACES2 prev s
  = if 2 <=? run_length isspace s then Some (run_length isspace s) else None.
Proof.
  unfold match_len, match_at, SPACES2. cbn [exec before after group1].
  pose proof (rep_exec_hd (cls_ok false [Space]) s 2 prev) as H.
  rewrite (run_length_ext _ isspace s cls_ok_space_plain) in H.
  destruct (rep_exec (cls_ok false [Space]) 2 prev s) as [|[o s'] l];
    cbn [hd_error option_map map snd after] in H |- *.
  - destruct (2 <=? run_length isspace s); [discriminate H|reflexivity].
  - destruct (2 <=? run_length isspace s); [|discriminate H].
    injection H as ->. f_equal.
    pose proof (run_length_le isspace s). rewrite length_skipn. lia.
Qed.

Lemma run_length_skipn (s : str) :
  starts_solid (skipn (run_length isspace s) s) = true.
Proof.
  induction s as [|c s IH]; cbn [run_length]; [reflexivity|].
  destruct (isspace c) eqn:E; cbn [skipn]; [exact IH|].
  cbn [starts_solid]. now rewrite E.
Qed.

Lemma single_spaced_cons (c : ascii) (s : str) :
  single_spaced s = true ->
  (isspace c = true -> starts_solid s = true) ->
  single_spaced (c :: s) = true.
Proof.
  intros Hs Hc. destruct s as [|b s]; [reflexivity|].
  cbn [single_spaced] in *. rewrite Hs, andb_true_r.
  destruct (isspace c); [|reflexivity].
  specialize (Hc eq_refl). cbn [starts_solid] in Hc.
  destruct (isspace b); [discriminate Hc|reflexivity].
Qed.

Lemma sub_spaces2_single (s : str) :
  forall prev skip,
  skip <= length s ->
  (skip <> 0 -> starts_solid (skipn skip s) = true) ->
  single_spaced (sub_go false SPACES2 (txt " ") prev s skip) = true
  /\ (starts_solid (skipn skip s) = true ->
      starts_solid (sub_go false SPACES2 (txt " ") prev s skip) = true).
Proof.
  induction s as [|c s IH]; intros prev skip Hk Hs; cbn [sub_go].
  - split; [reflexivity|]. intros _. reflexivity.
  - destruct skip as [|n].
    + rewrite spaces2_match_len.
      destruct (Nat.leb_spec 2 (run_length isspace (c :: s))) as [L|L].
      * destruct (run_length isspace (c :: s)) as [|n] eqn:R; [lia|].
        pose proof (run_length_le isspace (c :: s)) as Hle.
        pose proof (run_length_skipn (c :: s)) as Hsk.
        rewrite R in Hle, Hsk. cbn [length skipn] in Hle, Hsk.
        destruct (IH (Some c) n ltac:(lia) (fun _ => Hsk)) as [I1 I2].
        cbn [txt list_ascii_of_string app].
        split.
        -- apply single_spaced_cons; auto.
        -- cbn [skipn starts_solid]. cbn [run_length] in R.
           destruct (isspace c); [discriminate|discriminate R].
      * destruct (IH (Some c) 0 (Nat.le_0_l _) (fun H => False_ind _ (H eq_refl)))
          as [I1 I2].
        cbn [skipn] in I2.
        split.
        -- apply single_spaced_cons; auto.
           intros Hc. apply I2. cbn [run_length] in L. rewrite Hc in L.
           destruct s as [|b s]; [reflexivity|]. cbn [starts_solid].
           cbn [run_length] in L.
           destruct (isspace b); [lia|reflexivity].
        -- cbn [skipn starts_solid]. auto.
    + cbn [skipn length] in *.
      apply (IH (Some c) n ltac:(lia)). intros _. now apply Hs.
Qed.

Lemma single_spaced_tail (c : ascii) (s : str) :
  single_spaced (c :: s) = true -> single_spaced s = true.
Proof.
  destruct s as [|b s]; [reflexivity|]. cbn [single_spaced].
  intros H. apply andb_prop in H. tauto.
Qed.

Lemma single_spaced_two (x y : ascii) (t : str) :
  single_spaced (x :: y :: t)
  = (negb (isspace x && isspace y) && single_spaced (y :: t))%bool.
Proof. reflexivity. Qed.

Lemma single_spaced_prefix (a b : str) :
  single_spaced (a ++ b) = true -> single_spaced a = true.
Proof.
  induction a as [|x a IH]; [reflexivity|]. cbn [app]. intros H.
  pose proof (IH (single_spaced_tail _ _ H)) as Ha.
  destruct a as [|y a]; [reflexivity|].
  cbn [app] in H. rewrite single_spaced_two in H |- *.
  apply andb_prop in H. destruct H as [H _]. now rewrite H, Ha.
Qed.

Lemma lstrip_by_single (p : ascii -> bool) (s : str) :
  single_spaced s = true -> single_spaced (lstrip_by p s) = true.
Proof.
  induction s as [|c s IH]; [reflexivity|]. intros H. cbn [lstrip_by].
  destruct (p c); [apply IH; now apply (single_spaced_tail c)|exact H].
Qed.

Lemma strip_by_single (p : ascii -> bool) (s : str) :
  single_spaced s = true -> single_spaced (strip_by p s) = true.
Proof.
  intros H. unfold strip_by.
  destruct (rstrip_by_decomp p (lstrip_by p s)) as (d & E & _).
  apply (single_spaced_prefix _ d). rewrite <- E.
  now apply lstrip_by_single.
Qed.

Lemma cleanup_single_spaced (raw : str) : single_spaced (cleanup raw) = true.
Proof.
  unfold cleanup, strip, strip_chars, sub.
  apply strip_by_single, strip_by_single.
  apply (sub_spaces2_single _ None 0 (Nat.le_0_l _)).
  intros H. now destruct H.
Qed.

(** X14: in a sanitized location no two whitespace characters stand side
    by side. *)
Theorem X14_sanitize_single_spaced (raw loc : str) :
  sanitize_location (Some raw) = Some loc -> single_spaced loc = true.
Proof.
  intros H. apply sanitize_location_cleanup in H. destruct H as [-> _].
  apply cleanup_single_spaced.
Qed.

Lemma X14_sanitize_witness : single_spaced (txt "New York") = true.
Proof.
  apply (X14_sanitize_single_spaced (txt "New  (today)   York")
           (txt "New York")).
  vm_compute; reflexivity.
Defined.

(* ================================================================== *)
(** ** Further properties: the candidates sent to the provider *)

Lemma cleanup_inner_eq (raw : str) :
  cleanup raw = strip_chars (txt ",") (cleanup_inner raw).
Proof. reflexivity. Qed.

Lemma cleanup_inner_Forall (P : ascii -> Prop) (raw : str) :
  P " "%char -> Forall P raw -> Forall P (cleanup_inner raw).
Proof.
  intros Hsp H. unfold cleanup_inner, strip, sub.
  assert (S1 : Forall P (txt " ")) by (constructor; [exact Hsp|constructor]).
  assert (S0 : Forall P (txt "")) by constructor.
  repeat first [apply strip_by_Forall | apply sub_go_Forall]; auto.
Qed.

Lemma split_segment_free (raw seg : str) (x : ascii) :
  In seg (split true SEPARATORS raw) -> In x (txt ",;/|") -> ~ In x seg.
Proof.
  intros Hseg Hx Hin. apply in_split in Hin. destruct Hin as (l1 & l2 & E).
  apply (split_go_clean true SEPARATORS separator separators_sound
           separators_complete separator_not_empty raw None 0
           (Nat.le_0_l _) seg l1 [x] l2 Hseg E).
  now apply sep_char.
Qed.

Lemma split_piece_free (location : option str) (p : str) (x : ascii) :
  In p (split_locations location) -> In x (txt ",;/|") -> ~ In x p.
Proof.
  destruct location as [raw|]; [|contradiction].
  rewrite split_locations_some, in_map_iff.
  intros (seg & <- & Hin) Hx. apply filter_In in Hin. destruct Hin as [Hin _].
  pose proof (split_segment_free raw seg x Hin Hx) as Hfree.
  assert (F : Forall (fun c => c <> x) seg).
  { apply Forall_forall. intros c Hc ->. contradiction. }
  apply (strip_by_Forall _ isspace) in F. rewrite Forall_forall in F.
  intros Hin'. now apply (F x Hin').
Qed.

Lemma candidate_source (location : option str) (c : str) :
  In c (candidates location) ->
  exists piece, In piece (split_locations location)
                /\ sanitize_location (Some piece) = Some c.
Proof.
  rewrite candidates_flat_map, in_flat_map. intros (rl & Hrl & Hin).
  exists rl. split; auto.
  destruct (sanitize_location (Some rl)) as [cl|]; [|contradiction].
  destruct Hin as [<-|[]]. reflexivity.
Qed.

Lemma candidate_clean (location : option str) (c : str) :
  In c (candidates location) ->
  c <> []
  /\ strip c = c
  /\ single_spaced c = true
  /\ (forall x, In x PUNCTUATION -> ~ In x c).
Proof.
  intros Hin. destruct (candidate_source _ _ Hin) as (piece & Hp & Hs).
  destruct (sanitize_location_cleanup _ _ Hs) as [-> Hne].
  assert (Hfree : forall x, In x (txt ",;/|") ->
            Forall (fun a => a <> x) (cleanup_inner piece)).
  { intros x Hx. apply cleanup_inner_Forall.
    - intros <-. simpl in Hx. intuition discriminate.
    - apply Forall_forall. intros a Ha E. rewrite E in Ha.
      now apply (split_piece_free location piece x Hp Hx). }
  assert (Hc : cleanup piece = cleanup_inner piece).
  { rewrite cleanup_inner_eq. unfold strip_chars. apply strip_by_clean.
    specialize (Hfree ","%char ltac:(simpl; tauto)).
    eapply Forall_impl; [|exact Hfree]. intros a Ha. cbn [existsb txt
      list_ascii_of_string]. rewrite orb_false_r. now apply Ascii.eqb_neq. }
  split; [exact Hne|]. split; [|split].
  - rewrite Hc. unfold cleanup_inner. apply strip_idem.
  - apply cleanup_single_spaced.
  - intros x Hx. unfold PUNCTUATION in Hx. simpl in Hx.
    destruct Hx as [<-|[<-|[<-|[<-|[<-|[<-|[]]]]]]];
      try (intros Hi;
           match goal with
           | |- False =>
               rewrite Hc in Hi;
               match type of Hi with
               | In ?x _ =>
                   specialize (Hfree x ltac:(simpl; tauto));
                   rewrite Forall_forall in Hfree;
                   now apply (Hfree x Hi)
               end
           end).
    + intros Hi. pose proof (cleanup_parens_free piece) as F.
      rewrite Forall_forall in F. now destruct (F _ Hi).
    + intros Hi. pose proof (cleanup_parens_free piece) as F.
      rewrite Forall_forall in F. now destruct (F _ Hi).
Qed.

(** X15: every candidate the orchestrator queries the provider with is a
    non-empty, trimmed string in which no two whitespace characters stand
    side by side and none of [,] [;] [/] [|] [(] [)] occurs. *)
Theorem X15_candidates_clean (location : option str) (c : str) :
  In c (candidates location) ->
  c <> []
  /\ strip c = c
  /\ single_spaced c = true
  /\ (forall x, In x PUNCTUATION -> ~ In x c).
Proof. apply candidate_clean. Qed.

Lemma X15_candidates_witness :
  txt "New York" <> []
  /\ strip (txt "New York") = txt "New York"
  /\ single_spaced (txt "New York") = true
  /\ (forall x, In x PUNCTUATION -> ~ In x (txt "New York")).
Proof.
  apply (X15_candidates_clean (Some (txt "Oslo; New   York (today) |"))
           (txt "New York")).
  vm_compute. right. left. reflexivity.
Defined.

(* ================================================================== *)
(** ** Further properties: the location of an extraction *)

Lemma hd_error_map {A B : Type} (f : A -> B) (l : list A) :
  hd_error (map f l) = option_map f (hd_error l).
Proof. destruct l; reflexivity. Qed.

Lemma location_match_at (prev : option ascii) (s : str) :
  option_map group1 (match_at true LOCATION_PATTERN prev s)
  = option_map Some (place_here s).
Proof.
  unfold match_at, LOCATION_PATTERN, place_here, word.
  cbn [exec]. rewrite exec_word. cbn [after before group1].
  destruct (word_prefix true (txt "in ") s); cbn [flat_map andb];
    [|reflexivity].
  rewrite app_nil_r. change (length (txt "in ")) with 3.
  cbn [after before group1].
  rewrite !hd_error_map.
  pose proof (rep_exec_hd
    (cls_ok true [Range "A" "Z"; Range "0" "9"; Range "a" "z";
                  One " "; One "-"; One "_"; One ","])
    (skipn 3 s) 1 (last_before (firstn 3 s) prev)) as H.
  fold location_char in H |- *.
  destruct (hd_error (rep_exec location_char 1 _ (skipn 3 s)))
    as [[o s']|]; cbn [option_map snd fst group1] in H |- *.
  - destruct (1 <=? run_length location_char (skipn 3 s));
      [|discriminate H].
    injection H as ->. cbn [option_map]. do 2 f_equal.
    unfold consumed. cbn [after]. f_equal.
    pose proof (run_length_le location_char (skipn 3 s)).
    rewrite (length_skipn (run_length _ _)).
    change (match s with _ :: _ :: _ :: l1 => l1 | _ => [] end)
      with (skipn 3 s).
    lia.
  - destruct (1 <=? run_length location_char (skipn 3 s));
      [discriminate H|reflexivity].
Qed.

Lemma location_search (s : str) :
  forall prev i,
  match search_from true LOCATION_PATTERN prev s i with
  | Some m => m_group1 m
  | None => None
  end = find_place s.
Proof.
  induction s as [|c s IH]; intros prev i; cbn [search_from find_place].
  - pose proof (location_match_at prev []) as H0.
    destruct (match_at true LOCATION_PATTERN prev []) as [q|];
      destruct (place_here []) as [w|]; cbn in H0 |- *; congruence.
  - pose proof (location_match_at prev (c :: s)) as H1.
    destruct (match_at true LOCATION_PATTERN prev (c :: s)) as [q|];
      destruct (place_here (c :: s)) as [w|]; cbn in H1 |- *;
      try congruence.
    apply IH.
Qed.

Lemma location_find_place (text : str) :
  location (extract_metrics text) = option_map strip (find_place text).
Proof.
  unfold extract_metrics. cbn [location]. unfold search.
  pose proof (location_search text None 0) as H.
  destruct (search_from true LOCATION_PATTERN None text 0) as [m|];
    rewrite <- H; reflexivity.
Qed.

Lemma run_length_firstn (ok : ascii -> bool) (s : str) :
  forallb ok (firstn (run_length ok s) s) = true.
Proof.
  induction s as [|c s IH]; cbn [run_length]; [reflexivity|].
  destruct (ok c) eqn:E; [|reflexivity].
  cbn [firstn forallb]. now rewrite E, IH.
Qed.

Lemma run_length_stops (ok : ascii -> bool) (s : str) :
  stops ok (skipn (run_length ok s) s) = true.
Proof.
  induction s as [|c s IH]; cbn [run_length]; [reflexivity|].
  destruct (ok c) eqn:E; cbn [skipn]; [exact IH|].
  cbn [stops]. now rewrite E.
Qed.

Lemma run_length_pos (ok : ascii -> bool) (s : str) :
  1 <= run_length ok s <-> exists c rest, s = c :: rest /\ ok c = true.
Proof.
  destruct s as [|c s]; cbn [run_length].
  - split; [lia|]. intros (c & rest & E & _). discriminate E.
  - destruct (ok c) eqn:E.
    + split; [eauto|lia].
    + split; [lia|]. intros (c' & rest & [= <- <-] & E'). congruence.
Qed.

Lemma in_prefix (s : str) :
  word_prefix true (txt "in ") s = true <->
  exists w post, s = w ++ post /\ lower w = txt "in ".
Proof. apply word_prefix_true_iff. Qed.

Lemma lower_length (a b : str) : lower a = lower b -> length a = length b.
Proof.
  intros H. apply (f_equal (@length ascii)) in H. unfold lower in H.
  now rewrite !length_map in H.
Qed.

Lemma place_here_some (s run : str) :
  place_here s = Some run ->
  exists w rest,
    s = w ++ run ++ rest /\ lower w = txt "in " /\ run <> []
    /\ forallb location_char run = true
    /\ stops location_char rest = true.
Proof.
  unfold place_here.
  destruct (word_prefix true (txt "in ") s) eqn:W; [|discriminate].
  destruct (Nat.leb_spec 1 (run_length location_char (skipn 3 s))) as [L|L];
    [|discriminate].
  unfold andb. intros [= <-].
  apply in_prefix in W. destruct W as (w & post & -> & Hw).
  assert (Hl : length w = 3) by (apply (lower_length w (txt "in ")), Hw).
  assert (Hs : skipn 3 (w ++ post) = post).
  { rewrite <- Hl, skipn_app, Nat.sub_diag, skipn_all. reflexivity. }
  change (match w ++ post with _ :: _ :: _ :: l1 => l1 | _ => [] end)
    with (skipn 3 (w ++ post)).
  rewrite Hs in *.
  exists w, (skipn (run_length location_char post) post).
  rewrite firstn_skipn. repeat split; auto.
  - intros E. apply (f_equal (@length ascii)) in E.
    pose proof (run_length_le location_char post).
    rewrite length_firstn in E. cbn [length] in E. lia.
  - apply run_length_firstn.
  - apply run_length_stops.
Qed.

Lemma skipn_in (w post : str) :
  length w = 3 -> skipn 3 (w ++ post) = post.
Proof.
  intros Hl. rewrite <- Hl, skipn_app, Nat.sub_diag, skipn_all. reflexivity.
Qed.

Lemma place_here_at (s : str) :
  place_here s <> None <-> names_place_at s 0.
Proof.
  unfold place_here, names_place_at. split.
  - destruct (word_prefix true (txt "in ") s) eqn:W;
      [|intros H; exfalso; apply H; reflexivity].
    destruct (Nat.leb_spec 1 (run_length location_char (skipn 3 s)))
      as [L|L]; [|intros H; exfalso; apply H; reflexivity].
    intros _. apply in_prefix in W. destruct W as (w & post & -> & Hw).
    assert (Hl : length w = 3) by (apply (lower_length w (txt "in ")), Hw).
    rewrite (skipn_in w _ Hl) in L.
    apply run_length_pos in L. destruct L as (c & rest & -> & Hc).
    exists [], w, c, rest. auto.
  - intros (pre & w & c & rest & E & Hp & Hw & Hc).
    destruct pre; [|discriminate Hp]. cbn [app] in E. subst s.
    assert (W : word_prefix true (txt "in ") (w ++ c :: rest) = true)
      by (apply in_prefix; eauto).
    rewrite W.
    assert (Hl : length w = 3) by (apply (lower_length w (txt "in ")), Hw).
    rewrite (skipn_in w _ Hl). cbn [run_length].
    rewrite Hc. unfold andb, Nat.leb. discriminate.
Qed.

Lemma names_place_at_S (s : str) (c : ascii) (j : nat) :
  names_place_at (c :: s) (S j) <-> names_place_at s j.
Proof.
  unfold names_place_at. split.
  - intros (pre & w & x & rest & E & Hp & Hw & Hx).
    destruct pre as [|y pre]; [discriminate Hp|].
    cbn [app length] in E, Hp. inversion E; subst.
    exists pre, w, x, rest. auto.
  - intros (pre & w & x & rest & -> & Hp & Hw & Hx).
    exists (c :: pre), w, x, rest. cbn [app length]. auto.
Qed.

Lemma names_place_at_nil (j : nat) : ~ names_place_at [] j.
Proof.
  intros (pre & w & x & rest & E & _ & Hw & _).
  apply (lower_length w (txt "in ")) in Hw.
  destruct pre; destruct w; cbn in E, Hw; discriminate.
Qed.

Lemma find_place_none (s : str) :
  find_place s = None <-> forall i, ~ names_place_at s i.
Proof.
  induction s as [|c s IH]; cbn [find_place].
  - destruct (place_here []) as [run|] eqn:P.
    + split; [discriminate|]. intros H. exfalso. apply (H 0).
      apply place_here_at. congruence.
    + split; auto. intros _ i. apply names_place_at_nil.
  - destruct (place_here (c :: s)) as [run|] eqn:P.
    + split; [discriminate|]. intros H. exfalso. apply (H 0).
      apply place_here_at. congruence.
    + rewrite IH. split.
      * intros H [|i] Hn.
        -- apply place_here_at in Hn. congruence.
        -- apply names_place_at_S in Hn. now apply (H i).
      * intros H i Hn. apply (H (S i)). now apply names_place_at_S.
Qed.

Lemma find_place_some (s run : str) :
  find_place s = Some run ->
  exists pre w rest,
    s = pre ++ w ++ run ++ rest /\ lower w = txt "in " /\ run <> []
    /\ forallb location_char run = true
    /\ stops location_char rest = true
    /\ forall j, names_place_at s j -> length pre <= j.
Proof.
  induction s as [|c s IH]; cbn [find_place].
  - destruct (place_here []) as [run0|] eqn:P; [|discriminate].
    intros [= ->]. apply place_here_some in P.
    destruct P as (w & rest & E & H). exists [], w, rest.
    cbn [app length]. repeat split; try tauto. intros; lia.
  - destruct (place_here (c :: s)) as [run0|] eqn:P.
    + intros [= ->]. apply place_here_some in P.
      destruct P as (w & rest & E & H). exists [], w, rest.
      cbn [app length]. repeat split; try tauto. intros; lia.
    + intros F. destruct (IH F) as (pre & w & rest & -> & H1 & H2 & H3 & H4 & H5).
      exists (c :: pre), w, rest. cbn [app length].
      repeat split; auto. intros [|j] Hn.
      * apply place_here_at in Hn. congruence.
      * apply names_place_at_S in Hn. specialize (H5 j Hn). lia.
Qed.

Lemma location_char_table (c : ascii) :
  location_char c
  = (between 48 57 c || between 65 90 c || between 97 122 c
     || is_code 32 c || is_code 45 c || is_code 95 c || is_code 44 c)%bool.
Proof. destruct c as [[] [] [] [] [] [] [] []]; vm_compute; reflexivity. Qed.

(** X16, for texts of Latin-1 characters (code points below 256, the
    characters [str] holds): among these characters the location
    characters are the ASCII letters and digits, space, hyphen, underscore
    and comma; the location of an extraction is absent exactly when such
    a text nowhere has "in " (in any case) followed by a location
    character.  Otherwise it is, trimmed, the longest run of location
    characters that follows the leftmost such "in "; the run ends at the
    end of the text or before a character that is not a location
    character.  Characters beyond Latin-1 that [re.IGNORECASE] folds onto
    ASCII letters are outside this statement. *)
Theorem X16_location_extraction (text : str) :
  (forall c, location_char c
     = (between 48 57 c || between 65 90 c || between 97 122 c
        || is_code 32 c || is_code 45 c || is_code 95 c
        || is_code 44 c)%bool)
  /\ (location (extract_metrics text) = None <->
      forall i, ~ names_place_at text i)
  /\ (forall loc,
        location (extract_metrics text) = Some loc ->
        exists pre w run rest,
          text = pre ++ w ++ run ++ rest
          /\ lower w = txt "in "
          /\ run <> [] /\ forallb location_char run = true
          /\ stops location_char rest = true
          /\ loc = strip run
          /\ forall j, names_place_at text j -> length pre <= j).
Proof.
  split; [apply location_char_table|].
  rewrite location_find_place. split.
  - rewrite <- find_place_none.
    destruct (find_place text); cbn [option_map]; split; congruence.
  - intros loc H. destruct (find_place text) as [run|] eqn:F; [|discriminate].
    cbn [option_map] in H. injection H as <-.
    destruct (find_place_some _ _ F) as (pre & w & rest & H).
    exists pre, w, run, rest. tauto.
Qed.

Lemma X16_location_witness :
  exists pre w run rest,
    txt "Wind In Sao-Paulo, Rio?" = pre ++ w ++ run ++ rest
    /\ lower w = txt "in "
    /\ run <> [] /\ forallb location_char run = true
    /\ stops location_char rest = true
    /\ txt "Sao-Paulo, Rio" = strip run
    /\ forall j, names_place_at (txt "Wind In Sao-Paulo, Rio?") j ->
                 length pre <= j.
Proof.
  apply (proj2 (proj2 (X16_location_extraction
                         (txt "Wind In Sao-Paulo, Rio?")))
           (txt "Sao-Paulo, Rio")).
  vm_compute; reflexivity.
Defined.

(* ================================================================== *)
(** ** Further properties: which texts mention a metric *)

Lemma search_from_found (ic : bool) (r : regex) (s : str) :
  forall prev i,
  search_from ic r prev s i <> None <->
  exists pre post,
    s = pre ++ post /\ match_at ic r (last_before pre prev) post <> None.
Proof.
  induction s as [|c s IH]; intros prev i; cbn [search_from].
  - destruct (match_at ic r prev []) as [q|] eqn:M.
    + split; [|discriminate]. intros _. exists [], []. split; auto.
      cbn. rewrite M. discriminate.
    + split; [congruence|]. intros (pre & post & E & H).
      symmetry in E. apply app_eq_nil in E. destruct E as [-> ->].
      cbn in H. congruence.
  - destruct (match_at ic r prev (c :: s)) as [q|] eqn:M.
    + split; [|discriminate]. intros _. exists [], (c :: s). split; auto.
      cbn. rewrite M. discriminate.
    + rewrite IH. split.
      * intros (pre & post & -> & H). exists (c :: pre), post. split; auto.
      * intros (pre & post & E & H). destruct pre as [|x pre].
        -- cbn in E, H. subst post. congruence.
        -- cbn [app] in E. inversion E; subst. exists pre, post.
           split; auto.
Qed.

Lemma any_pattern_found (pats : list regex) (low : str) :
  any_pattern pats low = true <->
  exists pat, In pat pats /\ search false pat low <> None.
Proof.
  induction pats as [|pat pats IH]; cbn [any_pattern].
  - split; [discriminate|]. intros (pat & [] & _).
  - destruct (search false pat low) as [m|] eqn:S.
    + split; auto. intros _. exists pat. split; [now left|].
      rewrite S. discriminate.
    + rewrite IH. split.
      * intros (p & Hin & H). exists p. split; [now right|exact H].
      * intros (p & [<-|Hin] & H); [congruence|eauto].
Qed.

Lemma match_at_word (w : str) (prev : option ascii) (s : str) :
  match_at false (word_of w) prev s <> None <->
  exists post, s = w ++ post.
Proof.
  unfold match_at. rewrite exec_word. cbn [after].
  rewrite <- word_prefix_false_iff.
  destruct (word_prefix false w s); cbn [hd_error]; split;
    congruence || discriminate.
Qed.

Lemma match_at_word_opt (w : str) (r : regex) (prev : option ascii)
    (s : str) :
  match_at false (Seq (word_of w) (Opt r)) prev s <> None <->
  exists post, s = w ++ post.
Proof.
  unfold match_at. cbn [exec]. rewrite exec_word. cbn [after].
  rewrite <- word_prefix_false_iff.
  destruct (word_prefix false w s); cbn [flat_map hd_error].
  - split; auto. intros _. rewrite app_nil_r.
    destruct (exec false r _); discriminate.
  - split; congruence || discriminate.
Qed.

Lemma found_word (w : string) (s : str) :
  search false (word w) s <> None <-> contains w s.
Proof.
  unfold search, word, contains. rewrite search_from_found. split.
  - intros (pre & post & -> & H). apply match_at_word in H.
    destruct H as (t & ->). eauto.
  - intros (pre & post & ->). exists pre, (txt w ++ post). split; auto.
    apply match_at_word. eauto.
Qed.

Lemma found_word_opt (w : string) (r : regex) (s : str) :
  search false (Seq (word w) (Opt r)) s <> None <-> contains w s.
Proof.
  unfold search, word, contains. rewrite search_from_found. split.
  - intros (pre & post & -> & H). apply match_at_word_opt in H.
    destruct H as (t & ->). eauto.
  - intros (pre & post & ->). exists pre, (txt w ++ post). split; auto.
    apply match_at_word_opt. eauto.
Qed.

Lemma found_degrees (unit : ascii) (s : str) :
  search false (Seq (Lit deg) (word_of [unit])) s <> None <->
  contains_degrees unit s.
Proof.
  change (Seq (Lit deg) (word_of [unit])) with (word_of (degrees_of unit)).
  unfold search, contains_degrees. rewrite search_from_found. split.
  - intros (pre & post & -> & H). apply match_at_word in H.
    destruct H as (t & ->). eauto.
  - intros (pre & post & ->). exists pre, (degrees_of unit ++ post).
    split; auto. apply match_at_word. eauto.
Qed.

Lemma contains_longer (w w' : string) (a b : str) (s : str) :
  txt w' = a ++ txt w ++ b -> contains w' s -> contains w s.
Proof.
  intros E (pre & post & ->). rewrite E.
  exists (pre ++ a), (b ++ post). now rewrite <- !app_assoc.
Qed.

Lemma metrics_mention (text m : str) :
  In m (metrics (extract_metrics text)) <->
  exists pats, In (m, pats) METRIC_KEYWORDS
               /\ any_pattern pats (lower text) = true.
Proof.
  rewrite metrics_filter, in_map_iff. split.
  - intros ([k pats] & Hk & Hin). simpl in Hk. subst k.
    apply filter_In in Hin. exists pats. tauto.
  - intros (pats & Hin & Hany). exists (m, pats). split; auto.
    apply filter_In. split; auto.
Qed.

Lemma metrics_mention_of (text m : str) (pats : list regex) :
  In (m, pats) METRIC_KEYWORDS ->
  (In m (metrics (extract_metrics text)) <->
   exists pat, In pat pats /\ search false pat (lower text) <> None).
Proof.
  intros Hin. rewrite metrics_mention, <- any_pattern_found. split.
  - intros (pats' & Hin' & H).
    assert (pats' = pats); [|now subst].
    pose proof lexicon_order_NoDup as Hnd. unfold lexicon_order in Hnd.
    clear H. revert Hin Hin' Hnd. generalize METRIC_KEYWORDS.
    intros table. induction table as [|[k v] table IH]; [contradiction|].
    cbn [map fst In]. intros H1 H2 Hnd.
    inversion Hnd as [|? ? Hnot Hrest]; subst.
    destruct H1 as [H1|H1], H2 as [H2|H2].
    + congruence.
    + inversion H1; subst. exfalso. apply Hnot.
      apply in_map_iff. exists (m, pats'). auto.
    + inversion H2; subst. exfalso. apply Hnot.
      apply in_map_iff. exists (m, pats). auto.
    + auto.
  - intros H. eauto.
Qed.

Lemma exec_weather (p : pos) :
  exec false (seqs [WordB; word "weather"; WordB]) p
  = if (xorb (word_at (before p)) (word_at (hd_error (after p)))
        && word_prefix false (txt "weather") (after p)
        && xorb true (word_at (hd_error (skipn 7 (after p)))))%bool
    then [Pos (Some "r"%char) (skipn 7 (after p)) (group1 p)]
    else [].
Proof.
  cbn [seqs exec]. unfold word.
  destruct (xorb (word_at (before p)) (word_at (hd_error (after p))));
    [|reflexivity].
  cbn [flat_map andb]. rewrite app_nil_r, exec_word.
  destruct (word_prefix false (txt "weather") (after p)) eqn:W;
    [|reflexivity].
  cbn [flat_map before after].
  apply word_prefix_false_iff in W. destruct W as (post & ->).
  change (firstn (length (txt "weather")) (txt "weather" ++ post))
    with (txt "weather").
  change (skipn (length (txt "weather")) (txt "weather" ++ post)) with post.
  change (skipn 7 (txt "weather" ++ post)) with post.
  change (word_at (last_before (txt "weather") (before p))) with true.
  destruct (xorb true (word_at (hd_error post))); reflexivity.
Qed.

Lemma match_at_weather (prev : option ascii) (s : str) :
  match_at false (seqs [WordB; word "weather"; WordB]) prev s <> None <->
  exists post,
    s = txt "weather" ++ post
    /\ word_at prev = false /\ word_at (hd_error post) = false.
Proof.
  unfold match_at. rewrite exec_weather. cbn [before after].
  destruct (word_prefix false (txt "weather") s) eqn:W.
  - apply word_prefix_false_iff in W. destruct W as (post & ->).
    change (skipn 7 (txt "weather" ++ post)) with post.
    change (word_at (hd_error (txt "weather" ++ post))) with true.
    destruct (word_at prev); destruct (word_at (hd_error post)) eqn:Wp;
      cbn [xorb andb hd_error];
      (split;
       [ intros H; try (now destruct H); exists post; auto
       | intros (post' & E & H1 & H2); apply app_inv_head in E; subst post';
         try discriminate; congruence ]).
  - rewrite andb_false_r. cbn [andb hd_error]. split; [congruence|].
    intros (post & -> & _).
    assert (word_prefix false (txt "weather") (txt "weather" ++ post) = true)
      by (apply word_prefix_false_iff; eauto).
    congruence.
Qed.

Lemma found_weather (s : str) :
  search false (seqs [WordB; word "weather"; WordB]) s <> None <->
  contains_word "weather" s.
Proof.
  unfold search, contains_word. rewrite search_from_found. split.
  - intros (pre & post & -> & H). apply match_at_weather in H.
    destruct H as (t & -> & H1 & H2). exists pre, t. auto.
  - intros (pre & post & -> & H1 & H2). exists pre, (txt "weather" ++ post).
    split; auto. apply match_at_weather. exists post. auto.
Qed.

(** X17: which texts mention a metric.  The patterns are looked for
    anywhere in the lower-cased text, inside words too; only "weather"
    has to stand as a whole word.  So rainfall is listed exactly when
    "rain" or "precipitation" occurs, humidity when "humid" occurs,
    wind_speed when "wind" occurs, pressure when "pressure", "hpa" or
    "atm" occurs, and temperature when "temp", "hotter", "colder",
    "degrees", the degree sign before "c" or "f", or the word "weather"
    occurs. *)
Theorem X17_metric_mentions (text : str) :
  (In (txt "temperature") (metrics (extract_metrics text)) <->
     contains "temp" (lower text) \/ contains "hotter" (lower text)
     \/ contains "colder" (lower text) \/ contains "degrees" (lower text)
     \/ contains_degrees "c" (lower text)
     \/ contains_degrees "f" (lower text)
     \/ contains_word "weather" (lower text))
  /\ (In (txt "rainfall") (metrics (extract_metrics text)) <->
        contains "rain" (lower text)
        \/ contains "precipitation" (lower text))
  /\ (In (txt "humidity") (metrics (extract_metrics text)) <->
        contains "humid" (lower text))
  /\ (In (txt "wind_speed") (metrics (extract_metrics text)) <->
        contains "wind" (lower text))
  /\ (In (txt "pressure") (metrics (extract_metrics text)) <->
        contains "pressure" (lower text) \/ contains "hpa" (lower text)
        \/ contains "atm" (lower text)).
Proof.
  split; [|split; [|split; [|split]]].
  - rewrite (metrics_mention_of text (txt "temperature")
               [ Seq (word "temp") (Opt (word "erature"));
                 word "hotter"; word "colder"; word "degrees";
                 Seq (Lit deg) (word "c"); Seq (Lit deg) (word "f");
                 seqs [WordB; word "weather"; WordB] ])
      by (simpl; tauto).
    rewrite <- found_word_opt with (r := word "erature").
    rewrite <- !found_word, <- !found_degrees, <- found_weather.
    split.
    + intros (pat & Hin & H). simpl in Hin.
      destruct Hin as [<-|[<-|[<-|[<-|[<-|[<-|[<-|[]]]]]]]]; tauto.
    + intros [H|[H|[H|[H|[H|[H|H]]]]]]; eexists; (split; [|exact H]);
        simpl; tauto.
  - rewrite (metrics_mention_of text (txt "rainfall")
               [ Seq (word "rain") (Opt (word "fall"));
                 word "precipitation"; word "mm of rain"; word "rainy" ])
      by (simpl; tauto).
    split.
    + intros (pat & Hin & H). simpl in Hin.
      destruct Hin as [<-|[<-|[<-|[<-|[]]]]].
      * left. now apply found_word_opt in H.
      * right. now apply found_word in H.
      * left. apply found_word in H.
        apply (contains_longer "rain" "mm of rain" (txt "mm of ") []); auto.
      * left. apply found_word in H.
        apply (contains_longer "rain" "rainy" [] (txt "y")); auto.
    + intros [H|H].
      * exists (Seq (word "rain") (Opt (word "fall"))). split; [now left|].
        now apply found_word_opt.
      * exists (word "precipitation"). split; [simpl; tauto|].
        now apply found_word.
  - rewrite (metrics_mention_of text (txt "humidity")
               [ word "humidity"; word "humid" ]) by (simpl; tauto).
    split.
    + intros (pat & Hin & H). simpl in Hin. destruct Hin as [<-|[<-|[]]].
      * apply found_word in H.
        apply (contains_longer "humid" "humidity" [] (txt "ity")); auto.
      * now apply found_word in H.
    + intros H. exists (word "humid"). split; [simpl; tauto|].
      now apply found_word.
  - rewrite (metrics_mention_of text (txt "wind_speed")
               [ Seq (word "wind") (Opt (word " speed"));
                 word "windspeed"; word "wind gust" ]) by (simpl; tauto).
    split.
    + intros (pat & Hin & H). simpl in Hin.
      destruct Hin as [<-|[<-|[<-|[]]]].
      * now apply found_word_opt in H.
      * apply found_word in H.
        apply (contains_longer "wind" "windspeed" [] (txt "speed")); auto.
      * apply found_word in H.
        apply (contains_longer "wind" "wind gust" [] (txt " gust")); auto.
    + intros H. exists (Seq (word "wind") (Opt (word " speed"))).
      split; [now left|]. now apply found_word_opt.
  - rewrite (metrics_mention_of text (txt "pressure")
               [ word "pressure"; word "hpa"; word "atm" ])
      by (simpl; tauto).
    rewrite <- !found_word. split.
    + intros (pat & Hin & H). simpl in Hin.
      destruct Hin as [<-|[<-|[<-|[]]]]; tauto.
    + intros [H|[H|H]]; eexists; (split; [|exact H]); simpl; tauto.
Qed.

(* ================================================================== *)
(** ** Further properties: time words and the sanitizer *)

Lemma time_tokens_table : _TIME_TOKENS = map token_of TIME_TABLE.
Proof. reflexivity. Qed.

Lemma isword_lower_char (c : ascii) : isword (lower_char c) = isword c.
Proof. destruct c as [[] [] [] [] [] [] [] []]; vm_compute; reflexivity. Qed.

Lemma forallb_isword_lower (w : str) :
  forallb isword (lower w) = forallb isword w.
Proof.
  induction w as [|c w IH]; cbn [lower map forallb]; auto.
  unfold lower in IH. now rewrite isword_lower_char, IH.
Qed.

Lemma time_words_shape (v : str) :
  In v TIME_WORDS -> v <> [] /\ forallb isword v = true /\ lower v = v.
Proof.
  assert (H : forallb (fun v => truthy v && forallb isword v
                                && str_eqb (lower v) v)%bool TIME_WORDS = true)
    by (vm_compute; reflexivity).
  rewrite forallb_forall in H. intros Hin. specialize (H v Hin).
  rewrite !andb_true_iff in H. destruct H as [[H1 H2] H3].
  apply str_eqb_eq in H3. repeat split; auto.
  intros ->. discriminate H1.
Qed.

Lemma is_time_word_In (w : str) : is_time_word w = true <-> In w TIME_WORDS.
Proof. apply existsb_str_eqb_In. Qed.

(** What a word that spells a time word, in any case, is made of. *)
Lemma time_spelling (w : str) :
  In (lower w) TIME_WORDS -> w <> [] /\ forallb isword w = true.
Proof.
  intros H. destruct (time_words_shape _ H) as (H1 & H2 & _).
  rewrite forallb_isword_lower in H2. split; auto.
  intros ->. now apply H1.
Qed.

Lemma last_before_word (w : str) (prev : option ascii) :
  w <> [] -> forallb isword w = true -> word_at (last_before w prev) = true.
Proof.
  revert prev. induction w as [|c w IH]; intros prev Hn Hw; [congruence|].
  cbn [forallb] in Hw. apply andb_prop in Hw. destruct Hw as [Hc Hw].
  unfold last_before. cbn [fold_left]. fold (last_before w (Some c)).
  destruct w as [|d w]; [exact Hc|]. apply IH; [discriminate|exact Hw].
Qed.

Lemma hd_word (w t : str) :
  w <> [] -> forallb isword w = true -> word_at (hd_error (w ++ t)) = true.
Proof.
  destruct w as [|c w]; [congruence|]. cbn. intros _ H.
  apply andb_prop in H. tauto.
Qed.

Lemma run_length_app (w t : str) :
  forallb isword w = true -> word_at (hd_error t) = false ->
  run_length isword (w ++ t) = length w.
Proof.
  intros Hw Ht. induction w as [|c w IH]; cbn [app run_length length].
  - destruct t as [|d t]; [reflexivity|]. cbn in Ht. cbn [run_length].
    now rewrite Ht.
  - cbn [forallb] in Hw. apply andb_prop in Hw. destruct Hw as [Hc Hw].
    rewrite Hc, IH; auto.
Qed.

Lemma leading_word_app (w t : str) :
  forallb isword w = true -> word_at (hd_error t) = false ->
  leading_word (w ++ t) = w.
Proof.
  intros Hw Ht. unfold leading_word. rewrite run_length_app by auto.
  now rewrite firstn_app, Nat.sub_diag, firstn_all, app_nil_r.
Qed.

Lemma leading_word_split (s : str) :
  s = leading_word s ++ skipn (run_length isword s) s
  /\ forallb isword (leading_word s) = true
  /\ word_at (hd_error (skipn (run_length isword s) s)) = false.
Proof.
  unfold leading_word. split; [symmetry; apply firstn_skipn|].
  split; [apply run_length_firstn|].
  induction s as [|c s IH]; cbn [run_length]; [reflexivity|].
  destruct (isword c) eqn:E; cbn [skipn hd_error word_at]; auto.
Qed.

(** The exact result of a literal run, with the character it ends on. *)
Lemma exec_word_in (ic : bool) (v : str) (p q : pos) :
  In q (exec ic (word_of v) p) <->
  word_prefix ic v (after p) = true
  /\ q = Pos (last_before (firstn (length v) (after p)) (before p))
             (skipn (length v) (after p)) (group1 p).
Proof.
  rewrite exec_word. destruct (word_prefix ic v (after p)).
  - split; [intros [<-|[]]; auto|]. intros [_ ->]. now left.
  - split; [contradiction|]. intros [H _]. discriminate H.
Qed.

Lemma word_prefix_true_split (v s : str) :
  word_prefix true v s = true ->
  lower (firstn (length v) s) = lower v
  /\ s = firstn (length v) s ++ skipn (length v) s.
Proof.
  intros H. split; [|symmetry; apply firstn_skipn].
  apply word_prefix_true_iff in H. destruct H as (d & post & -> & Hl).
  rewrite <- (lower_length _ _ Hl), firstn_app, Nat.sub_diag, firstn_all.
  cbn [firstn]. now rewrite app_nil_r.
Qed.

Lemma word_prefix_true_app (v w t : str) :
  lower w = lower v -> word_prefix true v (w ++ t) = true.
Proof. intros H. apply word_prefix_true_iff. eauto. Qed.

Lemma firstn_skipn_app (w t : str) :
  firstn (length w) (w ++ t) = w /\ skipn (length w) (w ++ t) = t.
Proof.
  split.
  - now rewrite firstn_app, Nat.sub_diag, firstn_all, app_nil_r.
  - now rewrite skipn_app, Nat.sub_diag, skipn_all.
Qed.

Lemma exec_wordb_in (ic : bool) (p q : pos) :
  In q (exec ic WordB p) <->
  xorb (word_at (before p)) (word_at (hd_error (after p))) = true /\ q = p.
Proof.
  cbn [exec]. destruct (xorb _ _).
  - split; [intros [<-|[]]; auto|]. intros [_ ->]. now left.
  - split; [contradiction|]. intros [H _]. discriminate H.
Qed.

Lemma exec_wb_in (ic : bool) (r : regex) (p q : pos) :
  In q (exec ic (wb r) p) <->
  xorb (word_at (before p)) (word_at (hd_error (after p))) = true
  /\ In q (exec ic r p)
  /\ xorb (word_at (before q)) (word_at (hd_error (after q))) = true.
Proof.
  unfold wb. cbn [seqs]. rewrite exec_seq_in. split.
  - intros (p1 & H1 & H). apply exec_wordb_in in H1. destruct H1 as [B1 ->].
    apply exec_seq_in in H. destruct H as (p2 & H2 & H).
    apply exec_seq_in in H. destruct H as (p3 & H3 & H).
    apply exec_wordb_in in H3. destruct H3 as [B3 ->].
    cbn [exec] in H. destruct H as [<-|[]]. auto.
  - intros (B1 & H & B2). exists p. split; [now apply exec_wordb_in|].
    apply exec_seq_in. exists q. split; auto.
    apply exec_seq_in. exists q. split; [now apply exec_wordb_in|].
    now left.
Qed.

Lemma last_before_app (a b : str) (prev : option ascii) :
  last_before (a ++ b) prev = last_before b (last_before a prev).
Proof. unfold last_before. apply fold_left_app. Qed.

Lemma lower_app (a b : str) : lower (a ++ b) = lower a ++ lower b.
Proof. apply map_app. Qed.

(** A literal run read in any case: the text it spans. *)
Lemma exec_word_span (v : str) (p q : pos) :
  In q (exec true (word_of v) p) <->
  exists w, after p = w ++ after q /\ lower w = lower v
            /\ before q = last_before w (before p)
            /\ group1 q = group1 p.
Proof.
  rewrite exec_word_in. split.
  - intros [H ->]. destruct (word_prefix_true_split _ _ H) as [Hl Hs].
    exists (firstn (length v) (after p)). cbn [after before group1]. auto.
  - intros (w & E & Hl & Hb & Hg). rewrite E.
    split; [now apply word_prefix_true_app|].
    rewrite <- (lower_length _ _ Hl).
    destruct (firstn_skipn_app w (after q)) as [-> ->].
    destruct q as [b a g]. cbn [after before group1] in *. congruence.
Qed.

Lemma token_span (e : string * option string) (p q : pos) :
  In q (exec true (token_of e) p) <->
  xorb (word_at (before p)) (word_at (hd_error (after p))) = true
  /\ xorb (word_at (before q)) (word_at (hd_error (after q))) = true
  /\ exists v w, In v (variants e)
                 /\ after p = w ++ after q /\ lower w = lower v
                 /\ before q = last_before w (before p)
                 /\ group1 q = group1 p.
Proof.
  destruct e as [w0 [x|]]; cbn [token_of variants]; rewrite exec_wb_in;
    unfold word.
  - rewrite exec_seq_in. split.
    + intros (B1 & (p1 & H1 & H2) & B2). split; auto. split; auto.
      apply exec_word_span in H1. destruct H1 as (w1 & E1 & L1 & P1 & G1).
      cbn [exec] in H2. apply in_app_or in H2. destruct H2 as [H2|[<-|[]]].
      * apply exec_word_span in H2.
        destruct H2 as (w2 & E2 & L2 & P2 & G2).
        exists (txt w0 ++ txt x), (w1 ++ w2). split; [now left|].
        rewrite E1, E2, <- app_assoc, !lower_app, L1, L2, last_before_app.
        repeat split; congruence.
      * exists (txt w0), w1. split; [right; now left|]. auto.
    + intros (B1 & B2 & v & w & Hv & E & L & P & G). split; auto.
      split; auto. destruct Hv as [<-|[<-|[]]].
      * rewrite lower_app in L. apply map_eq_app in L.
        destruct L as (w1 & w2 & -> & L1 & L2).
        exists (Pos (last_before w1 (before p)) (w2 ++ after q) (group1 p)).
        split.
        -- apply exec_word_span. exists w1. cbn [after before group1].
           rewrite <- app_assoc in E. auto.
        -- cbn [exec]. apply in_or_app. left. apply exec_word_span.
           exists w2. cbn [after before group1].
           rewrite last_before_app in P. auto.
      * exists q. split.
        -- apply exec_word_span. exists w. auto.
        -- cbn [exec]. apply in_or_app. right. now left.
  - split.
    + intros (B1 & H & B2). split; auto. split; auto.
      apply exec_word_span in H. destruct H as (w & H).
      exists (txt w0), w. split; [now left|exact H].
    + intros (B1 & B2 & v & w & [<-|[]] & H). split; auto. split; auto.
      apply exec_word_span. exists w. exact H.
Qed.

Lemma time_re_in (p q : pos) :
  In q (exec true _TIME_RE p) <->
  exists e, In e TIME_TABLE /\ In q (exec true (token_of e) p).
Proof.
  unfold _TIME_RE. rewrite time_tokens_table.
  rewrite exec_alts by discriminate. rewrite in_flat_map. split.
  - intros (r & Hr & H). apply in_map_iff in Hr.
    destruct Hr as (e & <- & He). eauto.
  - intros (e & He & H). exists (token_of e). split; auto.
    now apply in_map.
Qed.

Lemma time_sound (p q : pos) :
  In q (exec true _TIME_RE p) ->
  word_at (before p) = false
  /\ exists w, after p = w ++ after q /\ In (lower w) TIME_WORDS
               /\ word_at (hd_error (after q)) = false.
Proof.
  intros H. apply time_re_in in H. destruct H as (e & He & H).
  apply token_span in H.
  destruct H as (B1 & B2 & v & w & Hv & E & L & P & _).
  assert (Hin : In v TIME_WORDS)
    by (apply in_flat_map; eauto).
  destruct (time_words_shape _ Hin) as (_ & _ & Lv).
  rewrite Lv in L. rewrite <- L in Hin.
  destruct (time_spelling _ Hin) as [Hn Hw].
  rewrite E, (hd_word w _ Hn Hw) in B1.
  rewrite P, (last_before_word w _ Hn Hw) in B2.
  split; [now destruct (word_at (before p))|].
  exists w. repeat split; auto.
  now destruct (word_at (hd_error (after q))).
Qed.

Lemma time_complete (p : pos) (w t : str) :
  word_at (before p) = false -> after p = w ++ t ->
  In (lower w) TIME_WORDS -> word_at (hd_error t) = false ->
  exists q, In q (exec true _TIME_RE p) /\ after q = t.
Proof.
  intros B E Hin Ht. destruct (time_spelling _ Hin) as [Hn Hw].
  pose proof Hin as Hin'. apply in_flat_map in Hin'.
  destruct Hin' as (e & He & Hv).
  exists (Pos (last_before w (before p)) t (group1 p)). split; auto.
  apply time_re_in. exists e. split; auto.
  apply token_span. cbn [after before group1].
  rewrite E, (hd_word w _ Hn Hw), B, Ht, (last_before_word w _ Hn Hw).
  repeat split; auto.
  exists (lower w), w. repeat split; auto.
  destruct (time_words_shape _ Hin) as (_ & _ & Lv). now rewrite Lv.
Qed.

(** Where and how far [_TIME_RE] matches: at the start of a word that
    spells a time word, to the end of that word. *)
Lemma time_match_len (prev : option ascii) (s : str) :
  match_len true _TIME_RE prev s
  = if time_start (word_at prev) s then Some (run_length isword s)
    else None.
Proof.
  unfold match_len, match_at, time_start.
  destruct (exec true _TIME_RE (Pos prev s None)) as [|q l] eqn:X;
    cbn [hd_error].
  - destruct (word_at prev) eqn:B; [reflexivity|]. cbn [negb andb].
    destruct (is_time_word (lower (leading_word s))) eqn:T; [|reflexivity].
    apply is_time_word_In in T.
    destruct (leading_word_split s) as (E & _ & Ht).
    destruct (time_complete (Pos prev s None) _ _ B E T Ht) as (q & Hq & _).
    rewrite X in Hq. contradiction.
  - destruct (time_sound (Pos prev s None) q) as (B & w & E & T & Ht);
      [rewrite X; now left|].
    cbn [before after] in B, E. destruct (time_spelling _ T) as [_ Hw].
    rewrite B. cbn [negb andb]. rewrite E.
    rewrite (leading_word_app _ _ Hw Ht).
    apply is_time_word_In in T. rewrite T.
    rewrite (run_length_app _ _ Hw Ht), length_app.
    f_equal. lia.
Qed.

Lemma leading_word_cons (c : ascii) (s : str) :
  leading_word (c :: s) = if isword c then c :: leading_word s else [].
Proof.
  unfold leading_word. cbn [run_length]. destruct (isword c); reflexivity.
Qed.

Lemma time_free_cons (pw : bool) (c : ascii) (s : str) :
  time_free pw (c :: s)
  = (negb (time_start pw (c :: s)) && time_free (isword c) s)%bool.
Proof. reflexivity. Qed.

Lemma time_start_empty_word (pw : bool) (s : str) :
  leading_word s = [] -> time_start pw s = false.
Proof.
  intros E. unfold time_start. rewrite E. apply andb_false_r.
Qed.

Lemma time_start_word (s : str) :
  time_start true s = false.
Proof. reflexivity. Qed.

Lemma stops_leading_word (s : str) :
  stops isword s = true -> leading_word s = [].
Proof.
  destruct s as [|c s]; [reflexivity|]. cbn [stops]. intros H.
  rewrite leading_word_cons. now destruct (isword c).
Qed.

Lemma time_start_cases (pw : bool) (s : str) :
  time_start pw s = true ->
  pw = false
  /\ exists c s', s = c :: s' /\ isword c = true
                  /\ run_length isword s = S (run_length isword s').
Proof.
  unfold time_start. intros H. apply andb_prop in H. destruct H as [Hp Ht].
  split; [now destruct pw|].
  destruct s as [|c s']; [discriminate Ht|].
  rewrite leading_word_cons in Ht. cbn [run_length].
  destruct (isword c) eqn:Wc; [|discriminate Ht].
  exists c, s'. auto.
Qed.

(** Substituting [_TIME_RE] away, from any state of the walk. *)
Lemma sub_time_states (s : str) :
  forall prev,
  (word_at prev = true ->
     leading_word (sub_go true _TIME_RE [] prev s 0) = leading_word s
     /\ time_free true (sub_go true _TIME_RE [] prev s 0) = true)
  /\ (word_at prev = false ->
        time_free false (sub_go true _TIME_RE [] prev s 0) = true
        /\ (time_start false s = false ->
            leading_word (sub_go true _TIME_RE [] prev s 0)
            = leading_word s))
  /\ (stops isword s = true ->
        time_free false (sub_go true _TIME_RE [] prev s 0) = true
        /\ stops isword (sub_go true _TIME_RE [] prev s 0) = true)
  /\ (forall skip, skip <> 0 -> skip <= length s ->
        stops isword (skipn skip s) = true ->
        time_free false (sub_go true _TIME_RE [] prev s skip) = true
        /\ stops isword (sub_go true _TIME_RE [] prev s skip) = true).
Proof.
  induction s as [|c s IH]; intros prev.
  - cbn [sub_go]. repeat split; intros; reflexivity.
  - assert (Hskip : forall skip, skip <= length s ->
              stops isword (skipn skip s) = true ->
              time_free false (sub_go true _TIME_RE [] (Some c) s skip) = true
              /\ stops isword (sub_go true _TIME_RE [] (Some c) s skip)
                 = true).
    { intros [|m] Hle Hst.
      - exact (proj1 (proj2 (proj2 (IH (Some c)))) Hst).
      - apply (proj2 (proj2 (proj2 (IH (Some c))))); auto. }
    assert (Hnomatch : time_start (word_at prev) (c :: s) = false ->
              sub_go true _TIME_RE [] prev (c :: s) 0
              = c :: sub_go true _TIME_RE [] (Some c) s 0).
    { intros H. cbn [sub_go]. rewrite time_match_len, H. reflexivity. }
    split; [|split; [|split]].
    + intros B. rewrite B in Hnomatch. rewrite (Hnomatch eq_refl).
      rewrite time_free_cons, !leading_word_cons. cbn [negb andb].
      destruct (isword c) eqn:Wc.
      * destruct (proj1 (IH (Some c)) Wc) as [L F]. rewrite L. auto.
      * destruct (proj1 (proj2 (IH (Some c))) Wc) as [F _]. auto.
    + intros B. rewrite B in Hnomatch.
      destruct (time_start false (c :: s)) eqn:T.
      * split; [|discriminate].
        destruct (time_start_cases _ _ T) as (_ & c' & s' & [= <- <-] & Wc & R).
        cbn [sub_go]. rewrite time_match_len, B, T, R. cbn [app].
        pose proof (run_length_le isword s).
        pose proof (run_length_stops isword s).
        now apply Hskip.
      * rewrite (Hnomatch eq_refl). rewrite time_free_cons, !leading_word_cons.
        destruct (isword c) eqn:Wc.
        -- destruct (proj1 (IH (Some c)) Wc) as [L F].
           assert (Ts : time_start false
                          (c :: sub_go true _TIME_RE [] (Some c) s 0) = false).
           { unfold time_start in T |- *.
             rewrite leading_word_cons, Wc in T |- *. now rewrite L. }
           rewrite Ts, L, F. auto.
        -- destruct (proj1 (proj2 (IH (Some c))) Wc) as [F _].
           rewrite time_start_empty_word
             by (rewrite leading_word_cons, Wc; reflexivity).
           rewrite F. auto.
    + intros St. cbn [stops] in St.
      assert (Wc : isword c = false) by (now destruct (isword c)).
      assert (T : time_start (word_at prev) (c :: s) = false)
        by (apply time_start_empty_word; rewrite leading_word_cons, Wc;
            reflexivity).
      rewrite (Hnomatch T), time_free_cons. cbn [stops]. rewrite Wc.
      rewrite time_start_empty_word
        by (rewrite leading_word_cons, Wc; reflexivity).
      destruct (proj1 (proj2 (IH (Some c))) Wc) as [F _]. rewrite F. auto.
    + intros [|m] Hn Hle Hst; [congruence|]. cbn [sub_go].
      cbn [skipn length] in Hst, Hle. apply Hskip; auto. lia.
Qed.

Lemma sub_time_free (s : str) :
  time_free false (sub true _TIME_RE [] s) = true.
Proof.
  unfold sub. now apply (proj1 (proj2 (sub_time_states s None))).
Qed.

Lemma space_not_word (c : ascii) : isspace c = true -> isword c = false.
Proof. destruct c as [[] [] [] [] [] [] [] []]; vm_compute; congruence. Qed.

Lemma comma_not_word (c : ascii) :
  existsb (Ascii.eqb c) (txt ",") = true -> isword c = false.
Proof.
  cbn [existsb txt list_ascii_of_string]. rewrite orb_false_r.
  intros E. apply Ascii.eqb_eq in E. now subst.
Qed.

Lemma time_free_lstrip (p : ascii -> bool) (s : str) :
  (forall c, p c = true -> isword c = false) ->
  time_free false s = true -> time_free false (lstrip_by p s) = true.
Proof.
  intros Hp. induction s as [|c s IH]; intros H; [exact H|].
  cbn [lstrip_by]. destruct (p c) eqn:Pc; [|exact H].
  apply IH. rewrite time_free_cons, (Hp c Pc) in H.
  apply andb_prop in H. tauto.
Qed.

Lemma leading_word_tail (r d : str) :
  forallb (fun c => negb (isword c)) d = true ->
  leading_word (r ++ d) = leading_word r.
Proof.
  intros Hd. induction r as [|c r IH]; cbn [app].
  - apply stops_leading_word. destruct d as [|x d]; [reflexivity|].
    cbn [forallb] in Hd. apply andb_prop in Hd. cbn [stops]. tauto.
  - rewrite !leading_word_cons, IH. reflexivity.
Qed.

Lemma time_free_prefix (r d : str) :
  forallb (fun c => negb (isword c)) d = true ->
  forall pw, time_free pw (r ++ d) = true -> time_free pw r = true.
Proof.
  intros Hd. induction r as [|c r IH]; intros pw H.
  - cbn [time_free]. rewrite andb_true_r.
    unfold time_start. change (leading_word []) with (@nil ascii).
    change (is_time_word (lower [])) with false. now rewrite andb_false_r.
  - cbn [app] in H. rewrite time_free_cons in H |- *.
    apply andb_prop in H. destruct H as [H1 H2].
    rewrite (IH _ H2), andb_true_r.
    unfold time_start in H1 |- *.
    change (c :: r ++ d) with ((c :: r) ++ d) in H1.
    now rewrite (leading_word_tail _ _ Hd) in H1.
Qed.

Lemma time_free_strip_by (p : ascii -> bool) (s : str) :
  (forall c, p c = true -> isword c = false) ->
  time_free false s = true -> time_free false (strip_by p s) = true.
Proof.
  intros Hp H. unfold strip_by.
  destruct (rstrip_by_decomp p (lstrip_by p s)) as (d & E & Hd).
  apply (time_free_prefix _ d).
  - rewrite forallb_forall in *. intros c Hc.
    now rewrite (Hp c (Hd c Hc)).
  - rewrite <- E. now apply time_free_lstrip.
Qed.

Lemma time_free_skipn (k : nat) (s : str) :
  forallb isspace (firstn k s) = true ->
  time_free false s = true -> time_free false (skipn k s) = true.
Proof.
  revert s. induction k as [|k IH]; intros s Hk H; [exact H|].
  destruct s as [|c s]; [exact H|]. cbn [firstn forallb skipn] in *.
  apply andb_prop in Hk. destruct Hk as [Hc Hk].
  apply IH; auto. rewrite time_free_cons, (space_not_word c Hc) in H.
  apply andb_prop in H. tauto.
Qed.

Lemma sub_spaces2_time_free (s : str) :
  forall prev,
  (forall pw, time_free pw s = true ->
     time_free pw (sub_go false SPACES2 (txt " ") prev s 0) = true
     /\ leading_word (sub_go false SPACES2 (txt " ") prev s 0)
        = leading_word s)
  /\ (forall skip, skip <> 0 -> skip <= length s ->
        time_free false (skipn skip s) = true ->
        time_free false (sub_go false SPACES2 (txt " ") prev s skip) = true).
Proof.
  induction s as [|c s IH]; intros prev.
  - cbn [sub_go]. split; [auto|]. intros skip _ _ _. reflexivity.
  - assert (Hskip : forall skip, skip <= length s ->
              time_free false (skipn skip s) = true ->
              time_free false (sub_go false SPACES2 (txt " ") (Some c) s skip)
              = true).
    { intros [|m] Hle H.
      - now apply (proj1 (IH (Some c)) false).
      - apply (proj2 (IH (Some c))); auto. }
    split.
    + intros pw H. cbn [sub_go]. rewrite spaces2_match_len.
      rewrite time_free_cons in H. apply andb_prop in H.
      destruct H as [H1 H2].
      destruct (Nat.leb_spec 2 (run_length isspace (c :: s))) as [L|L].
      * destruct (run_length isspace (c :: s)) as [|n] eqn:R; [lia|].
        cbn [run_length] in R.
        destruct (isspace c) eqn:Sc; [|discriminate R]. injection R as R.
        pose proof (space_not_word c Sc) as Wc. rewrite Wc in H2.
        cbn [txt list_ascii_of_string app].
        rewrite time_free_cons, !leading_word_cons, Wc.
        change (isword " "%char) with false. cbv iota.
        rewrite time_start_empty_word by reflexivity. cbn [negb andb].
        split; [|reflexivity].
        pose proof (run_length_le isspace s).
        apply Hskip; [lia|].
        apply time_free_skipn; auto. rewrite <- R. apply run_length_firstn.
      * destruct (proj1 (IH (Some c)) _ H2) as [F E].
        rewrite time_free_cons, !leading_word_cons, F, E, andb_true_r.
        split; [|reflexivity].
        unfold time_start in H1 |- *.
        now rewrite leading_word_cons, E in *.
    + intros [|m] Hn Hle H; [congruence|]. cbn [sub_go skipn length] in *.
      apply Hskip; auto. lia.
Qed.

Lemma cleanup_time_free (raw : str) : time_free false (cleanup raw) = true.
Proof.
  unfold cleanup, strip, strip_chars.
  apply time_free_strip_by; [exact comma_not_word|].
  apply time_free_strip_by; [exact space_not_word|].
  unfold sub at 1.
  apply (proj1 (sub_spaces2_time_free _ None) false).
  apply time_free_strip_by; [exact space_not_word|].
  apply sub_time_free.
Qed.

Lemma time_search_free (s : str) :
  forall prev i,
  search_from true _TIME_RE prev s i = None <->
  time_free (word_at prev) s = true.
Proof.
  induction s as [|c s IH]; intros prev i; cbn [search_from].
  - pose proof (time_match_len prev []) as M. unfold match_len in M.
    cbn [time_free]. rewrite andb_true_r.
    destruct (match_at true _TIME_RE prev []);
      destruct (time_start (word_at prev) []); try discriminate M;
      split; intros; cbn [negb] in *; congruence.
  - pose proof (time_match_len prev (c :: s)) as M. unfold match_len in M.
    rewrite time_free_cons.
    destruct (match_at true _TIME_RE prev (c :: s));
      destruct (time_start (word_at prev) (c :: s)); try discriminate M.
    + split; discriminate.
    + cbn [negb andb]. apply (IH (Some c)).
Qed.

(** X18: no time word is left in a sanitized location: searched again
    for [_TIME_RE] (now, today, yesterday, last, this, next, week, month
    and the month names and their three-letter forms, as whole words in
    any case), it gives no match. *)
Theorem X18_sanitize_removes_time_words (raw loc : str) :
  sanitize_location (Some raw) = Some loc ->
  search true _TIME_RE loc = None.
Proof.
  intros H. apply sanitize_location_cleanup in H. destruct H as [-> _].
  unfold search. apply (time_search_free _ None 0). apply cleanup_time_free.
Qed.

Lemma X18_sanitize_witness :
  search true _TIME_RE (txt "Lima - Mayo") = None.
Proof.
  apply (X18_sanitize_removes_time_words
           (txt "Lima (last May) next-week Mayo") (txt "Lima - Mayo")).
  vm_compute; reflexivity.
Defined.

(* ================================================================== *)
(** ** Further properties: what reaches the provider *)

Lemma candidate_time_free (location : option str) (c : str) :
  In c (candidates location) -> search true _TIME_RE c = None.
Proof.
  intros Hin. destruct (candidate_source _ _ Hin) as (piece & _ & Hs).
  destruct (sanitize_location_cleanup _ _ Hs) as [-> _].
  unfold search. apply (time_search_free _ None 0). apply cleanup_time_free.
Qed.

(** X19: when a query passes the three checks and a credential is
    configured, the requests the orchestrator adds to the log are as many
    as the candidates, and each goes to the current-weather endpoint with
    the credential, in metric units, for a location that is not empty, is
    trimmed and single-spaced, holds none of [,] [;] [/] [|] [(] [)] and
    no time word. *)
Theorem X19_requests_content
    (getenv : str -> option str)
    (requests_get : list request -> request -> str + response)
    (metric location : option str) (log : netlog) (key : str) :
  preconditions metric location = true ->
  env_api_key getenv = Some key ->
  exists sent,
    snd (api_get_metric getenv requests_get metric location log) = log ++ sent
    /\ length sent = length (candidates location)
    /\ Forall (fun r =>
                 url r = OWM_URL /\ appid r = key /\ units r = txt "metric"
                 /\ q r <> [] /\ strip (q r) = q r
                 /\ single_spaced (q r) = true
                 /\ (forall x, In x PUNCTUATION -> ~ In x (q r))
                 /\ search true _TIME_RE (q r) = None)
              sent.
Proof.
  intros H Hk. exists (map (request_for key) (candidates location)).
  split; [|split].
  - rewrite (api_get_metric_passed_log getenv requests_get _ _ _ H), Hk.
    pose proof (env_api_key_cases getenv) as Hc. rewrite Hk in Hc.
    apply attempts_log; [tauto|apply candidates_not_empty].
  - apply length_map.
  - apply Forall_forall. intros r Hr. apply in_map_iff in Hr.
    destruct Hr as (c & <- & Hc). cbn [request_for url appid units q].
    destruct (candidate_clean _ _ Hc) as (H1 & H2 & H3 & H4).
    pose proof (candidate_time_free _ _ Hc). auto 10.
Qed.

Lemma X19_requests_witness :
  exists sent,
    snd (api_get_metric env_with_key network_down (Some (txt "rainfall"))
           (Some (txt "Lima (next week) and  Quito,")) [])
    = [] ++ sent
    /\ length sent
       = length (candidates (Some (txt "Lima (next week) and  Quito,")))
    /\ Forall (fun r =>
                 url r = OWM_URL /\ appid r = txt "k3y"
                 /\ units r = txt "metric"
                 /\ q r <> [] /\ strip (q r) = q r
                 /\ single_spaced (q r) = true
                 /\ (forall x, In x PUNCTUATION -> ~ In x (q r))
                 /\ search true _TIME_RE (q r) = None)
              sent.
Proof.
  apply (X19_requests_content env_with_key network_down
           (Some (txt "rainfall"))
           (Some (txt "Lima (next week) and  Quito,")) [] (txt "k3y"));
    vm_compute; reflexivity.
Defined.

(* ================================================================== *)
(** ** Further properties: blank locations *)

Lemma sub_parens_blank (s : str) :
  Forall (fun c => isspace c = true \/ c = "("%char \/ c = ")"%char) s ->
  forall prev skip,
  Forall (fun c => isspace c = true)
         (sub_go false PARENS (txt " ") prev s skip).
Proof.
  induction 1 as [|c s Hc Hs IH]; intros prev skip; cbn [sub_go];
    [constructor|].
  destruct skip as [|n]; [|apply IH].
  rewrite parens_match_len.
  destruct (cls_ok false _ c) eqn:E.
  - constructor; [reflexivity|apply IH].
  - constructor; [|apply IH].
    destruct (not_paren c E) as [N1 N2].
    destruct Hc as [Hc|[Hc|Hc]]; congruence.
Qed.

Lemma lstrip_by_all (p : ascii -> bool) (s : str) :
  Forall (fun c => p c = true) s -> lstrip_by p s = [].
Proof.
  induction 1 as [|c s Hc Hs IH]; cbn [lstrip_by]; [reflexivity|].
  now rewrite Hc.
Qed.

Lemma strip_by_all (p : ascii -> bool) (s : str) :
  Forall (fun c => p c = true) s -> strip_by p s = [].
Proof.
  intros H. unfold strip_by. now rewrite (lstrip_by_all p s H).
Qed.

(** X20: a location made of nothing but whitespace and parentheses is
    sanitized to absent. *)
Theorem X20_blank_location_absent (raw : str) :
  Forall (fun c => isspace c = true \/ c = "("%char \/ c = ")"%char) raw ->
  sanitize_location (Some raw) = None.
Proof.
  intros H. unfold sanitize_location.
  destruct (negb (truthy raw)); [reflexivity|].
  unfold cleanup, strip, sub.
  rewrite (strip_by_all isspace _ (sub_parens_blank raw H None 0)).
  reflexivity.
Qed.

Lemma X20_blank_location_witness :
  sanitize_location (Some (txt " ( ) ")) = None.
Proof.
  apply (X20_blank_location_absent (txt " ( ) ")).
  repeat (apply Forall_cons;
          [first [ left; reflexivity
                 | right; left; reflexivity
                 | right; right; reflexivity ]|]).
  apply Forall_nil.
Defined.

(* ================================================================== *)
(** ** Further properties: from the extractor to the orchestrator *)

Lemma lexicon_lower_case (m : str) :
  In m lexicon_order -> lower m = m /\ known_metric m = true.
Proof.
  unfold lexicon_order. simpl.
  intros [<-|[<-|[<-|[<-|[<-|[]]]]]]; split; reflexivity.
Qed.

Lemma metrics_in_lexicon (text m : str) :
  In m (metrics (extract_metrics text)) -> In m lexicon_order.
Proof.
  rewrite metrics_filter, in_map_iff. intros (kv & <- & Hin).
  apply filter_In in Hin. destruct Hin as [Hin _].
  unfold lexicon_order. now apply in_map.
Qed.

Lemma answer_of_not_message
    (os : list (MetricQueryResult + MetricQueryError)) (msg : str) :
  answer_of os <> HTTPException 400 (Message msg).
Proof. unfold answer_of. destruct (lefts os), (rights os); discriminate. Qed.

(** X21: every metric the extractor reports is accepted by the
    orchestrator as it stands: it is lower-case already and one of the
    lexicon, so a query for it is never answered "not supported"; it is
    answered with a 400 exactly when its location is missing or leaves no
    candidate, and otherwise from one attempt per candidate, each made
    for that very metric. *)
Theorem X21_extracted_metric_accepted (text m : str)
    (getenv : str -> option str)
    (requests_get : list request -> request -> str + response)
    (location : option str) (log : netlog) :
  In m (metrics (extract_metrics text)) ->
  lower m = m
  /\ known_metric m = true
  /\ fst (api_get_metric getenv requests_get (Some m) location log)
     <> HTTPException 400
          (Message (txt "Metric '" ++ m ++ txt "' not supported."))
  /\ ((exists msg,
         fst (api_get_metric getenv requests_get (Some m) location log)
         = HTTPException 400 (Message msg))
      <-> missing location = true \/ candidates location = [])
  /\ (missing location = false -> candidates location <> [] ->
      fst (api_get_metric getenv requests_get (Some m) location log)
      = answer_of (fst (attempts requests_get m (env_api_key getenv)
                          (candidates location) log))).
Proof.
  intros H. apply metrics_in_lexicon in H.
  destruct (lexicon_lower_case _ H) as [L K].
  split; [exact L|]. split; [exact K|].
  assert (Passed : missing location = false -> candidates location <> [] ->
            fst (api_get_metric getenv requests_get (Some m) location log)
            = answer_of (fst (attempts requests_get m (env_api_key getenv)
                                (candidates location) log))).
  { intros Hl Hc.
    assert (P : preconditions (Some m) location = true).
    { unfold preconditions, metric_of. unfold missing in Hl.
      apply negb_false_iff in Hl. rewrite L, K, Hl.
      destruct (candidates location); [now destruct Hc|reflexivity]. }
    rewrite (api_get_metric_passed getenv requests_get _ _ log P).
    unfold outcomes, metric_of. rewrite L. reflexivity. }
  destruct (missing location) eqn:Hl.
  - assert (E : fst (api_get_metric getenv requests_get (Some m) location log)
              = HTTPException 400
                  (Message (txt "`location` query param is required"))).
    { unfold api_get_metric. rewrite L, K. unfold missing in Hl.
      rewrite Hl. reflexivity. }
    split; [rewrite E; discriminate|].
    split; [|discriminate].
    split; [now left|]. intros _. rewrite E. eauto.
  - destruct (candidates location) as [|c cs] eqn:Hc.
    + assert (E : fst (api_get_metric getenv requests_get (Some m) location
                         log)
                = HTTPException 400
                    (Message (txt
                       "No valid location found after parsing/sanitization"))).
      { unfold api_get_metric. rewrite L, K. unfold missing in Hl.
        rewrite Hl. unfold candidates in Hc. rewrite Hc. reflexivity. }
      split; [rewrite E; discriminate|].
      split; [|intros _ N; now destruct N].
      split; [now right|]. intros _. rewrite E. eauto.
    + assert (Hc' : c :: cs <> []) by discriminate.
      specialize (Passed eq_refl Hc').
      split; [rewrite Passed; apply answer_of_not_message|].
      split; [|intros _ _; exact Passed].
      split.
      * intros (msg & E). rewrite Passed in E.
        now apply answer_of_not_message in E.
      * intros [N|N]; discriminate N.
Qed.

Lemma X21_extracted_metric_witness :
  In (txt "wind_speed") (metrics (extract_metrics (txt "Windy in Oslo")))
  /\ fst (api_get_metric env_with_key provider_paris
            (Some (txt "wind_speed")) (Some (txt "Oslo")) [])
     <> HTTPException 400
          (Message (txt "Metric '" ++ txt "wind_speed"
                    ++ txt "' not supported.")).
Proof.
  assert (H : In (txt "wind_speed")
                (metrics (extract_metrics (txt "Windy in Oslo"))))
    by (vm_compute; left; reflexivity).
  split; [exact H|].
  exact (proj1 (proj2 (proj2
           (X21_extracted_metric_accepted (txt "Windy in Oslo")
              (txt "wind_speed") env_with_key provider_paris
              (Some (txt "Oslo")) [] H)))).
Defined.

(* ================================================================== *)
(** ** Further properties: the case of the text *)

Lemma isspace_lower_char (c : ascii) : isspace (lower_char c) = isspace c.
Proof. destruct c as [[] [] [] [] [] [] [] []]; vm_compute; reflexivity. Qed.

Lemma location_char_lower (c : ascii) :
  location_char (lower_char c) = location_char c.
Proof. destruct c as [[] [] [] [] [] [] [] []]; vm_compute; reflexivity. Qed.

Lemma word_prefix_lower (v s : str) :
  word_prefix true v (lower s) = word_prefix true v s.
Proof.
  revert s. induction v as [|x v IH]; intros s; [reflexivity|].
  destruct s as [|c s]; [reflexivity|].
  cbn [lower map word_prefix]. unfold lit_ok.
  rewrite lower_char_idem. unfold lower in IH. now rewrite IH.
Qed.

Lemma run_length_lower (s : str) :
  run_length location_char (lower s) = run_length location_char s.
Proof.
  induction s as [|c s IH]; [reflexivity|].
  cbn [lower map run_length]. unfold lower in IH.
  now rewrite location_char_lower, IH.
Qed.

Lemma place_here_lower (s : str) :
  place_here (lower s) = option_map lower (place_here s).
Proof.
  unfold place_here.
  assert (E : skipn 3 (lower s) = lower (skipn 3 s))
    by (unfold lower; apply skipn_map).
  rewrite word_prefix_lower, E, run_length_lower.
  destruct (word_prefix true (txt "in ") s && _)%bool; [|reflexivity].
  cbn [option_map]. f_equal. unfold lower. apply firstn_map.
Qed.

Lemma find_place_lower (s : str) :
  find_place (lower s) = option_map lower (find_place s).
Proof.
  induction s as [|c s IH].
  - reflexivity.
  - change (lower (c :: s)) with (lower_char c :: lower s).
    cbn [find_place]. change (lower_char c :: lower s) with (lower (c :: s)).
    rewrite place_here_lower.
    destruct (place_here (c :: s)); [reflexivity|exact IH].
Qed.

Lemma lstrip_lower (s : str) :
  lstrip_by isspace (lower s) = lower (lstrip_by isspace s).
Proof.
  induction s as [|c s IH]; [reflexivity|].
  cbn [lower map lstrip_by]. rewrite isspace_lower_char.
  destruct (isspace c); [exact IH|reflexivity].
Qed.

Lemma strip_lower (s : str) : strip (lower s) = lower (strip s).
Proof.
  unfold strip, strip_by, rstrip_by.
  rewrite lstrip_lower.
  assert (R : forall t, rev (lower t) = lower (rev t))
    by (intros t; unfold lower; symmetry; apply map_rev).
  now rewrite R, lstrip_lower, R.
Qed.

Lemma location_lower (text : str) :
  location (extract_metrics (lower text))
  = option_map lower (location (extract_metrics text)).
Proof.
  rewrite !location_find_place, find_place_lower.
  destruct (find_place text); cbn [option_map]; [|reflexivity].
  now rewrite strip_lower.
Qed.

(** X22, for texts of Latin-1 characters (code points below 256, the
    characters [str] holds): the extraction does not depend on the case
    of such a text: two of them that differ in case only give the same
    metrics and the same time, and the same location up to case.  Texts
    with characters beyond Latin-1 are outside this statement. *)
Theorem X22_extraction_ignores_case (text1 text2 : str) :
  lower text1 = lower text2 ->
  metrics (extract_metrics text1) = metrics (extract_metrics text2)
  /\ time (extract_metrics text1) = time (extract_metrics text2)
  /\ option_map lower (location (extract_metrics text1))
     = option_map lower (location (extract_metrics text2)).
Proof.
  intros E. rewrite !metrics_filter, !time_first_word, E.
  split; [reflexivity|]. split; [reflexivity|].
  now rewrite <- !location_lower, E.
Qed.

Lemma X22_extraction_witness :
  metrics (extract_metrics (txt "RAIN IN OSLO TODAY"))
  = metrics (extract_metrics (txt "Rain in Oslo today"))
  /\ time (extract_metrics (txt "RAIN IN OSLO TODAY"))
     = time (extract_metrics (txt "Rain in Oslo today"))
  /\ option_map lower (location (extract_metrics (txt "RAIN IN OSLO TODAY")))
     = option_map lower
         (location (extract_metrics (txt "Rain in Oslo today"))).
Proof.
  apply (X22_extraction_ignores_case (txt "RAIN IN OSLO TODAY")
           (txt "Rain in Oslo today")).
  vm_compute; reflexivity.
Defined.

(* ================================================================== *)
(** ** Where the separators cut *)

Lemma isspace_not_a (c : ascii) :
  isspace c = true -> lit_ok true "a" c = false.
Proof.
  destruct c as [[] [] [] [] [] [] [] []]; vm_compute; intros H;
    first [discriminate H|reflexivity].
Qed.

Lemma isspace_not_punct (c : ascii) :
  isspace c = true -> existsb (Ascii.eqb c) (txt ",;/|") = false.
Proof.
  destruct c as [[] [] [] [] [] [] [] []]; vm_compute; intros H;
    first [discriminate H|reflexivity].
Qed.

Lemma lit_ok_punct (x c : ascii) :
  In x (txt ",;/|") -> lit_ok true x c = Ascii.eqb c x.
Proof.
  intros Hx. unfold lit_ok.
  destruct (Ascii.eqb_spec c x) as [->|N].
  - apply Ascii.eqb_refl.
  - apply Ascii.eqb_neq. intros E. apply N.
    now apply (lower_char_punct x c Hx).
Qed.

(** The shorter repetitions all stop inside the run. *)
Lemma rep_exec_tl (ok : ascii -> bool) (s : str) :
  forall lo prev e,
  In e (tl (rep_exec ok lo prev s)) -> stops ok (snd e) = false.
Proof.
  induction s as [|c s IH]; intros lo prev e; cbn [rep_exec].
  - destruct (Nat.eqb lo 0); cbn [tl]; contradiction.
  - destruct (ok c) eqn:Oc.
    + destruct (rep_exec ok (Nat.pred lo) (Some c) s) as [|e0 l] eqn:R.
      * cbn [app]. destruct (Nat.eqb lo 0); cbn [tl]; contradiction.
      * cbn [app tl]. intros H. apply in_app_or in H. destruct H as [H|H].
        -- apply (IH (Nat.pred lo) (Some c)). rewrite R. exact H.
        -- destruct (Nat.eqb lo 0); [|contradiction].
           destruct H as [<-|[]]. cbn [snd stops]. now rewrite Oc.
    + destruct (Nat.eqb lo 0); cbn [tl]; contradiction.
Qed.

(** The ways [\s+] matches: the whole run of whitespace first, and then
    only positions that have whitespace ahead. *)
Lemma exec_spaces (p : pos) :
  (exec true (Rep [Space] 1) p = [] /\ run_length isspace (after p) = 0)
  \/ exists o l,
       exec true (Rep [Space] 1) p
       = Pos o (skipn (run_length isspace (after p)) (after p)) (group1 p)
         :: l
       /\ 1 <= run_length isspace (after p)
       /\ forall x, In x l ->
                    exists c t, after x = c :: t /\ isspace c = true.
Proof.
  cbn [exec].
  pose proof (rep_exec_hd (cls_ok true [Space]) (after p) 1 (before p)) as H.
  pose proof (rep_exec_tl (cls_ok true [Space]) (after p) 1 (before p)) as T.
  rewrite (run_length_ext _ isspace (after p) cls_ok_space) in H.
  destruct (rep_exec (cls_ok true [Space]) 1 (before p) (after p))
    as [|[o s'] l]; cbn [hd_error option_map snd tl map fst] in H, T |- *.
  - left. split; [reflexivity|].
    destruct (Nat.leb_spec 1 (run_length isspace (after p)));
      [discriminate H|lia].
  - right.
    destruct (Nat.leb_spec 1 (run_length isspace (after p)));
      [|discriminate H].
    injection H as ->.
    eexists o, _. split; [reflexivity|]. split; [assumption|].
    intros x Hx. apply in_map_iff in Hx. destruct Hx as (e & <- & He).
    specialize (T e He). cbn [after].
    destruct (snd e) as [|c t]; [discriminate T|].
    exists c, t. split; [reflexivity|].
    cbn [stops] in T. apply negb_false_iff in T.
    now rewrite cls_ok_space in T.
Qed.

Lemma flat_map_dead (f : pos -> list pos) (l : list pos) :
  (forall x, In x l -> f x = []) -> flat_map f l = [].
Proof.
  induction l as [|x l IH]; intros H; cbn [flat_map]; [reflexivity|].
  rewrite (H x) by now left. cbn [app]. apply IH.
  intros y Hy. apply H. now right.
Qed.

Lemma flat_map_unit (l : list pos) : flat_map (exec true Eps) l = l.
Proof.
  induction l as [|x l IH]; cbn [flat_map]; [reflexivity|].
  rewrite IH. reflexivity.
Qed.

(** With whitespace ahead, "and" does not match. *)
Lemma exec_and_dead (r : regex) (x : pos) :
  (exists c t, after x = c :: t /\ isspace c = true) ->
  exec true (Seq (word "and") r) x = [].
Proof.
  intros (c & t & E & H). cbn [exec]. unfold word. rewrite exec_word, E.
  change (txt "and") with ["a"%char; "n"%char; "d"%char].
  cbn [word_prefix]. rewrite (isspace_not_a c H). reflexivity.
Qed.

(** What [\s+and\s+] takes at a position. *)
Lemma and_match_rest (prev : option ascii) (s : str) (g : option str) :
  option_map after (hd_error (exec true AND_SEPARATOR (Pos prev s g)))
  = and_rest s.
Proof.
  unfold AND_SEPARATOR, and_rest. cbn [seqs].
  change (exec true (Seq (Rep [Space] 1)
                       (Seq (word "and") (Seq (Rep [Space] 1) Eps)))
            (Pos prev s g))
    with (flat_map (exec true (Seq (word "and") (Seq (Rep [Space] 1) Eps)))
            (exec true (Rep [Space] 1) (Pos prev s g))).
  destruct (exec_spaces (Pos prev s g)) as [[E R]|(o & l & E & R & T)];
    cbn [after group1] in E, R; rewrite E.
  - rewrite R. reflexivity.
  - cbn [flat_map].
    rewrite (flat_map_dead _ l
               (fun x Hx => exec_and_dead _ x (T x Hx))), app_nil_r.
    destruct (Nat.leb_spec 1 (run_length isspace s)); [|lia].
    cbn [andb]. set (t := skipn (run_length isspace s) s).
    change (exec true (Seq (word "and") (Seq (Rep [Space] 1) Eps))
              (Pos o t g))
      with (flat_map (exec true (Seq (Rep [Space] 1) Eps))
              (exec true (word "and") (Pos o t g))).
    unfold word. rewrite exec_word. cbn [after before group1].
    destruct (word_prefix true (txt "and") t); [|reflexivity].
    cbn [flat_map andb]. rewrite app_nil_r.
    change (length (txt "and")) with 3.
    set (u := skipn 3 t).
    set (o' := last_before (firstn 3 t) o).
    change (exec true (Seq (Rep [Space] 1) Eps) (Pos o' u g))
      with (flat_map (exec true Eps) (exec true (Rep [Space] 1) (Pos o' u g))).
    rewrite flat_map_unit.
    destruct (exec_spaces (Pos o' u g)) as [[E' R']|(o2 & l2 & E' & R' & _)];
      cbn [after group1] in E', R'; rewrite E'.
    + rewrite R'. reflexivity.
    + destruct (Nat.leb_spec 1 (run_length isspace u)); [|lia].
      reflexivity.
Qed.

(** What one of the four characters takes at a position. *)
Lemma punct_match_rest (p : pos) :
  option_map after
    (hd_error (exec true (word ",") p ++ exec true (word ";") p
               ++ exec true (word "/") p ++ exec true (word "|") p))
  = punct_rest (after p).
Proof.
  unfold word. rewrite !exec_word. unfold punct_rest.
  destruct (after p) as [|c t]; [reflexivity|].
  change (txt ",") with [","%char]. change (txt ";") with [";"%char].
  change (txt "/") with ["/"%char]. change (txt "|") with ["|"%char].
  change (txt ",;/|") with [","%char; ";"%char; "/"%char; "|"%char].
  cbn [word_prefix existsb length skipn].
  rewrite !andb_true_r, !lit_ok_punct by (simpl; tauto).
  destruct (Ascii.eqb c ","); [reflexivity|].
  destruct (Ascii.eqb c ";"); [reflexivity|].
  destruct (Ascii.eqb c "/"); [reflexivity|].
  destruct (Ascii.eqb c "|"); reflexivity.
Qed.

(** The separator taken at a position does not depend on what stands
    before it. *)
Lemma separators_match_rest (prev : option ascii) (s : str) :
  option_map after (match_at true SEPARATORS prev s) = separator_rest s.
Proof.
  unfold match_at, separator_rest. rewrite separators_exec.
  pose proof (and_match_rest prev s None) as A.
  pose proof (punct_match_rest (Pos prev s None)) as P.
  cbn [after] in P.
  destruct (exec true AND_SEPARATOR (Pos prev s None)) as [|q l];
    cbn [hd_error option_map app] in A |- *.
  - rewrite <- A. exact P.
  - rewrite <- A. reflexivity.
Qed.

Lemma separators_match_len (prev : option ascii) (s : str) :
  match_len true SEPARATORS prev s
  = option_map (fun t => length s - length t) (separator_rest s).
Proof.
  unfold match_len. rewrite <- (separators_match_rest prev s).
  destruct (match_at true SEPARATORS prev s); reflexivity.
Qed.

Lemma run_length_whole (ok : ascii -> bool) (w t : str) :
  forallb ok w = true -> stops ok t = true ->
  run_length ok (w ++ t) = length w.
Proof.
  intros Hw Ht. induction w as [|c w IH]; cbn [app run_length length].
  - destruct t as [|d t]; [reflexivity|]. cbn [stops] in Ht.
    cbn [run_length]. apply negb_true_iff in Ht. now rewrite Ht.
  - cbn [forallb] in Hw. apply andb_prop in Hw. destruct Hw as [Hc Hw].
    rewrite Hc, IH; auto.
Qed.

Lemma run_length_part (ok : ascii -> bool) (w t : str) :
  forallb ok w = true -> length w <= run_length ok (w ++ t).
Proof.
  intros Hw. induction w as [|c w IH]; cbn [app run_length length]; [lia|].
  cbn [forallb] in Hw. apply andb_prop in Hw. destruct Hw as [Hc Hw].
  rewrite Hc. specialize (IH Hw). lia.
Qed.

Lemma and_word (w : str) :
  lower w = txt "and" ->
  length w = 3 /\ forall t, stops isspace (w ++ t) = true.
Proof.
  intros E. destruct w as [|a [|n [|d [|x w]]]]; try discriminate E.
  split; [reflexivity|]. intros t. cbn [app stops].
  destruct (isspace a) eqn:S; [|reflexivity].
  apply isspace_not_a in S. unfold lit_ok in S.
  cbn in E. injection E as Ea _ _. rewrite Ea in S.
  discriminate S.
Qed.

(** The separator taken at a position is the longest one there. *)
Lemma separators_longest (prev : option ascii) (s d post : str) (n : nat) :
  match_len true SEPARATORS prev s = Some n ->
  s = d ++ post -> separator d -> length d <= n.
Proof.
  rewrite separators_match_len. intros M -> Hd.
  destruct Hd as [ws1 w ws2 N1 N2 S1 S2 Lw|c Hc].
  - destruct (and_word w Lw) as [L3 Hw].
    assert (R1 : run_length isspace ((ws1 ++ w ++ ws2) ++ post)
                 = length ws1).
    { rewrite <- !app_assoc. apply run_length_whole; auto. }
    assert (T : skipn (length ws1) ((ws1 ++ w ++ ws2) ++ post)
                = w ++ ws2 ++ post).
    { rewrite <- !app_assoc. rewrite skipn_app, Nat.sub_diag, skipn_all.
      reflexivity. }
    assert (U : skipn 3 (w ++ ws2 ++ post) = ws2 ++ post).
    { rewrite <- L3, skipn_app, Nat.sub_diag, skipn_all. reflexivity. }
    assert (P : word_prefix true (txt "and") (w ++ ws2 ++ post) = true).
    { apply word_prefix_true_iff. exists w, (ws2 ++ post). split; auto. }
    pose proof (run_length_part isspace ws2 post S2) as R2.
    pose proof (run_length_le isspace (ws2 ++ post)) as R3.
    assert (L1 : 1 <= length ws1) by (destruct ws1; [congruence|simpl; lia]).
    assert (L2 : 1 <= length ws2) by (destruct ws2; [congruence|simpl; lia]).
    unfold separator_rest, and_rest in M. rewrite R1, T, U, P in M.
    destruct (Nat.leb_spec 1 (length ws1)); [|lia].
    destruct (Nat.leb_spec 1 (run_length isspace (ws2 ++ post))); [|lia].
    cbn [andb option_map] in M. injection M as <-.
    rewrite length_skipn, !length_app in *. lia.
  - unfold separator_rest, and_rest in M.
    cbn [app length]. destruct n; [|lia]. exfalso.
    assert (Sc : isspace c = false).
    { destruct (isspace c) eqn:S; [|reflexivity].
      apply isspace_not_punct in S.
      assert (X : existsb (Ascii.eqb c) (txt ",;/|") = true).
      { apply existsb_exists. exists c. split; [exact Hc|].
        apply Ascii.eqb_refl. }
      congruence. }
    cbn [app run_length] in M. rewrite Sc in M. cbn [Nat.leb andb] in M.
    cbn [punct_rest] in M.
    assert (X : existsb (Ascii.eqb c) (txt ",;/|") = true).
    { apply existsb_exists. exists c. split; [exact Hc|].
      apply Ascii.eqb_refl. }
    rewrite X in M. cbn [option_map length] in M.
    assert (M' : S (length post) - length post = 0) by congruence. lia.
Qed.

Lemma separators_cases (prev : option ascii) (s : str) :
  (exists n d rest, match_len true SEPARATORS prev s = Some (S n)
                    /\ s = d ++ rest /\ length d = S n /\ separator d)
  \/ ((forall n, match_len true SEPARATORS prev s <> Some (S n))
      /\ forall d rest, s = d ++ rest -> ~ separator d).
Proof.
  apply (match_len_cases true SEPARATORS separator separators_sound
           separators_complete separator_not_empty).
Qed.

Lemma split_go_prev (s : str) :
  forall prev prev' skip,
  split_go true SEPARATORS prev s skip
  = split_go true SEPARATORS prev' s skip.
Proof.
  destruct s as [|c s]; intros prev prev' skip; [reflexivity|].
  cbn [split_go]. destruct skip; [|reflexivity].
  now rewrite (separators_match_len prev), (separators_match_len prev').
Qed.

Lemma split_go_skip (s : str) :
  forall prev skip, skip <= length s ->
  split_go true SEPARATORS prev s skip
  = split_go true SEPARATORS None (skipn skip s) 0.
Proof.
  induction s as [|c s IH]; intros prev skip Hs.
  - cbn [length] in Hs. assert (skip = 0) by lia. subst. reflexivity.
  - destruct skip as [|n].
    + cbn [skipn]. apply split_go_prev.
    + cbn [skipn]. cbn [length] in Hs.
      change (split_go true SEPARATORS prev (c :: s) (S n))
        with (split_go true SEPARATORS (Some c) s n).
      apply IH. lia.
Qed.

(** Before the first separator nothing is cut. *)
Lemma split_go_segment (seg t : str) :
  (forall pre d post,
      seg ++ t = pre ++ d ++ post -> separator d ->
      length seg <= length pre) ->
  exists p ps,
    split_go true SEPARATORS None t 0 = p :: ps
    /\ split_go true SEPARATORS None (seg ++ t) 0 = (seg ++ p) :: ps.
Proof.
  induction seg as [|c seg IH]; intros H.
  - cbn [app].
    destruct (split_go_shape true SEPARATORS separator separators_sound
                separators_complete separator_not_empty t None 0
                (Nat.le_0_l _)) as (seps & L & _).
    destruct (split_go true SEPARATORS None t 0) as [|p ps];
      [discriminate L|].
    exists p, ps. split; reflexivity.
  - destruct IH as (p & ps & E1 & E2).
    { intros pre d post E Hd.
      specialize (H (c :: pre) d post). cbn [app length] in H.
      rewrite E in H. specialize (H eq_refl Hd). lia. }
    exists p, ps. split; [exact E1|].
    cbn [app split_go].
    destruct (separators_cases None (c :: seg ++ t))
      as [(n & d & rest & M & E & Hl & Hd)|[Hno _]].
    + specialize (H [] d rest). cbn [app length] in H.
      specialize (H E Hd). lia.
    + destruct (match_len true SEPARATORS None (c :: seg ++ t))
        as [[|n]|] eqn:M;
        try (rewrite (split_go_prev _ (Some c) None), E2; reflexivity).
      now destruct (Hno n).
Qed.

(** At a separator that is the longest one there, the cut takes it all. *)
Lemma split_go_cut (d rest : str) :
  separator d ->
  (forall d' post,
      d ++ rest = d' ++ post -> separator d' -> length d' <= length d) ->
  split_go true SEPARATORS None (d ++ rest) 0
  = [] :: split_go true SEPARATORS None rest 0.
Proof.
  intros Hd Hmax.
  destruct (separators_cases None (d ++ rest))
    as [(n & d0 & rest0 & M & E & Hl & Hd0)|[_ Hfree]];
    [|now destruct (Hfree d rest eq_refl)].
  pose proof (Hmax d0 rest0 E Hd0) as L1.
  pose proof (separators_longest None (d ++ rest) d rest (S n) M eq_refl Hd)
    as L2.
  assert (Ld : length d = S n) by lia.
  destruct d as [|c d]; [discriminate Ld|].
  cbn [app] in M |- *. cbn [split_go]. rewrite M. f_equal.
  cbn [length] in Ld. injection Ld as Ld.
  rewrite split_go_skip by (rewrite length_app; lia).
  now rewrite <- Ld, skipn_app, Nat.sub_diag, skipn_all.
Qed.

(** A string cut as [divided] tells is cut as [re.split] cuts it. *)
Lemma divided_split (raw : str) (segs seps : list str) :
  divided raw segs seps -> split true SEPARATORS raw = segs.
Proof.
  unfold split.
  induction 1 as [s Hfree|seg d rest segs seps Hd Hleft Hmax D IH].
  - destruct (split_go_segment s []) as (p & ps & E1 & E2).
    { intros pre d post E Hd. rewrite app_nil_r in E.
      now destruct (Hfree pre d post E). }
    cbn [split_go] in E1. injection E1 as <- <-.
    now rewrite !app_nil_r in E2.
  - destruct (split_go_segment seg (d ++ rest) Hleft)
      as (p & ps & E1 & E2).
    rewrite (split_go_cut d rest Hd Hmax), IH in E1.
    injection E1 as <- <-. now rewrite app_nil_r in E2.
Qed.

Lemma divided_join (raw : str) (segs seps : list str) :
  divided raw segs seps ->
  raw = join segs seps /\ length segs = S (length seps)
  /\ Forall separator seps.
Proof.
  induction 1 as [s Hfree|seg d rest segs seps Hd Hleft Hmax D IH].
  - repeat split; auto.
  - destruct IH as (J & L & F).
    split; [|split; [cbn [length]; now rewrite L|now constructor]].
    change (join (seg :: segs) (d :: seps))
      with (seg ++ d ++ join segs seps).
    now rewrite <- J.
Qed.

(** Where the first separator of a string begins, if it has one. *)
Lemma first_separator (s : str) :
  (forall pre d post, s = pre ++ d ++ post -> ~ separator d)
  \/ exists seg d rest,
       s = seg ++ d ++ rest /\ separator d
       /\ (forall pre d' post,
              seg ++ d ++ rest = pre ++ d' ++ post -> separator d' ->
              length seg <= length pre)
       /\ (forall d' post,
              d ++ rest = d' ++ post -> separator d' ->
              length d' <= length d).
Proof.
  induction s as [|c s IH].
  - left. intros pre d post E Hd.
    destruct pre; [|discriminate E]. destruct d; [|discriminate E].
    now apply separator_not_empty.
  - destruct (separators_cases None (c :: s))
      as [(n & d & rest & M & E & Hl & Hd)|[_ Hfree]].
    + right. exists [], d, rest. cbn [app length].
      split; [exact E|]. split; [exact Hd|]. split; [intros; lia|].
      intros d' post E' Hd'. rewrite Hl.
      apply (separators_longest None (c :: s) d' post (S n) M); auto.
      now rewrite E.
    + destruct IH as [Hnone|(seg & d & rest & E & Hd & Hleft & Hmax)].
      * left. intros pre d post E Hd. destruct pre as [|x pre].
        -- now apply (Hfree d post).
        -- cbn [app] in E. injection E as _ E.
           now apply (Hnone pre d post).
      * right. exists (c :: seg), d, rest. cbn [app].
        split; [now rewrite E|]. split; [exact Hd|]. split; [|exact Hmax].
        intros pre d' post E' Hd'. destruct pre as [|x pre].
        -- exfalso. apply (Hfree d' post); auto. now rewrite E.
        -- cbn [app] in E'. injection E' as _ E'. cbn [length].
           specialize (Hleft pre d' post E' Hd'). lia.
Qed.

(** Every string can be cut as [divided] tells. *)
Lemma divided_exists (raw : str) : exists segs seps, divided raw segs seps.
Proof.
  remember (length raw) as n eqn:Hn.
  revert raw Hn. induction n as [n IH] using lt_wf_ind. intros raw ->.
  destruct (first_separator raw)
    as [Hnone|(seg & d & rest & E & Hd & Hleft & Hmax)].
  - exists [raw], []. now constructor.
  - assert (Hl : length rest < length raw).
    { rewrite E, !length_app.
      destruct d; [now destruct separator_not_empty|]. cbn [length]. lia. }
    destruct (IH (length rest) Hl rest eq_refl) as (segs & seps & D).
    exists (seg :: segs), (d :: seps). rewrite E. now constructor.
Qed.

(** [re.split] cuts a string as [divided] tells. *)
Lemma split_divided (raw : str) :
  exists seps, divided raw (split true SEPARATORS raw) seps.
Proof.
  destruct (divided_exists raw) as (segs & seps & D).
  exists seps. now rewrite (divided_split raw segs seps D).
Qed.

Lemma same_cut (a b a' b' : str) :
  a ++ b = a' ++ b' -> length a = length a' -> a = a' /\ b = b'.
Proof.
  revert a'. induction a as [|x a IH]; intros [|x' a'] E L;
    try discriminate L.
  - split; [reflexivity|exact E].
  - cbn [app] in E. injection E as -> E. cbn [length] in L.
    destruct (IH a' E) as [-> ->]; [lia|]. split; reflexivity.
Qed.

(** A string is cut as [divided] tells in one way only. *)
Lemma divided_unique (raw : str) (segs seps : list str) :
  divided raw segs seps ->
  forall segs' seps',
  divided raw segs' seps' -> segs = segs' /\ seps = seps'.
Proof.
  induction 1 as [s Hfree|seg d rest segs seps Hd Hleft Hmax D IH];
    intros segs' seps' D'.
  - inversion D' as [s' Hfree' E1 E2 E3
                    |seg' d' rest' segs2 seps2 Hd' Hleft' Hmax' D2 E1 E2 E3].
    + split; reflexivity.
    + symmetry in E1. now destruct (Hfree seg' d' rest' E1).
  - inversion D' as [s' Hfree' E1 E2 E3
                    |seg' d' rest' segs2 seps2 Hd' Hleft' Hmax' D2 E1 E2 E3].
    + now destruct (Hfree' seg d rest eq_refl).
    + pose proof (Hleft seg' d' rest' (eq_sym E1) Hd') as L1.
      rewrite E1 in Hleft'.
      pose proof (Hleft' seg d rest eq_refl Hd) as L2.
      destruct (same_cut _ _ _ _ E1) as [-> E]; [lia|].
      pose proof (Hmax d' rest' (eq_sym E) Hd') as M1.
      pose proof (Hmax' d rest E Hd) as M2.
      destruct (same_cut _ _ _ _ E) as [-> ->]; [lia|].
      destruct (IH segs2 seps2 D2) as [-> ->]. split; reflexivity.
Qed.

(** C9, as amended: an absent location splits into no piece.  A location
    is cut as a scan from left to right cuts it: each cut is made where a
    separator next begins and takes the longest separator that begins
    there, a separator being "and" in any case between two runs of
    whitespace, or one of [,] [;] [/] [|]; the scan goes on after the
    cut, so the cuts do not overlap and whitespace taken by one cut does
    not serve the next.  Every string is cut so in one way only; the
    pieces are the segments between the cuts, trimmed, from left to
    right, the blank ones left out, so every piece is non-empty and
    trimmed; and "Paris and Tokyo, London" splits into "Paris", "Tokyo",
    "London". *)
Theorem C9_split_locations :
  split_locations None = []
  /\ (forall raw, exists segs seps,
        divided raw segs seps
        /\ raw = join segs seps
        /\ length segs = S (length seps)
        /\ Forall separator seps
        /\ (forall seg pre d post,
              In seg segs -> seg = pre ++ d ++ post -> ~ separator d)
        /\ split_locations (Some raw) = map strip (filter nonblank segs))
  /\ (forall raw segs seps,
        divided raw segs seps ->
        split_locations (Some raw) = map strip (filter nonblank segs))
  /\ (forall raw segs seps segs' seps',
        divided raw segs seps -> divided raw segs' seps' ->
        segs = segs' /\ seps = seps')
  /\ (forall raw p, In p (split_locations raw) -> p <> [] /\ strip p = p)
  /\ split_locations (Some (txt "Paris and Tokyo, London"))
     = [txt "Paris"; txt "Tokyo"; txt "London"].
Proof.
  split; [reflexivity|].
  split; [|split; [|split; [|split; [|vm_compute; reflexivity]]]].
  - intros raw. destruct (split_divided raw) as (seps & D).
    exists (split true SEPARATORS raw), seps.
    destruct (divided_join _ _ _ D) as (J & L & F).
    repeat split; auto.
    + intros seg pre d post.
      apply (split_go_clean true SEPARATORS separator separators_sound
               separators_complete separator_not_empty raw None 0
               (Nat.le_0_l _)).
    + apply split_locations_some.
  - intros raw segs seps D.
    now rewrite split_locations_some, (divided_split raw segs seps D).
  - intros raw segs seps segs' seps' D. now apply divided_unique.
  - intros [raw|] p; [|contradiction].
    rewrite split_locations_some, in_map_iff.
    intros (seg & <- & Hin). apply filter_In in Hin. destruct Hin as [_ Hn].
    unfold nonblank in Hn. apply andb_prop in Hn. destruct Hn as [_ Hn].
    split; [|apply strip_idem].
    intros E. rewrite E in Hn. discriminate Hn.
Qed.

Lemma C9_split_locations_witness :
  exists seps,
    divided (txt "Oslo and  AND Rome|Lima")
            [txt "Oslo"; txt "AND Rome"; txt "Lima"] seps
    /\ split_locations (Some (txt "Oslo and  AND Rome|Lima"))
       = map strip
           (filter nonblank [txt "Oslo"; txt "AND Rome"; txt "Lima"]).
Proof.
  destruct (split_divided (txt "Oslo and  AND Rome|Lima")) as (seps & D).
  vm_compute in D. exists seps. split; [exact D|].
  exact (proj1 (proj2 (proj2 C9_split_locations))
           (txt "Oslo and  AND Rome|Lima")
           [txt "Oslo"; txt "AND Rome"; txt "Lima"] seps D).
Defined.

(** C9 as stated fails: in "A and and B" the second "and" stands between
    whitespace, yet the location is not divided there: the piece "and B"
    holds it. *)
Lemma C9_split_locations_counterexample :
  txt "A and and B" = txt "A and" ++ txt " and " ++ txt "B"
  /\ separator (txt " and ")
  /\ split_locations (Some (txt "A and and B")) = [txt "A"; txt "and B"].
Proof.
  split; [reflexivity|]. split; [|vm_compute; reflexivity].
  change (txt " and ") with ([" "%char] ++ txt "and" ++ [" "%char]).
  constructor; first [discriminate|reflexivity].
Qed.
